(** * pixijs-cad-poc: shape store, culling, selection and interaction

    A shallow embedding of [src/pixi/ShapeManager.ts], of the two
    revisions of the project importer ([src/utils/jsonParser.ts]) and of
    the stress-test generator, with the properties stated about them.

    Conventions of the embedding.
    - A JavaScript [number] is a real number ([R]); rounding, overflow
      and NaN are not modelled.  The literal [Infinity] (used only to
      initialise bounding boxes) is modelled by the type [ext].
    - A [Map<string, V>] is an association list in insertion order, a
      [Set<string>] a duplicate-free list in insertion order.
    - A Pixi display object ([Graphics], [Text]) is identified by a
      number handed out by an allocator kept in the manager; a
      [Container] is the list of the identities of its children.
    - A method of [ShapeManager] is a function on the manager state;
      a method that can throw a [TypeError] returns a [Result].
    - The spatial index ([rbush], a dependency) is modelled after the
      library; the order in which its bulk loader arranges the items is
      a parameter ([arrange]) of everything said about culling. *)

From Stdlib Require Import Reals Lra List String Ascii Bool Arith ZArith Lia.
From Stdlib Require Import DecimalString.
From Stdlib Require DecimalNat.
From Stdlib Require Import Permutation.
Import ListNotations.

Set Implicit Arguments.

(* ================================================================== *)
(** ** Numbers *)

Module Num.

Definition ltb (a b : R) : bool := if Rlt_dec a b then true else false.
Definition leb (a b : R) : bool := if Rle_dec a b then true else false.
Definition gtb (a b : R) : bool := ltb b a.
Definition geb (a b : R) : bool := leb b a.
Definition eqb (a b : R) : bool := if Req_dec_T a b then true else false.

(** [v || d] on an optional number: [undefined] and [0] are falsy. *)
Definition orElse (v : option R) (d : R) : R :=
  match v with
  | Some r => if eqb r 0 then d else r
  | None => d
  end.

(** [v !== undefined ? v : d]. *)
Definition ifDefined (v : option R) (d : R) : R :=
  match v with Some r => r | None => d end.

(** Numbers extended with the two infinities. *)
Inductive ext : Type :=
| NegInfinity
| Finite (r : R)
| Infinity.

Definition xltb (a b : ext) : bool :=
  match a, b with
  | NegInfinity, NegInfinity => false
  | NegInfinity, _ => true
  | Finite _, NegInfinity => false
  | Finite r, Finite s => ltb r s
  | Finite _, Infinity => true
  | Infinity, _ => false
  end.

Definition xleb (a b : ext) : bool :=
  match a, b with
  | NegInfinity, _ => true
  | Finite _, NegInfinity => false
  | Finite r, Finite s => leb r s
  | Finite _, Infinity => true
  | Infinity, Infinity => true
  | Infinity, _ => false
  end.

Definition xgtb (a b : ext) : bool := xltb b a.
Definition xgeb (a b : ext) : bool := xleb b a.

(** Template-literal rendering of a non-negative integer. *)
Definition toString (n : nat) : string :=
  NilEmpty.string_of_uint (Nat.to_uint n).

End Num.

(* ================================================================== *)
(** ** [types/shapes.ts] *)

Record Coordinate : Type := mkCoordinate { x : R; y : R }.

Record ShapeStyle : Type := mkStyle {
  fillColor : option string;
  borderColor : option string;
  borderWidth : option R;
  opacity : option R
}.

(** [Shape = PolygonShape | LineShape | PointShape], discriminated by
    the [type] field. *)
Inductive Shape : Type :=
| polygon (id : string) (coordinates : list Coordinate)
    (style : ShapeStyle) (label : option string)
| line (id : string) (points : list Coordinate)
    (style : ShapeStyle) (label : option string)
| point (id : string) (coordinate : Coordinate)
    (style : ShapeStyle) (radius : option R) (label : option string).

Inductive ShapeType : Type := TPolygon | TLine | TPoint.

Definition shape_type (s : Shape) : ShapeType :=
  match s with
  | polygon _ _ _ _ => TPolygon
  | line _ _ _ _ => TLine
  | point _ _ _ _ _ => TPoint
  end.

Definition shape_id (s : Shape) : string :=
  match s with
  | polygon i _ _ _ => i
  | line i _ _ _ => i
  | point i _ _ _ _ => i
  end.

Definition shape_style (s : Shape) : ShapeStyle :=
  match s with
  | polygon _ _ st _ => st
  | line _ _ st _ => st
  | point _ _ st _ _ => st
  end.

Definition is_line (s : Shape) : bool :=
  match s with line _ _ _ _ => true | _ => false end.

(** The vertices a shape is made of (its centre, for a point). *)
Definition shape_vertices (s : Shape) : list Coordinate :=
  match s with
  | polygon _ cs _ _ => cs
  | line _ ps _ _ => ps
  | point _ c _ _ _ => [c]
  end.

(* ================================================================== *)
(** ** JavaScript containers *)

Module JsMap.
Section WithValue.
Variable V : Type.

Fixpoint get (k : string) (m : list (string * V)) : option V :=
  match m with
  | [] => None
  | (k', v) :: rest => if String.eqb k k' then Some v else get k rest
  end.

(** [Map.prototype.set]: an existing key keeps its position. *)
Fixpoint set (k : string) (v : V) (m : list (string * V)) : list (string * V) :=
  match m with
  | [] => [(k, v)]
  | (k', v') :: rest =>
      if String.eqb k k' then (k, v) :: rest else (k', v') :: set k v rest
  end.

Fixpoint delete (k : string) (m : list (string * V)) : list (string * V) :=
  match m with
  | [] => []
  | (k', v') :: rest =>
      if String.eqb k k' then rest else (k', v') :: delete k rest
  end.

Definition keys (m : list (string * V)) : list string := map fst m.

End WithValue.
End JsMap.

Module JsSet.

Fixpoint has (k : string) (s : list string) : bool :=
  match s with
  | [] => false
  | k' :: rest => if String.eqb k k' then true else has k rest
  end.

Definition add (k : string) (s : list string) : list string :=
  if has k s then s else s ++ [k].

Fixpoint delete (k : string) (s : list string) : list string :=
  match s with
  | [] => []
  | k' :: rest => if String.eqb k k' then rest else k' :: delete k rest
  end.

(** [new Set(array)]: first occurrences, in order. *)
Definition ofList (l : list string) : list string :=
  fold_left (fun s k => add k s) l [].

End JsSet.

(* ================================================================== *)
(** ** The Pixi scene graph, as far as [ShapeManager] uses it *)

Local Open Scope R_scope.

(** A colour argument: either [this.hexToNumber(hex)], left
    uninterpreted, or a numeric literal such as [0x0066ff]. *)
Inductive Color : Type :=
| hexToNumber (hex : string)
| literal (n : N).

Definition selectionColor : Color := literal 26367. (* 0x0066ff *)

(** The drawing calls recorded by a [Graphics]; [roundCaps] stands for
    [cap: 'round', join: 'round']. *)
Inductive DrawCmd : Type :=
| poly (pts : list R)
| moveTo (px py : R)
| lineTo (px py : R)
| circle (px py r : R)
| rect (px py w h : R)
| fill (color : Color) (alpha : option R)
| stroke (width : R) (color : Color) (roundCaps : bool).

Record Graphics : Type := mkGraphics {
  gid : nat;                     (* identity of the object *)
  commands : list DrawCmd;       (* what it currently draws *)
  glabel : string;               (* graphics.label *)
  dragListeners : list string    (* shape ids captured by the pointerdown
                                    listeners of enableDragAndDrop *)
}.

Record Text : Type := mkText { tid : nat; tvisible : bool }.

Record ResizeHandleGraphics : Type := mkHandle {
  hgid : nat;
  position : Coordinate;
  visible : bool;
  handleIndex : option nat;
  shapeId : option string;
  resizeListener : bool          (* pointerdown listener of enableResize *)
}.

Module Container.

Definition removeChild (child : nat) (children : list nat) : list nat :=
  remove Nat.eq_dec child children.

(** [addChild] first takes the child out of its current parent. *)
Definition addChild (child : nat) (children : list nat) : list nat :=
  removeChild child children ++ [child].

Definition hasChild (child : nat) (children : list nat) : bool :=
  existsb (Nat.eqb child) children.

End Container.

(** A string is truthy when it is defined and not empty. *)
Definition truthy (s : option string) : option string :=
  match s with
  | Some EmptyString => None
  | other => other
  end.

Definition flatten (coords : list Coordinate) : list R :=
  flat_map (fun c => [x c; y c]) coords.

Definition createPolygon (st : ShapeStyle) (coords : list Coordinate) : list DrawCmd :=
  match coords with
  | [] => []
  | _ :: _ =>
      [poly (flatten coords)]
      ++ match truthy (fillColor st) with
         | Some c => [fill (hexToNumber c) (Some (Num.orElse (opacity st) 1))]
         | None => []
         end
      ++ match truthy (borderColor st) with
         | Some c => [stroke (Num.orElse (borderWidth st) 1) (hexToNumber c) true]
         | None => []
         end
  end.

Definition strokeColor (st : ShapeStyle) : Color :=
  hexToNumber (match truthy (borderColor st) with
               | Some c => c
               | None => "#000000"%string
               end).

Definition createLine (st : ShapeStyle) (pts : list Coordinate) : list DrawCmd :=
  match pts with
  | p0 :: (_ :: _) as rest =>
      moveTo (x p0) (y p0)
      :: map (fun p => lineTo (x p) (y p)) rest
      ++ [stroke (Num.orElse (borderWidth st) 1) (strokeColor st) true]
  | _ => []
  end.

Definition createPoint (c : Coordinate) (st : ShapeStyle) (radius : option R) : list DrawCmd :=
  [circle (x c) (y c) (Num.orElse radius 5)]
  ++ match truthy (fillColor st) with
     | Some f => [fill (hexToNumber f) (Some (Num.orElse (opacity st) 1))]
     | None => []
     end
  ++ match truthy (borderColor st) with
     | Some b => [stroke (Num.orElse (borderWidth st) 1) (hexToNumber b) false]
     | None => []
     end.

(** The drawing calls of [updateShapeVisuals] after [graphics.clear()]. *)
Definition redraw (s : Shape) (selected : bool) : list DrawCmd :=
  match s with
  | polygon _ coords st _ =>
      match coords with
      | [] => []
      | _ :: _ =>
          [poly (flatten coords)]
          ++ match truthy (fillColor st) with
             | Some c =>
                 let baseAlpha := Num.ifDefined (opacity st) 1 in
                 [fill (hexToNumber c)
                    (Some (if selected then baseAlpha * 0.7 else baseAlpha))]
             | None => []
             end
          ++ [stroke (Num.orElse (borderWidth st) 1)
                (if selected then selectionColor else strokeColor st) true]
      end
  | line _ pts st _ =>
      match pts with
      | p0 :: (_ :: _) as rest =>
          moveTo (x p0) (y p0)
          :: map (fun p => lineTo (x p) (y p)) rest
          ++ [stroke (Num.orElse (borderWidth st) 1)
                (if selected then selectionColor else strokeColor st) true]
      | _ => []
      end
  | point _ c st radius _ =>
      [circle (x c) (y c) (Num.orElse radius 5)]
      ++ match truthy (fillColor st) with
         | Some f =>
             [fill (if selected then selectionColor else hexToNumber f)
                (Some (Num.ifDefined (opacity st) 1))]
         | None => []
         end
      ++ [stroke (Num.orElse (borderWidth st) 1)
            (if selected then selectionColor else strokeColor st) false]
  end.

(* ================================================================== *)
(** ** [ShapeManager]: state *)

Definition LOD_MEDIUM_THRESHOLD : R := 3.
Definition LOD_LOW_THRESHOLD : R := 8.
Definition BUFFER_PERCENT : R := 0.4.
Definition BASE_AREA : R := 2000 * 2000.

(** A bounding box [{minX, minY, maxX, maxY}]. *)
Record BBox : Type := mkBBox {
  minX : Num.ext;
  minY : Num.ext;
  maxX : Num.ext;
  maxY : Num.ext
}.

(** [{...bounds, id}]. *)
Record RBushItem : Type := mkItem { bbox : BBox; item_id : string }.

Record ShapeData : Type := mkShapeData {
  graphics : Graphics;
  shape : Shape;
  inScene : bool
}.

Record ShapeManager : Type := mkManager {
  shapesContainer : list nat;
  labelsContainer : list nat;
  resizeHandlesContainer : list nat;
  shapes : list (string * ShapeData);
  labels : list (string * Text);
  selectedShapes : list string;
  shapesInScene : list string;
  selectionChangedCallback : bool;          (* is a callback registered *)
  selectionEvents : list (list string);     (* arguments it was called with *)
  resizeHandles : list ResizeHandleGraphics;
  isDragging : bool;
  dragOffset : Coordinate;
  isResizing : bool;
  resizeHandleIndex : Z;
  activeShapeId : option string;
  spatialIndex : option (list RBushItem);   (* the items it was loaded with *)
  destroyed : list nat;                     (* objects destroy() was called on *)
  nextGraphics : nat                        (* allocator of [new Graphics()] *)
}.

(** The constructor: three empty containers, nothing else. *)
Definition newShapeManager : ShapeManager :=
  mkManager [] [] [] [] [] [] [] false [] [] false (mkCoordinate 0 0) false
    (-1)%Z None None [] 0.

Section Setters.
Variable m : ShapeManager.

Definition with_shapesContainer v :=
  mkManager v (labelsContainer m) (resizeHandlesContainer m) (shapes m) (labels m)
    (selectedShapes m) (shapesInScene m) (selectionChangedCallback m)
    (selectionEvents m) (resizeHandles m) (isDragging m) (dragOffset m)
    (isResizing m) (resizeHandleIndex m) (activeShapeId m) (spatialIndex m)
    (destroyed m) (nextGraphics m).
Definition with_labelsContainer v :=
  mkManager (shapesContainer m) v (resizeHandlesContainer m) (shapes m) (labels m)
    (selectedShapes m) (shapesInScene m) (selectionChangedCallback m)
    (selectionEvents m) (resizeHandles m) (isDragging m) (dragOffset m)
    (isResizing m) (resizeHandleIndex m) (activeShapeId m) (spatialIndex m)
    (destroyed m) (nextGraphics m).
Definition with_resizeHandlesContainer v :=
  mkManager (shapesContainer m) (labelsContainer m) v (shapes m) (labels m)
    (selectedShapes m) (shapesInScene m) (selectionChangedCallback m)
    (selectionEvents m) (resizeHandles m) (isDragging m) (dragOffset m)
    (isResizing m) (resizeHandleIndex m) (activeShapeId m) (spatialIndex m)
    (destroyed m) (nextGraphics m).
Definition with_shapes v :=
  mkManager (shapesContainer m) (labelsContainer m) (resizeHandlesContainer m) v
    (labels m) (selectedShapes m) (shapesInScene m) (selectionChangedCallback m)
    (selectionEvents m) (resizeHandles m) (isDragging m) (dragOffset m)
    (isResizing m) (resizeHandleIndex m) (activeShapeId m) (spatialIndex m)
    (destroyed m) (nextGraphics m).
Definition with_labels v :=
  mkManager (shapesContainer m) (labelsContainer m) (resizeHandlesContainer m)
    (shapes m) v (selectedShapes m) (shapesInScene m) (selectionChangedCallback m)
    (selectionEvents m) (resizeHandles m) (isDragging m) (dragOffset m)
    (isResizing m) (resizeHandleIndex m) (activeShapeId m) (spatialIndex m)
    (destroyed m) (nextGraphics m).
Definition with_selectedShapes v :=
  mkManager (shapesContainer m) (labelsContainer m) (resizeHandlesContainer m)
    (shapes m) (labels m) v (shapesInScene m) (selectionChangedCallback m)
    (selectionEvents m) (resizeHandles m) (isDragging m) (dragOffset m)
    (isResizing m) (resizeHandleIndex m) (activeShapeId m) (spatialIndex m)
    (destroyed m) (nextGraphics m).
Definition with_shapesInScene v :=
  mkManager (shapesContainer m) (labelsContainer m) (resizeHandlesContainer m)
    (shapes m) (labels m) (selectedShapes m) v (selectionChangedCallback m)
    (selectionEvents m) (resizeHandles m) (isDragging m) (dragOffset m)
    (isResizing m) (resizeHandleIndex m) (activeShapeId m) (spatialIndex m)
    (destroyed m) (nextGraphics m).
Definition with_selectionChangedCallback v :=
  mkManager (shapesContainer m) (labelsContainer m) (resizeHandlesContainer m)
    (shapes m) (labels m) (selectedShapes m) (shapesInScene m) v
    (selectionEvents m) (resizeHandles m) (isDragging m) (dragOffset m)
    (isResizing m) (resizeHandleIndex m) (activeShapeId m) (spatialIndex m)
    (destroyed m) (nextGraphics m).
Definition with_selectionEvents v :=
  mkManager (shapesContainer m) (labelsContainer m) (resizeHandlesContainer m)
    (shapes m) (labels m) (selectedShapes m) (shapesInScene m)
    (selectionChangedCallback m) v (resizeHandles m) (isDragging m) (dragOffset m)
    (isResizing m) (resizeHandleIndex m) (activeShapeId m) (spatialIndex m)
    (destroyed m) (nextGraphics m).
Definition with_resizeHandles v :=
  mkManager (shapesContainer m) (labelsContainer m) (resizeHandlesContainer m)
    (shapes m) (labels m) (selectedShapes m) (shapesInScene m)
    (selectionChangedCallback m) (selectionEvents m) v (isDragging m) (dragOffset m)
    (isResizing m) (resizeHandleIndex m) (activeShapeId m) (spatialIndex m)
    (destroyed m) (nextGraphics m).
Definition with_isDragging v :=
  mkManager (shapesContainer m) (labelsContainer m) (resizeHandlesContainer m)
    (shapes m) (labels m) (selectedShapes m) (shapesInScene m)
    (selectionChangedCallback m) (selectionEvents m) (resizeHandles m) v
    (dragOffset m) (isResizing m) (resizeHandleIndex m) (activeShapeId m)
    (spatialIndex m) (destroyed m) (nextGraphics m).
Definition with_dragOffset v :=
  mkManager (shapesContainer m) (labelsContainer m) (resizeHandlesContainer m)
    (shapes m) (labels m) (selectedShapes m) (shapesInScene m)
    (selectionChangedCallback m) (selectionEvents m) (resizeHandles m)
    (isDragging m) v (isResizing m) (resizeHandleIndex m) (activeShapeId m)
    (spatialIndex m) (destroyed m) (nextGraphics m).
Definition with_isResizing v :=
  mkManager (shapesContainer m) (labelsContainer m) (resizeHandlesContainer m)
    (shapes m) (labels m) (selectedShapes m) (shapesInScene m)
    (selectionChangedCallback m) (selectionEvents m) (resizeHandles m)
    (isDragging m) (dragOffset m) v (resizeHandleIndex m) (activeShapeId m)
    (spatialIndex m) (destroyed m) (nextGraphics m).
Definition with_resizeHandleIndex v :=
  mkManager (shapesContainer m) (labelsContainer m) (resizeHandlesContainer m)
    (shapes m) (labels m) (selectedShapes m) (shapesInScene m)
    (selectionChangedCallback m) (selectionEvents m) (resizeHandles m)
    (isDragging m) (dragOffset m) (isResizing m) v (activeShapeId m)
    (spatialIndex m) (destroyed m) (nextGraphics m).
Definition with_activeShapeId v :=
  mkManager (shapesContainer m) (labelsContainer m) (resizeHandlesContainer m)
    (shapes m) (labels m) (selectedShapes m) (shapesInScene m)
    (selectionChangedCallback m) (selectionEvents m) (resizeHandles m)
    (isDragging m) (dragOffset m) (isResizing m) (resizeHandleIndex m) v
    (spatialIndex m) (destroyed m) (nextGraphics m).
Definition with_spatialIndex v :=
  mkManager (shapesContainer m) (labelsContainer m) (resizeHandlesContainer m)
    (shapes m) (labels m) (selectedShapes m) (shapesInScene m)
    (selectionChangedCallback m) (selectionEvents m) (resizeHandles m)
    (isDragging m) (dragOffset m) (isResizing m) (resizeHandleIndex m)
    (activeShapeId m) v (destroyed m) (nextGraphics m).
Definition with_destroyed v :=
  mkManager (shapesContainer m) (labelsContainer m) (resizeHandlesContainer m)
    (shapes m) (labels m) (selectedShapes m) (shapesInScene m)
    (selectionChangedCallback m) (selectionEvents m) (resizeHandles m)
    (isDragging m) (dragOffset m) (isResizing m) (resizeHandleIndex m)
    (activeShapeId m) (spatialIndex m) v (nextGraphics m).
Definition with_nextGraphics v :=
  mkManager (shapesContainer m) (labelsContainer m) (resizeHandlesContainer m)
    (shapes m) (labels m) (selectedShapes m) (shapesInScene m)
    (selectionChangedCallback m) (selectionEvents m) (resizeHandles m)
    (isDragging m) (dragOffset m) (isResizing m) (resizeHandleIndex m)
    (activeShapeId m) (spatialIndex m) (destroyed m) v.

End Setters.

(* ================================================================== *)
(** ** [ShapeManager]: the store and the spatial index *)

(** The outcome of a method that may throw: [Threw m] is a [TypeError]
    raised in state [m]. *)
Inductive Result : Type :=
| Returned (m : ShapeManager)
| Threw (m : ShapeManager).

Definition state_of (r : Result) : ShapeManager :=
  match r with Returned m => m | Threw m => m end.

(** [object.destroy()]: the object leaves its parent and is dead. *)
Definition destroy (g : nat) (m : ShapeManager) : ShapeManager :=
  let m := with_shapesContainer m (Container.removeChild g (shapesContainer m)) in
  let m := with_labelsContainer m (Container.removeChild g (labelsContainer m)) in
  let m := with_resizeHandlesContainer m
             (Container.removeChild g (resizeHandlesContainer m)) in
  with_destroyed m (g :: destroyed m).

Definition createGraphics (s : Shape) : list DrawCmd :=
  match s with
  | polygon _ coords st _ => createPolygon st coords
  | line _ pts st _ => createLine st pts
  | point _ c st radius _ => createPoint c st radius
  end.

Definition addShape (s : Shape) (m : ShapeManager) : ShapeManager * Graphics :=
  let g := mkGraphics (nextGraphics m) (createGraphics s) (shape_id s) [] in
  let m := with_nextGraphics m (S (nextGraphics m)) in
  (with_shapes m (JsMap.set (shape_id s) (mkShapeData g s false) (shapes m)), g).

Definition emptyBounds : BBox :=
  mkBBox Num.Infinity Num.Infinity Num.NegInfinity Num.NegInfinity.

Definition extendBounds (b : BBox) (c : Coordinate) : BBox :=
  let minX' := if Num.xltb (Num.Finite (x c)) (minX b) then Num.Finite (x c) else minX b in
  let maxX' := if Num.xgtb (Num.Finite (x c)) (maxX b) then Num.Finite (x c) else maxX b in
  let minY' := if Num.xltb (Num.Finite (y c)) (minY b) then Num.Finite (y c) else minY b in
  let maxY' := if Num.xgtb (Num.Finite (y c)) (maxY b) then Num.Finite (y c) else maxY b in
  mkBBox minX' minY' maxX' maxY'.

Definition calculateShapeBounds (s : Shape) : BBox :=
  match s with
  | polygon _ coords _ _ => fold_left extendBounds coords emptyBounds
  | line _ pts _ _ => fold_left extendBounds pts emptyBounds
  | point _ c _ radius _ =>
      let r := Num.orElse radius 5 in
      mkBBox (Num.Finite (x c - r)) (Num.Finite (y c - r))
             (Num.Finite (x c + r)) (Num.Finite (y c + r))
  end.

(** [new RBush(); load(items)]: the index holds one item per shape.
    The state keeps the items; the tree [load] makes of them is
    [RBush.load], below. *)
Definition buildSpatialIndex (m : ShapeManager) : ShapeManager :=
  with_spatialIndex m
    (Some (map (fun e => mkItem (calculateShapeBounds (shape (snd e)))
                           (shape_id (shape (snd e))))
               (shapes m))).

Definition removeShape (i : string) (m : ShapeManager) : ShapeManager :=
  let m :=
    match JsMap.get i (shapes m) with
    | Some shapeData =>
        let g := gid (graphics shapeData) in
        let m := with_shapesContainer m (Container.removeChild g (shapesContainer m)) in
        let m := destroy g m in
        with_shapes m (JsMap.delete i (shapes m))
    | None => m
    end in
  match JsMap.get i (labels m) with
  | Some label =>
      let m := with_labelsContainer m (Container.removeChild (tid label) (labelsContainer m)) in
      let m := destroy (tid label) m in
      with_labels m (JsMap.delete i (labels m))
  | None => m
  end.

Definition clear (m : ShapeManager) : ShapeManager :=
  let m := fold_left (fun m e => destroy (gid (graphics (snd e))) m) (shapes m) m in
  let m := fold_left (fun m e => destroy (tid (snd e)) m) (labels m) m in
  let m := with_shapes m [] in
  let m := with_labels m [] in
  let m := with_shapesInScene m [] in
  let m := with_shapesContainer m [] in
  with_labelsContainer m [].

Definition getShape (i : string) (m : ShapeManager) : option (Graphics * Shape) :=
  match JsMap.get i (shapes m) with
  | Some shapeData => Some (graphics shapeData, shape shapeData)
  | None => None
  end.

Definition getAllShapes (m : ShapeManager) : list (Graphics * Shape) :=
  map (fun e => (graphics (snd e), shape (snd e))) (shapes m).

Definition getShapeCount (m : ShapeManager) : nat := List.length (shapes m).

Definition getShapeById (i : string) (m : ShapeManager) : option Shape :=
  option_map (@shape) (JsMap.get i (shapes m)).

Definition set_commands (g : Graphics) (cmds : list DrawCmd) : Graphics :=
  mkGraphics (gid g) cmds (glabel g) (dragListeners g).

Definition updateShapeVisuals (i : string) (selected : bool) (m : ShapeManager)
  : ShapeManager :=
  match JsMap.get i (shapes m) with
  | None => m
  | Some shapeData =>
      let g := set_commands (graphics shapeData) (redraw (shape shapeData) selected) in
      with_shapes m
        (JsMap.set i (mkShapeData g (shape shapeData) (inScene shapeData)) (shapes m))
  end.

(* ================================================================== *)
(** ** [ShapeManager]: selection and resize handles *)

Definition clearResizeHandles (m : ShapeManager) : ShapeManager :=
  let m := fold_left (fun m h => destroy (hgid h) m) (resizeHandles m) m in
  let m := with_resizeHandles m [] in
  with_resizeHandlesContainer m [].

(** One iteration of the handle-creating loops: a new [Graphics] is
    positioned, tagged, attached to the handle container and recorded. *)
Definition newHandle (sid : string) (pos : Coordinate) (index : nat)
  (m : ShapeManager) : ShapeManager :=
  let h := mkHandle (nextGraphics m) pos true (Some index) (Some sid) false in
  let m := with_nextGraphics m (S (nextGraphics m)) in
  let m := with_resizeHandlesContainer m
             (Container.addChild (hgid h) (resizeHandlesContainer m)) in
  with_resizeHandles m (resizeHandles m ++ [h]).

Fixpoint newHandles (sid : string) (ps : list Coordinate) (index : nat)
  (m : ShapeManager) : ShapeManager :=
  match ps with
  | [] => m
  | p :: rest => newHandles sid rest (S index) (newHandle sid p index m)
  end.

Definition directions : list Coordinate :=
  [mkCoordinate (-1) (-1); mkCoordinate 1 (-1); mkCoordinate 1 1; mkCoordinate (-1) 1].

(** Where the handles of a shape sit: on the vertices of a polygon, on
    the four diagonals of a point; a line has none. *)
Definition handlePositions (s : Shape) : list Coordinate :=
  match s with
  | polygon _ coords _ _ => coords
  | line _ _ _ _ => []
  | point _ c _ r _ =>
      let radius := Num.orElse r 5 in
      map (fun dir => mkCoordinate (x c + x dir * radius) (y c + y dir * radius))
          directions
  end.

Definition createResizeHandles (sid : string) (m : ShapeManager) : ShapeManager :=
  let m := clearResizeHandles m in
  match JsMap.get sid (shapes m) with
  | None => m
  | Some shapeData => newHandles sid (handlePositions (shape shapeData)) 0 m
  end.

Definition set_position (h : ResizeHandleGraphics) (p : Coordinate) :=
  mkHandle (hgid h) p (visible h) (handleIndex h) (shapeId h) (resizeListener h).

Definition set_visible (v : bool) (h : ResizeHandleGraphics) :=
  mkHandle (hgid h) (position h) v (handleIndex h) (shapeId h) (resizeListener h).

Definition set_resizeListener (h : ResizeHandleGraphics) :=
  mkHandle (hgid h) (position h) (visible h) (handleIndex h) (shapeId h) true.

(** [if (this.resizeHandles[index]) this.resizeHandles[index].position.set(..)]
    for every index of [ps]. *)
Fixpoint repositionHandles (ps : list Coordinate) (hs : list ResizeHandleGraphics)
  : list ResizeHandleGraphics :=
  match ps, hs with
  | p :: ps', h :: hs' => set_position h p :: repositionHandles ps' hs'
  | _, _ => hs
  end.

Definition updateResizeHandles (sid : string) (m : ShapeManager) : ShapeManager :=
  match JsMap.get sid (shapes m) with
  | None => m
  | Some shapeData =>
      with_resizeHandles m
        (repositionHandles (handlePositions (shape shapeData)) (resizeHandles m))
  end.

Definition enableResize (m : ShapeManager) : ShapeManager :=
  with_resizeHandles m (map set_resizeListener (resizeHandles m)).

Definition notifySelection (ids : list string) (m : ShapeManager) : ShapeManager :=
  if selectionChangedCallback m
  then with_selectionEvents m (selectionEvents m ++ [ids])
  else m.

(** The block of [selectShape] and [clearSelection] that reverts every
    selected shape, empties the selection and drops the handles. *)
Definition clearPreviousSelections (m : ShapeManager) : ShapeManager :=
  let m := fold_left (fun m selectedId => updateShapeVisuals selectedId false m)
             (selectedShapes m) m in
  let m := with_selectedShapes m [] in
  clearResizeHandles m.

(** The rest of [selectShape], from [this.selectedShapes.add(id)] on. *)
Definition addToSelection (i : string) (m : ShapeManager) : ShapeManager :=
  let m := with_selectedShapes m (JsSet.add i (selectedShapes m)) in
  let m := updateShapeVisuals i true m in
  let m := if Nat.eqb (List.length (selectedShapes m)) 1
           then enableResize (createResizeHandles i m)
           else clearResizeHandles m in
  notifySelection (selectedShapes m) m.

Definition selectShape (i : string) (multiSelect : bool) (m : ShapeManager)
  : ShapeManager :=
  addToSelection i (if multiSelect then m else clearPreviousSelections m).

Definition deselectShape (i : string) (m : ShapeManager) : ShapeManager :=
  if JsSet.has i (selectedShapes m) then
    let m := with_selectedShapes m (JsSet.delete i (selectedShapes m)) in
    let m := updateShapeVisuals i false m in
    let m := match selectedShapes m with
             | [remainingId] => enableResize (createResizeHandles remainingId m)
             | _ => clearResizeHandles m
             end in
    notifySelection (selectedShapes m) m
  else m.

Definition clearSelection (m : ShapeManager) : ShapeManager :=
  notifySelection [] (clearPreviousSelections m).

Definition isSelected (i : string) (m : ShapeManager) : bool :=
  JsSet.has i (selectedShapes m).

Definition getSelectedShapes (m : ShapeManager) : list string := selectedShapes m.

Definition onSelectionChanged (m : ShapeManager) : ShapeManager :=
  with_selectionChangedCallback m true.

(* ================================================================== *)
(** ** [ShapeManager]: the interaction state machine *)

Fixpoint replace_nth (A : Type) (n : nat) (f : A -> A) (l : list A) : list A :=
  match l, n with
  | [], _ => []
  | a :: rest, O => f a :: rest
  | a :: rest, S n' => a :: replace_nth n' f rest
  end.

(** [array[index]] for a numeric index: [undefined] out of range. *)
Definition at_index (A : Type) (l : list A) (index : Z) : option A :=
  if (index <? 0)%Z then None else nth_error l (Z.to_nat index).

Definition set_shape (i : string) (shapeData : ShapeData) (s : Shape)
  (m : ShapeManager) : ShapeManager :=
  with_shapes m
    (JsMap.set i (mkShapeData (graphics shapeData) s (inScene shapeData)) (shapes m)).

Definition translate (dx dy : R) (c : Coordinate) : Coordinate :=
  mkCoordinate (x c + dx) (y c + dy).

Definition handlePointerUp (m : ShapeManager) : ShapeManager :=
  let m := with_isDragging m false in
  let m := with_isResizing m false in
  let m := with_activeShapeId m None in
  with_resizeHandleIndex m (-1)%Z.

Section Pointer.

(** [container.toLocal(globalPos)]: the transform of the shape container,
    set by the viewport that hosts it. *)
Variable toLocal : Coordinate -> Coordinate.

(** The [pointerdown] listener that [enableDragAndDrop(shapeId, graphics)]
    installs on [graphics]; [g] is the identity of the captured object,
    which has a parent when it is a child of the shape container. *)
Definition dragPointerDown (sid : string) (g : nat) (global : Coordinate)
  (m : ShapeManager) : Result :=
  if isSelected sid m && Container.hasChild g (shapesContainer m) then
    let m := with_isDragging m true in
    let m := with_activeShapeId m (Some sid) in
    match JsMap.get sid (shapes m) with
    | None => Returned m
    | Some shapeData =>
        let localPos := toLocal global in
        let reference :=
          match shape shapeData with
          | polygon _ coords _ _ => nth_error coords 0
          | point _ c _ _ _ => Some c
          | line _ pts _ _ => nth_error pts 0
          end in
        match reference with
        | None => Threw m
        | Some p =>
            Returned (with_dragOffset m
                        (mkCoordinate (x localPos - x p) (y localPos - y p)))
        end
    end
  else Returned m.

Definition enableDragAndDrop (sid : string) (g : nat) (m : ShapeManager)
  : ShapeManager :=
  with_shapes m
    (map (fun e =>
            let shapeData := snd e in
            let gr := graphics shapeData in
            if Nat.eqb (gid gr) g
            then (fst e,
                  mkShapeData
                    (mkGraphics (gid gr) (commands gr) (glabel gr)
                       (dragListeners gr ++ [sid]))
                    (shape shapeData) (inScene shapeData))
            else e)
         (shapes m)).

(** The [pointerdown] listener that [enableResize] installs on a handle. *)
Definition resizePointerDown (h : ResizeHandleGraphics) (m : ShapeManager)
  : ShapeManager :=
  let m := with_isResizing m true in
  let m := with_resizeHandleIndex m
             (match handleIndex h with Some n => Z.of_nat n | None => (-1)%Z end) in
  with_activeShapeId m (shapeId h).

Definition dragShape (localPos offset : Coordinate) (s : Shape) : option Shape :=
  match s with
  | polygon i coords st l =>
      match nth_error coords 0 with
      | None => None
      | Some first =>
          let dx := x localPos - x offset - x first in
          let dy := y localPos - y offset - y first in
          Some (polygon i (map (translate dx dy) coords) st l)
      end
  | point i c st r l =>
      Some (point i (mkCoordinate (x localPos - x offset) (y localPos - y offset))
              st r l)
  | line i pts st l =>
      match nth_error pts 0 with
      | None => None
      | Some first =>
          let dx := x localPos - x offset - x first in
          let dy := y localPos - y offset - y first in
          Some (line i (map (translate dx dy) pts) st l)
      end
  end.

Definition resizeShape (localPos : Coordinate) (index : Z) (s : Shape)
  : option Shape :=
  match s with
  | polygon i coords st l =>
      match at_index coords index with
      | None => None
      | Some _ =>
          Some (polygon i (replace_nth (Z.to_nat index) (fun _ => localPos) coords)
                  st l)
      end
  | point i c st r l =>
      let dx := x localPos - x c in
      let dy := y localPos - y c in
      let newRadius := sqrt (dx * dx + dy * dy) in
      Some (point i c st (Some (Rmax 3 newRadius)) l)
  | line _ _ _ _ => Some s
  end.

Definition handlePointerMove (global : Coordinate) (m : ShapeManager) : Result :=
  match isDragging m, isResizing m, truthy (activeShapeId m) with
  | true, _, Some active =>
      match JsMap.get active (shapes m) with
      | None => Returned m
      | Some shapeData =>
          let localPos := toLocal global in
          match dragShape localPos (dragOffset m) (shape shapeData) with
          | None => Threw m
          | Some s =>
              let m := set_shape active shapeData s m in
              let m := updateShapeVisuals active true m in
              Returned (updateResizeHandles active m)
          end
      end
  | false, true, Some active =>
      match JsMap.get active (shapes m) with
      | None => Returned m
      | Some shapeData =>
          let localPos := toLocal global in
          match resizeShape localPos (resizeHandleIndex m) (shape shapeData) with
          | None => Threw m
          | Some s =>
              let m := set_shape active shapeData s m in
              let m := updateShapeVisuals active true m in
              Returned (updateResizeHandles active m)
          end
      end
  | _, _, _ => Returned m
  end.

End Pointer.

(** [createNewPolygon], [createNewLine], [createNewPoint]; [now] is the
    value of [Date.now()]. *)
Definition createNew (s : Shape) (m : ShapeManager) : ShapeManager * Shape :=
  let (m, g) := addShape s m in
  (enableDragAndDrop (shape_id s) (gid g) m, s).

Definition createNewPolygon (px py size : R) (now : nat) (m : ShapeManager) :=
  let halfSize := size / 2 in
  createNew
    (polygon ("polygon-" ++ Num.toString now)
       [mkCoordinate (px - halfSize) (py - halfSize);
        mkCoordinate (px + halfSize) (py - halfSize);
        mkCoordinate (px + halfSize) (py + halfSize);
        mkCoordinate (px - halfSize) (py + halfSize)]
       (mkStyle (Some "#90EE90"%string) (Some "#228B22"%string) (Some 2) None)
       None) m.

Definition createNewLine (px py len : R) (now : nat) (m : ShapeManager) :=
  createNew
    (line ("line-" ++ Num.toString now)
       [mkCoordinate px py; mkCoordinate (px + len) py]
       (mkStyle None (Some "#0066ff"%string) (Some 2) None)
       None) m.

Definition createNewPoint (px py radius : R) (now : nat) (m : ShapeManager) :=
  createNew
    (point ("point-" ++ Num.toString now) (mkCoordinate px py)
       (mkStyle (Some "#FF6347"%string) (Some "#8B0000"%string) (Some 2) None)
       (Some radius) None) m.

(* ================================================================== *)
(** ** [ShapeManager]: culling and level of detail *)

Record ViewportBounds : Type := mkViewport {
  vx : R;           (* viewportBounds.x *)
  vy : R;           (* viewportBounds.y *)
  width : R;
  height : R
}.

(** The [detail] of the [visibleShapesUpdate] event; [cullTime], a
    wall-clock measurement, is left out. *)
Module Detail.
Record t : Type := mk {
  count : nat;
  total : nat;
  checked : nat;
  added : nat;
  removed : nat;
  inScene : nat;
  skippedByLOD : nat;
  lodLevel : nat
}.
End Detail.

Definition zoomOutFactor (v : ViewportBounds) : R :=
  let viewportArea := width v * height v in
  sqrt (viewportArea / BASE_AREA).

Definition bufferedBounds (v : ViewportBounds) : BBox :=
  let bufferX := width v * BUFFER_PERCENT in
  let bufferY := height v * BUFFER_PERCENT in
  mkBBox (Num.Finite (vx v - bufferX))
         (Num.Finite (vy v - bufferY))
         (Num.Finite (vx v + width v + bufferX))
         (Num.Finite (vy v + height v + bufferY)).

Definition lodLevel (zoom : R) : nat :=
  if Num.gtb zoom LOD_LOW_THRESHOLD then 2%nat
  else if Num.gtb zoom LOD_MEDIUM_THRESHOLD then 1%nat
  else 0%nat.

(** The box test of the index (rbush): closed on every side. *)
Definition intersects (a b : BBox) : bool :=
  Num.xleb (minX b) (maxX a) && Num.xleb (minY b) (maxY a)
  && Num.xgeb (maxX b) (minX a) && Num.xgeb (maxY b) (minY a).

(* ================================================================== *)
(** ** The spatial index ([rbush])

    [rbush] is a dependency of the repository, not part of its sources.
    The model follows the library: a tree whose leaves hold the items
    and whose nodes carry the box of what is below them, built by
    [load] and read by [search].  One part of [load] is left open.  At
    every level [_build] lets its selection routine ([multiSelect])
    reorder the items of the range at hand before it cuts the range
    into nodes, and where it cuts depends on the number of items only;
    so the leaves are those of one rearrangement of all the items made
    up front and cut without any further reordering.  That
    rearrangement is taken as a parameter, a list of picks that stands
    for a permutation.  The heights are computed on integers. *)
Module RBush.

(** [Math.min] and [Math.max] on the sides of boxes. *)
Definition xmin (a b : Num.ext) : Num.ext := if Num.xleb a b then a else b.
Definition xmax (a b : Num.ext) : Num.ext := if Num.xleb a b then b else a.

#[local] Unset Elimination Schemes.
(** A node is a leaf, whose children are items, or an inner node. *)
Inductive Node : Type :=
| leaf (children : list RBushItem)
| inner (children : list Node).
#[local] Set Elimination Schemes.

(** [extend(a, b)]. *)
Definition extend (a b : BBox) : BBox :=
  mkBBox (xmin (minX a) (minX b)) (xmin (minY a) (minY b))
         (xmax (maxX a) (maxX b)) (xmax (maxY a) (maxY b)).

(** [calcBBox(node)]: the box of a node starts as the empty box of
    [createNode] and is extended by every child. *)
Fixpoint nodeBox (node : Node) : BBox :=
  match node with
  | leaf items => fold_left (fun b item => extend b (bbox item)) items emptyBounds
  | inner children =>
      fold_left (fun b child => extend b (nodeBox child)) children emptyBounds
  end.

(** [contains(a, b)]. *)
Definition contains (a b : BBox) : bool :=
  Num.xleb (minX a) (minX b) && Num.xleb (minY a) (minY b)
  && Num.xleb (maxX b) (maxX a) && Num.xleb (maxY b) (maxY a).

(** [_all(node, result)]: every item below a node, no box looked at;
    the nodes wait on a stack, so the last child is emptied first. *)
Fixpoint all (node : Node) : list RBushItem :=
  match node with
  | leaf items => items
  | inner children => fold_left (fun result child => all child ++ result) children []
  end.

(** The loop of [search] from a node on.  The items of a leaf are
    tested one by one.  A child node that meets the query is emptied by
    [_all] when the query contains its box, and put on the stack
    otherwise; the stack is served last in, first out. *)
Fixpoint searchFrom (q : BBox) (node : Node) : list RBushItem :=
  match node with
  | leaf items => filter (fun item => intersects q (bbox item)) items
  | inner children =>
      let r := fold_left
                 (fun (r : list RBushItem * list RBushItem) child =>
                    if intersects q (nodeBox child) then
                      if contains q (nodeBox child)
                      then (fst r ++ all child, snd r)
                      else (fst r, searchFrom q child ++ snd r)
                    else r)
                 children ([], []) in
      fst r ++ snd r
  end.

(** [search(bbox)]: nothing when the query misses the box of the root. *)
Definition search (tree : Node) (q : BBox) : list RBushItem :=
  if intersects q (nodeBox tree) then searchFrom q tree else [].

(** [maxEntries] of [new RBush()]. *)
Definition maxEntries : nat := 9.

(** [Math.ceil(n / m)] on positive integers. *)
Definition divUp (n m : nat) : nat := (n + m - 1) / m.

(** [Math.ceil(Math.log(n) / Math.log(9))]: the least [h] with
    [n <= 9 ^ h]. *)
Fixpoint logUp (fuel power n : nat) : nat :=
  match fuel with
  | O => O
  | S fuel' => if Nat.leb n power then O else S (logUp fuel' (power * maxEntries) n)
  end.

Definition targetHeight (n : nat) : nat := logUp n 1 n.

(** The ranges [i, i + n - 1] of the two [for] loops of [_build]. *)
Fixpoint chunks (A : Type) (fuel n : nat) (l : list A) : list (list A) :=
  match fuel, l with
  | O, _ => []
  | _, [] => []
  | S fuel', _ :: _ => firstn n l :: chunks fuel' n (skipn n l)
  end.

(** [_build(items, left, right, height)] on the items of the range;
    [fuel] bounds the depth of the recursion. *)
Fixpoint build (fuel height : nat) (items : list RBushItem) : Node :=
  let N := List.length items in
  if Nat.leb N maxEntries then leaf items
  else
    match fuel with
    | O => leaf items
    | S fuel' =>
        let height' := if Nat.eqb height 0 then targetHeight N else height in
        let M := if Nat.eqb height 0
                 then divUp N (Nat.pow maxEntries (height' - 1))
                 else maxEntries in
        let N2 := divUp N M in
        let N1 := (N2 * Nat.sqrt_up M)%nat in
        inner (flat_map
                 (fun tile => map (build fuel' (height' - 1))
                                  (chunks (List.length tile) N2 tile))
                 (chunks N N1 items))
    end.

(** The element at position [n] (the last one past the end) moved to
    the front. *)
Fixpoint takeAt (A : Type) (n : nat) (l : list A) {struct l} : list A :=
  match l with
  | [] => []
  | a :: rest =>
      match n with
      | O => l
      | S n' =>
          match takeAt n' rest with
          | [] => l
          | b :: rest' => b :: a :: rest'
          end
      end
  end.

(** The permutation a list of picks stands for: each pick names the
    next element among those that are left. *)
Fixpoint rearrange (A : Type) (picks : list nat) (l : list A) : list A :=
  match picks with
  | [] => l
  | p :: picks' =>
      match takeAt p l with
      | [] => []
      | a :: rest => a :: rearrange picks' rest
      end
  end.

(** [load(data)] on a new index.  Up to nine items end in one leaf, in
    the order given (fewer than four are inserted one by one into the
    empty root, the others are the single leaf [_build] returns); more
    are rearranged by [multiSelect] on the way ([picks]) and cut into
    tiles. *)
Definition load (picks : list nat) (data : list RBushItem) : Node :=
  if Nat.leb (List.length data) maxEntries then leaf data
  else build (List.length data) 0 (rearrange picks data).

End RBush.

(** The counters and the scene that the reconciliation loop updates. *)
Record CullState : Type := mkCull {
  visibleCount : nat;
  addedCount : nat;
  removedCount : nat;
  skippedCount : nat;
  children : list nat;        (* this.shapesContainer *)
  sceneIds : list string      (* this.shapesInScene *)
}.

Definition set_inScene (b : bool) (shapeData : ShapeData) : ShapeData :=
  mkShapeData (graphics shapeData) (shape shapeData) b.

(** The body of [this.shapes.forEach((shapeData, id) => ...)]. *)
Definition cullStep (ids : list string) (lod : nat) (c : CullState)
  (e : string * ShapeData) : CullState * (string * ShapeData) :=
  let i := fst e in
  let shapeData := snd e in
  let g := gid (graphics shapeData) in
  let shouldBeVisible := JsSet.has i ids in
  if shouldBeVisible then
    let c := mkCull (S (visibleCount c)) (addedCount c) (removedCount c)
               (skippedCount c) (children c) (sceneIds c) in
    if Nat.leb 1 lod && is_line (shape shapeData) then
      if inScene shapeData then
        (mkCull (visibleCount c) (addedCount c) (S (removedCount c))
           (S (skippedCount c)) (Container.removeChild g (children c)) (sceneIds c),
         (i, set_inScene false shapeData))
      else
        (mkCull (visibleCount c) (addedCount c) (removedCount c)
           (S (skippedCount c)) (children c) (sceneIds c), e)
    else if negb (inScene shapeData) then
      (mkCull (visibleCount c) (S (addedCount c)) (removedCount c)
         (skippedCount c) (Container.addChild g (children c))
         (JsSet.add i (sceneIds c)),
       (i, set_inScene true shapeData))
    else (c, e)
  else if inScene shapeData then
    (mkCull (visibleCount c) (addedCount c) (S (removedCount c))
       (skippedCount c) (Container.removeChild g (children c))
       (JsSet.delete i (sceneIds c)),
     (i, set_inScene false shapeData))
  else (c, e).

Fixpoint cullLoop (ids : list string) (lod : nat) (c : CullState)
  (entries : list (string * ShapeData)) : CullState * list (string * ShapeData) :=
  match entries with
  | [] => (c, [])
  | e :: rest =>
      let (c1, e') := cullStep ids lod c e in
      let (c2, rest') := cullLoop ids lod c1 rest in
      (c2, e' :: rest')
  end.

(** [label.visible = shapeData.inScene] for the labels of live shapes. *)
Definition cullLabels (m : ShapeManager) : ShapeManager :=
  with_labels m
    (map (fun l =>
            match JsMap.get (fst l) (shapes m) with
            | Some shapeData => (fst l, mkText (tid (snd l)) (inScene shapeData))
            | None => l
            end)
         (labels m)).

Definition showHandles (i : string) (m : ShapeManager) : ShapeManager :=
  match JsMap.get i (shapes m) with
  | Some shapeData =>
      with_resizeHandles m (map (set_visible (inScene shapeData)) (resizeHandles m))
  | None => m
  end.

Definition cullHandles (m : ShapeManager) : ShapeManager :=
  match truthy (activeShapeId m) with
  | Some active => showHandles active m
  | None =>
      match selectedShapes m with
      | [selectedId] => showHandles selectedId m
      | _ => m
      end
  end.

Definition ensureIndex (m : ShapeManager) : ShapeManager :=
  match spatialIndex m with
  | Some _ => m
  | None => buildSpatialIndex m
  end.

Definition currentIndex (m : ShapeManager) : list RBushItem :=
  match spatialIndex m with Some index => index | None => [] end.

(* ================================================================== *)
(** ** The project document ([IrrigationProject]) *)

(** The document is read from JSON and only cast to its TypeScript
    type, so every reference may be absent: [None] is [null] or
    [undefined].  A number of a coordinate array is [None] when the value
    is not a finite number.  The [Value] of a style entry is taken at the
    type its consumer expects (a colour string, a numeric width), so that
    the conversions [String(..)] and [Number(..)] are identities;
    [entry?.Value] is the optional value itself. *)
Module Json.

Definition Coords : Type := option (list (option R)).

Record Lateral : Type := mkLateral {
  Index : nat;
  Layout : option (list Coords)
}.

Record LateralDesignLineStyle : Type := mkLateralStyle {
  PreHydraulicCalculationBorderColor : option string;
  PostHydraulicCalculationBorderColor : option string;
  PreHydraulicCalculationBorderWidth : option R;
  PostHydraulicCalculationBorderWidth : option R
}.

Record ExternalSnapshot : Type := mkSnapshot {
  BlockDesignFillColor : option string;
  BlockDesignBorderColor : option string;
  BlockDesignBorderWidth : option R;
  BlockDesignOpacity : option R;
  LateralDesignLineStyle_ : option LateralDesignLineStyle
}.

Record Block : Type := mkBlock {
  BlockId : string;
  BlockNumber : nat;
  BlockCoordinates : option (list Coords);
  Laterals : option (list (option Lateral));     (* block.Laterals?.Laterals *)
  ExternalSnapshot_ : option ExternalSnapshot
}.

Record SubArea : Type := mkSubArea {
  Id : string;
  Number : nat;
  Coordinates : option (list Coords);
  Blocks : option (list (option Block))
}.

Record IrrigationProject : Type := mkProject {
  SubAreas : option (list (option SubArea))
}.

Definition blockFill (s : option ExternalSnapshot) : string :=
  match s with
  | Some e => match truthy (BlockDesignFillColor e) with
              | Some c => c | None => "#FFFFFF"%string end
  | None => "#FFFFFF"%string
  end.

Definition blockBorder (s : option ExternalSnapshot) : string :=
  match s with
  | Some e => match truthy (BlockDesignBorderColor e) with
              | Some c => c | None => "#0038FF"%string end
  | None => "#0038FF"%string
  end.

Definition blockBorderWidth (s : option ExternalSnapshot) : R :=
  match s with
  | Some e => Num.ifDefined (BlockDesignBorderWidth e) 1
  | None => 1
  end.

Definition blockOpacity (s : option ExternalSnapshot) : R :=
  match s with
  | Some e => match BlockDesignOpacity e with
              | Some o => o / 100 | None => 0.2 end
  | None => 0.2
  end.

Definition blockStyle (s : option ExternalSnapshot) : ShapeStyle :=
  mkStyle (Some (blockFill s)) (Some (blockBorder s))
          (Some (blockBorderWidth s)) (Some (blockOpacity s)).

Definition lateralStyleOf (s : option ExternalSnapshot) : option LateralDesignLineStyle :=
  match s with Some e => LateralDesignLineStyle_ e | None => None end.

Definition lateralColor (s : option ExternalSnapshot) : string :=
  match lateralStyleOf s with
  | Some l =>
      match truthy (PreHydraulicCalculationBorderColor l) with
      | Some c => c
      | None => match truthy (PostHydraulicCalculationBorderColor l) with
                | Some c => c | None => "#0038FF"%string end
      end
  | None => "#0038FF"%string
  end.

Definition lateralWidth (s : option ExternalSnapshot) : R :=
  match lateralStyleOf s with
  | Some l =>
      match PreHydraulicCalculationBorderWidth l with
      | Some w => w
      | None => Num.ifDefined (PostHydraulicCalculationBorderWidth l) 1
      end
  | None => 1
  end.

Definition lateralStyle (s : option ExternalSnapshot) : ShapeStyle :=
  mkStyle None (Some (lateralColor s)) (Some (lateralWidth s)) None.

Definition subAreaStyle : ShapeStyle :=
  mkStyle (Some "#FFFFFF"%string) (Some "#00CC00"%string) (Some 2) (Some 0.3).

End Json.

(* ================================================================== *)
(** ** [src/utils/jsonParser.ts]: the importer without input checks

    A result of [None] stands for a run that does not return a list of
    shapes over numbers: a [TypeError] on an absent reference, or a
    coordinate read from an array entry that is not a number. *)
Module JsonParser.
Import Json.

Definition coordsArrayToCoordinate (coords : Coords) : option Coordinate :=
  match coords with
  | Some (Some c0 :: Some c1 :: _) => Some (mkCoordinate c0 (- c1))
  | _ => None
  end.

(** [array.map(f)] for an [f] that may fail. *)
Fixpoint mapAll (A B : Type) (f : A -> option B) (l : list A) : option (list B) :=
  match l with
  | [] => Some []
  | a :: rest =>
      match f a, mapAll f rest with
      | Some b, Some bs => Some (b :: bs)
      | _, _ => None
      end
  end.

(** [array.forEach(f)] for an [f] that pushes shapes and may fail. *)
Fixpoint forEach (A : Type) (f : A -> option (list Shape)) (l : list A)
  : option (list Shape) :=
  match l with
  | [] => Some []
  | a :: rest =>
      match f a, forEach f rest with
      | Some s, Some ss => Some (s ++ ss)
      | _, _ => None
      end
  end.

Definition parseLateral (blockId : string) (snapshot : option ExternalSnapshot)
  (lateral : option Lateral) : option (list Shape) :=
  match lateral with
  | None => None
  | Some lateral =>
      match Layout lateral with
      | Some ((_ :: _ :: _) as layout) =>
          match mapAll coordsArrayToCoordinate layout with
          | Some pts =>
              Some [line ("lateral-" ++ blockId ++ "-" ++ Num.toString (Index lateral))
                      pts (lateralStyle snapshot) None]
          | None => None
          end
      | _ => Some []
      end
  end.

Definition parseBlock (block : option Block) : option (list Shape) :=
  match block with
  | None => None
  | Some block =>
      let externalSnapshot := ExternalSnapshot_ block in
      match BlockCoordinates block, Laterals block with
      | Some coords, Some laterals =>
          match mapAll coordsArrayToCoordinate coords,
                forEach (parseLateral (BlockId block) externalSnapshot) laterals with
          | Some coordinates, Some lines =>
              Some (polygon ("block-" ++ BlockId block) coordinates
                      (blockStyle externalSnapshot)
                      (Some ("Block " ++ Num.toString (BlockNumber block))%string)
                    :: lines)
          | _, _ => None
          end
      | _, _ => None
      end
  end.

Definition parseSubArea (subArea : option SubArea) : option (list Shape) :=
  match subArea with
  | None => None
  | Some subArea =>
      match Coordinates subArea, Blocks subArea with
      | Some coords, Some blocks =>
          match mapAll coordsArrayToCoordinate coords, forEach parseBlock blocks with
          | Some coordinates, Some inner =>
              Some (polygon ("subarea-" ++ Id subArea) coordinates subAreaStyle
                      (Some ("SubArea " ++ Num.toString (Number subArea))%string)
                    :: inner)
          | _, _ => None
          end
      | _, _ => None
      end
  end.

Definition parseIrrigationProject (json : option IrrigationProject)
  : option (list Shape) :=
  match json with
  | Some (mkProject (Some subAreas)) => forEach parseSubArea subAreas
  | _ => None
  end.

End JsonParser.

(* ================================================================== *)
(** ** The importer with input checks (the other revision of
       [jsonParser.ts]); it never fails *)
Module JsonParserChecked.
Import Json.

Definition coordsArrayToCoordinate (coords : Coords) : option Coordinate :=
  match coords with
  | Some (Some c0 :: Some c1 :: _) => Some (mkCoordinate c0 (- c1))
  | _ => None
  end.

(** [array.map(coordsArrayToCoordinate).filter(coord => coord !== null)]. *)
Fixpoint usable (l : list Coords) : list Coordinate :=
  match l with
  | [] => []
  | c :: rest =>
      match coordsArrayToCoordinate c with
      | Some p => p :: usable rest
      | None => usable rest
      end
  end.

Definition parseLateral (blockId : string) (snapshot : option ExternalSnapshot)
  (lateral : option Lateral) : list Shape :=
  match lateral with
  | None => []
  | Some lateral =>
      match Layout lateral with
      | Some ((_ :: _ :: _) as layout) =>
          let lateralPoints := usable layout in
          if Nat.ltb (List.length lateralPoints) 2 then []
          else [line ("lateral-" ++ blockId ++ "-" ++ Num.toString (Index lateral))
                  lateralPoints (lateralStyle snapshot) None]
      | _ => []
      end
  end.

Definition parseBlock (block : option Block) : list Shape :=
  match block with
  | None => []
  | Some block =>
      match BlockCoordinates block with
      | Some ((_ :: _ :: _ :: _) as coords) =>
          let externalSnapshot := ExternalSnapshot_ block in
          let blockCoordinates := usable coords in
          if Nat.ltb (List.length blockCoordinates) 3 then []
          else
            polygon ("block-" ++ BlockId block) blockCoordinates
              (blockStyle externalSnapshot)
              (Some ("Block " ++ Num.toString (BlockNumber block))%string)
            :: match Laterals block with
               | None => []
               | Some laterals =>
                   flat_map (parseLateral (BlockId block) externalSnapshot) laterals
               end
      | _ => []
      end
  end.

Definition parseSubArea (subArea : option SubArea) : list Shape :=
  match subArea with
  | None => []
  | Some subArea =>
      match Coordinates subArea with
      | Some ((_ :: _ :: _ :: _) as coords) =>
          let coordinates := usable coords in
          if Nat.ltb (List.length coordinates) 3 then []
          else
            polygon ("subarea-" ++ Id subArea) coordinates subAreaStyle
              (Some ("SubArea " ++ Num.toString (Number subArea))%string)
            :: match Blocks subArea with
               | None => []
               | Some blocks => flat_map parseBlock blocks
               end
      | _ => []
      end
  end.

Definition parseIrrigationProject (json : option IrrigationProject) : list Shape :=
  match json with
  | Some (mkProject (Some subAreas)) => flat_map parseSubArea subAreas
  | _ => []
  end.

End JsonParserChecked.

(* ================================================================== *)
(** ** The stress-test generator ([generateStressTestShapes])

    [Math.random()] is an oracle: the [n]-th call returns [random n].
    Loop bounds are integers obtained by [Math.floor] and [Math.ceil];
    a loop runs for that many rounds at most (none when the bound is not
    positive).  Division is that of [R]. *)
Module StressTest.

Record StressTestConfig : Type := mkConfig {
  targetShapeCount : R;
  areaWidth : R;
  areaHeight : R;
  baseX : option R;
  baseY : option R
}.

Definition floor (r : R) : Z := Int_part r.
Definition ceil (r : R) : Z := (- Int_part (- r))%Z.

Definition blockColors : list (string * string) :=
  [("#FFEBEE", "#F44336"); ("#E3F2FD", "#2196F3"); ("#E8F5E9", "#4CAF50");
   ("#FFF3E0", "#FF9800"); ("#F3E5F5", "#9C27B0"); ("#E0F7FA", "#00BCD4");
   ("#FFF9C4", "#FFEB3B"); ("#FCE4EC", "#E91E63")]%string.

Definition subAreaSize : R := 1500.

(** The variables the loops update. *)
Record Gen : Type := mkGen {
  out : list Shape;         (* shapes *)
  shapeCount : nat;
  subAreaIndex : nat;
  randomCalls : nat         (* calls of Math.random() so far *)
}.

Section Generator.
Variable random : nat -> R.
Variable config : StressTestConfig.

Definition target : R := targetShapeCount config.
Definition originX : R := Num.ifDefined (baseX config) 611000.
Definition originY : R := Num.ifDefined (baseY config) 4205000.

Definition subAreasPerRow : Z := ceil (areaWidth config / subAreaSize).
Definition subAreasPerCol : Z := ceil (areaHeight config / subAreaSize).
Definition totalSubAreas : Z := (subAreasPerRow * subAreasPerCol)%Z.

Definition blocksPerSubArea : Z :=
  Z.max 3 (floor (sqrt (target / IZR totalSubAreas / 50))).
Definition lateralsPerBlock : Z :=
  ceil (target / (IZR totalSubAreas * IZR blocksPerSubArea)).

Definition push (s : Shape) (g : Gen) : Gen :=
  mkGen (out g ++ [s]) (S (shapeCount g)) (subAreaIndex g) (randomCalls g).

Definition drawn (n : nat) (g : Gen) : Gen :=
  mkGen (out g) (shapeCount g) (subAreaIndex g) (randomCalls g + n).

Definition rectangle (px py w h : R) : list Coordinate :=
  [mkCoordinate px (- py);
   mkCoordinate (px + w) (- py);
   mkCoordinate (px + w) (- (py + h));
   mkCoordinate px (- (py + h));
   mkCoordinate px (- py)].

(** [for (l = 0; l < lateralsPerBlock && shapeCount < target; l++)]. *)
Fixpoint lateralLoop (rounds l : nat) (prefix color : string)
  (blockX blockY blockW lateralSpacing : R) (g : Gen) : Gen :=
  match rounds with
  | O => g
  | S rounds' =>
      if Num.ltb (INR (shapeCount g)) target then
        let lateralY := blockY + (INR l + 1) * lateralSpacing in
        let startX := blockX + 10 in
        let endX := blockX + blockW - 10 in
        let g := push (line (prefix ++ "-" ++ Num.toString l)
                         [mkCoordinate startX (- lateralY);
                          mkCoordinate endX (- lateralY)]
                         (mkStyle None (Some color) (Some 0.5) None) None) g in
        if Num.geb (INR (shapeCount g)) target then g
        else lateralLoop rounds' (S l) prefix color blockX blockY blockW
               lateralSpacing g
      else g
  end.

(** The body of the two block loops. *)
Definition block (subAreaX subAreaY : R) (blockSize : Z)
  (blocksPerColInSubArea bRow bCol : nat) (g : Gen) : Gen :=
  let r := randomCalls g in
  let blockX := subAreaX + INR bRow * IZR blockSize + random r * 20 in
  let blockY := subAreaY + INR bCol * IZR blockSize + random (r + 1) * 20 in
  let blockW := IZR blockSize - 50 + random (r + 2) * 30 in
  let blockH := IZR blockSize - 50 + random (r + 3) * 30 in
  let g := drawn 4 g in
  let colorPair :=
    nth ((subAreaIndex g + bRow * blocksPerColInSubArea + bCol) mod 8)
        blockColors (""%string, ""%string) in
  let suffix := (Num.toString (subAreaIndex g) ++ "-" ++ Num.toString bRow
                 ++ "-" ++ Num.toString bCol)%string in
  let g := push (polygon ("block-" ++ suffix)
                   (rectangle blockX blockY blockW blockH)
                   (mkStyle (Some (fst colorPair)) (Some (snd colorPair))
                      (Some 1) (Some 0.2))
                   (Some ("Block "
                          ++ Num.toString (bRow * blocksPerColInSubArea + bCol + 1))%string))
             g in
  let lateralSpacing := blockH / (IZR lateralsPerBlock + 1) in
  lateralLoop (Z.to_nat lateralsPerBlock) 0 ("lateral-" ++ suffix) (snd colorPair)
    blockX blockY blockW lateralSpacing g.

(** [for (bCol = 0; bCol < blocksPerColInSubArea && shapeCount < target; bCol++)]. *)
Fixpoint blockColLoop (rounds bCol : nat) (subAreaX subAreaY : R) (blockSize : Z)
  (blocksPerColInSubArea bRow : nat) (g : Gen) : Gen :=
  match rounds with
  | O => g
  | S rounds' =>
      if Num.ltb (INR (shapeCount g)) target then
        blockColLoop rounds' (S bCol) subAreaX subAreaY blockSize
          blocksPerColInSubArea bRow
          (block subAreaX subAreaY blockSize blocksPerColInSubArea bRow bCol g)
      else g
  end.

(** [for (bRow = 0; bRow < blocksPerRowInSubArea && shapeCount < target; bRow++)]. *)
Fixpoint blockRowLoop (rounds bRow : nat) (subAreaX subAreaY : R) (blockSize : Z)
  (blocksPerColInSubArea : nat) (g : Gen) : Gen :=
  match rounds with
  | O => g
  | S rounds' =>
      if Num.ltb (INR (shapeCount g)) target then
        blockRowLoop rounds' (S bRow) subAreaX subAreaY blockSize
          blocksPerColInSubArea
          (blockColLoop blocksPerColInSubArea 0 subAreaX subAreaY blockSize
             blocksPerColInSubArea bRow g)
      else g
  end.

(** The body of the two sub-area loops, up to [subAreaIndex++]. *)
Definition subArea (row col : nat) (g : Gen) : Gen :=
  let subAreaX := originX + INR row * subAreaSize in
  let subAreaY := originY + INR col * subAreaSize in
  let subAreaWidth := subAreaSize + (random (randomCalls g) - 0.5) * 200 in
  let subAreaHeight := subAreaSize + (random (randomCalls g + 1) - 0.5) * 200 in
  let g := drawn 2 g in
  let g := push (polygon ("subarea-" ++ Num.toString (subAreaIndex g))
                   (rectangle subAreaX subAreaY subAreaWidth subAreaHeight)
                   (mkStyle (Some "#FFFFFF"%string) (Some "#00CC00"%string)
                      (Some 2) (Some 0.3))
                   (Some ("SubArea " ++ Num.toString (subAreaIndex g + 1))%string))
             g in
  let blockSize := floor (subAreaWidth / sqrt (IZR blocksPerSubArea)) in
  let blocksPerRowInSubArea := floor (subAreaWidth / IZR blockSize) in
  let blocksPerColInSubArea :=
    ceil (IZR blocksPerSubArea / IZR blocksPerRowInSubArea) in
  let g := blockRowLoop (Z.to_nat blocksPerRowInSubArea) 0 subAreaX subAreaY
             blockSize (Z.to_nat blocksPerColInSubArea) g in
  mkGen (out g) (shapeCount g) (S (subAreaIndex g)) (randomCalls g).

(** [for (col = 0; col < subAreasPerCol; col++)], left by [break] once
    the target is reached. *)
Fixpoint colLoop (rounds col row : nat) (g : Gen) : Gen :=
  match rounds with
  | O => g
  | S rounds' =>
      let g := subArea row col g in
      if Num.geb (INR (shapeCount g)) target then g
      else colLoop rounds' (S col) row g
  end.

(** [for (row = 0; row < subAreasPerRow; row++)], with its [break]. *)
Fixpoint rowLoop (rounds row : nat) (g : Gen) : Gen :=
  match rounds with
  | O => g
  | S rounds' =>
      let g := colLoop (Z.to_nat subAreasPerCol) 0 row g in
      if Num.geb (INR (shapeCount g)) target then g
      else rowLoop rounds' (S row) g
  end.

Definition generateStressTestShapes : list Shape :=
  out (rowLoop (Z.to_nat subAreasPerRow) 0 (mkGen [] 0 0 0)).

End Generator.
End StressTest.

Unset Implicit Arguments.

(* ================================================================== *)
(** ** [calculateBounds] of the importer, in its two revisions *)

Module WorldBounds.

(** [Math.min] and [Math.max]. *)
Definition min (a b : Num.ext) : Num.ext := if Num.xleb a b then a else b.
Definition max (a b : Num.ext) : Num.ext := if Num.xleb a b then b else a.

(** The body of [coords.forEach]. *)
Definition grow (b : BBox) (coord : Coordinate) : BBox :=
  mkBBox (min (minX b) (Num.Finite (x coord)))
         (min (minY b) (Num.Finite (y coord)))
         (max (maxX b) (Num.Finite (x coord)))
         (max (maxY b) (Num.Finite (y coord))).

(** The body of [shapes.forEach]: [coords] is the vertex list of a
    polygon or a line, and the centre alone for a point. *)
Definition growShape (b : BBox) (s : Shape) : BBox :=
  fold_left grow (shape_vertices s) b.

(** [src/utils/jsonParser.ts]. *)
Definition calculateBounds (shapes : list Shape) : BBox :=
  fold_left growShape shapes emptyBounds.

Definition isFinite (a : Num.ext) : bool :=
  match a with Num.Finite _ => true | _ => false end.

Definition zeroBounds : BBox :=
  mkBBox (Num.Finite 0) (Num.Finite 0) (Num.Finite 0) (Num.Finite 0).

(** The revision with input checks; a coordinate of the model is a
    finite number, so its check of every coordinate always passes. *)
Definition calculateBoundsChecked (shapes : list Shape) : BBox :=
  match shapes with
  | [] => zeroBounds
  | _ :: _ =>
      let b := fold_left growShape shapes emptyBounds in
      if negb (isFinite (minX b)) || negb (isFinite (maxX b))
         || negb (isFinite (minY b)) || negb (isFinite (maxY b))
      then zeroBounds
      else b
  end.

End WorldBounds.

(* ================================================================== *)
(** ** Culling

    Everything from here on is stated for an arbitrary arrangement of
    the items by the bulk loader of the index: [arrange] gives, for the
    items handed to [load], the picks that describe the order in which
    they are cut into nodes. *)

(** The arrangement that leaves the items in the order given. *)
Definition inOrder : list RBushItem -> list nat := fun _ => [].

(** Evaluation of a closed term of the model, leaving the arithmetic of
    the real numbers untouched. *)
Ltac evaluate :=
  lazy beta iota zeta delta
    -[IZR INR Rplus Rminus Rmult Ropp Rdiv Rinv sqrt Rmax Rle Rlt
      Req_dec_T Rlt_dec Rle_dec].

Section Index.

Variable arrange : list RBushItem -> list nat.

(** [this.spatialIndex.search(bbox)] on the index that
    [buildSpatialIndex] loaded with the items [index]; only the set of
    the ids of the result is used. *)
Definition search (index : list RBushItem) (q : BBox) : list RBushItem :=
  RBush.search (RBush.load (arrange index) index) q.

Definition cullShapes (v : ViewportBounds) (m : ShapeManager)
  : ShapeManager * Detail.t :=
  let m := ensureIndex m in
  let visibleItems := search (currentIndex m) (bufferedBounds v) in
  let potentiallyVisibleIds := JsSet.ofList (map (@item_id) visibleItems) in
  let checkedCount := List.length potentiallyVisibleIds in
  let lod := lodLevel (zoomOutFactor v) in
  let (c, entries) :=
    cullLoop potentiallyVisibleIds lod
      (mkCull 0 0 0 0 (shapesContainer m) (shapesInScene m)) (shapes m) in
  let m := with_shapes m entries in
  let m := with_shapesContainer m (children c) in
  let m := with_shapesInScene m (sceneIds c) in
  let m := cullLabels m in
  let m := cullHandles m in
  (m, Detail.mk (visibleCount c) (List.length (shapes m)) checkedCount
        (addedCount c) (removedCount c) (List.length (shapesContainer m))
        (skippedCount c) lod).


(* ================================================================== *)
(** ** Notions used in the statements *)

(** What the loop decides for an entry: attached exactly when its id is a
    candidate and it is not a line suppressed by the level of detail. *)
Definition wanted (ids : list string) (lod : nat) (e : string * ShapeData) : bool :=
  JsSet.has (fst e) ids && negb (Nat.leb 1 lod && is_line (shape (snd e))).

Definition reconciled (ids : list string) (lod : nat) (e : string * ShapeData)
  : string * ShapeData :=
  (fst e, set_inScene (wanted ids lod e) (snd e)).

Definition candidates (v : ViewportBounds) (m : ShapeManager) : list string :=
  JsSet.ofList (map (@item_id) (search (currentIndex (ensureIndex m)) (bufferedBounds v))).

Definition cullResult (v : ViewportBounds) (m : ShapeManager) :=
  cullLoop (candidates v m) (lodLevel (zoomOutFactor v))
    (mkCull 0 0 0 0 (shapesContainer (ensureIndex m)) (shapesInScene (ensureIndex m)))
    (shapes (ensureIndex m)).


(** Sample inputs: a point shape at the origin in an otherwise new
    manager, and a viewport around it. *)
Definition plainStyle : ShapeStyle := mkStyle None None None None.
Definition samplePoint : Shape := point "p" (mkCoordinate 0 0) plainStyle None None.
Definition pointManager : ShapeManager := fst (addShape samplePoint newShapeManager).
Definition sampleViewport : ViewportBounds := mkViewport (-10) (-10) 20 20.

(** The loading sequence of the host ([PixiCanvas]): every shape is
    added and made draggable, then the spatial index is built. *)
Definition loadShapes (l : list Shape) (m : ShapeManager) : ShapeManager :=
  buildSpatialIndex
    (fold_left (fun m s => let (m', g) := addShape s m in
                           enableDragAndDrop (shape_id s) (gid g) m') l m).

(** A coordinate lies in the viewport. *)
Definition inside (v : ViewportBounds) (c : Coordinate) : Prop :=
  vx v <= x c <= vx v + width v /\ vy v <= y c <= vy v + height v.

(** The viewport covers the whole world: every vertex of every shape. *)
Definition covers (v : ViewportBounds) (l : list Shape) : Prop :=
  forall s c, In s l -> In c (shape_vertices s) -> inside v c.

(** A box with finite sides that lies in the viewport. *)
Definition boxInside (v : ViewportBounds) (b : BBox) : Prop :=
  exists x0 y0 x1 y1,
    b = mkBBox (Num.Finite x0) (Num.Finite y0) (Num.Finite x1) (Num.Finite y1)
    /\ vx v <= x0 <= vx v + width v /\ vx v <= x1 <= vx v + width v
    /\ vy v <= y0 <= vy v + height v /\ vy v <= y1 <= vy v + height v.

(** Sample generator input: one shape wanted over a 100 x 100 area, with
    a random source that always answers one half; and a viewport that
    covers the sub-area it produces. *)
Definition singleConfig : StressTest.StressTestConfig :=
  StressTest.mkConfig 1 100 100 None None.
Definition halves (n : nat) : R := 0.5.
Definition worldViewport : ViewportBounds :=
  mkViewport 611000 (-4206500) 1500 1500.

(** The sub-area polygon of the first round of the generator's loops. *)
Definition firstSubArea (random : nat -> R) (config : StressTest.StressTestConfig)
  : Shape :=
  polygon "subarea-0"
    (StressTest.rectangle (StressTest.originX config + INR 0 * StressTest.subAreaSize)
       (StressTest.originY config + INR 0 * StressTest.subAreaSize)
       (StressTest.subAreaSize + (random 0%nat - 0.5) * 200)
       (StressTest.subAreaSize + (random 1%nat - 0.5) * 200))
    (mkStyle (Some "#FFFFFF"%string) (Some "#00CC00"%string) (Some 2) (Some 0.3))
    (Some "SubArea 1"%string).



Definition shapeAt (i : string) (m : ShapeManager) : option Shape :=
  option_map (@shape) (JsMap.get i (shapes m)).

(** The entry of a shape after [updateShapeVisuals]. *)
Definition repainted (selected : bool) (shapeData : ShapeData) : ShapeData :=
  mkShapeData (set_commands (graphics shapeData) (redraw (shape shapeData) selected))
    (shape shapeData) (inScene shapeData).

(** No resize handle refers to shape [i]. *)
Definition noHandleFor (i : string) (m : ShapeManager) : Prop :=
  forall h, In h (resizeHandles m) -> shapeId h <> Some i.

(** Sample state: a triangle, added to a new manager and selected, so
    that it shows its three handles. *)
Definition triangle : Shape :=
  polygon "a" [mkCoordinate 0 0; mkCoordinate 1 0; mkCoordinate 0 1] plainStyle None.
Definition triangleManager : ShapeManager := fst (addShape triangle newShapeManager).
Definition selectedManager : ShapeManager := selectShape "a" false triangleManager.

(** Sample state: the triangle and the point in one store. *)
Definition twoShapes : ShapeManager := fst (addShape samplePoint triangleManager).
Definition triangleData : ShapeData :=
  mkShapeData (mkGraphics 0 (createGraphics triangle) "a" []) triangle false.

(** The state of the interaction state machine, as [handlePointerMove]
    reads it off the flags: dragging wins over resizing, and without an
    active shape nothing is going on. *)
Inductive Gesture : Type :=
| Idle
| Dragging (shapeId : string) (pointerOffset : Coordinate)
| ResizingVertex (shapeId : string) (handleIndex : Z).

Definition gesture (m : ShapeManager) : Gesture :=
  match isDragging m, isResizing m, truthy (activeShapeId m) with
  | true, _, Some active => Dragging active (dragOffset m)
  | false, true, Some active => ResizingVertex active (resizeHandleIndex m)
  | _, _, _ => Idle
  end.

(** Euclidean distance. *)
Definition distance (p q : Coordinate) : R :=
  sqrt ((x p - x q) * (x p - x q) + (y p - y q) * (y p - y q)).

(** Sample states: the point being resized, and a drag whose shape is no
    longer in the store. *)
Definition resizingPoint : ShapeManager :=
  with_activeShapeId (with_isResizing pointManager true) (Some "p"%string).
Definition staleDrag : ShapeManager :=
  with_activeShapeId (with_isDragging newShapeManager true) (Some "gone"%string).
Definition identity (c : Coordinate) : Coordinate := c.
Definition lonePointData : ShapeData :=
  mkShapeData (mkGraphics 0 (createGraphics samplePoint) "p" []) samplePoint false.

(** A shape has the geometry the importer asks for: three points for a
    polygon, two for a line. *)
Definition enoughGeometry (s : Shape) : Prop :=
  match s with
  | polygon _ coords _ _ => (3 <= List.length coords)%nat
  | line _ pts _ _ => (2 <= List.length pts)%nat
  | point _ _ _ _ _ => True
  end.

(** Sample document: one sub-area with a block whose coordinate list is
    empty and a well-formed sibling block. *)
Definition square : list Json.Coords :=
  [Some [Some 0; Some 0]; Some [Some 10; Some 0];
   Some [Some 10; Some 10]; Some [Some 0; Some 10]].
Definition squareCoordinates : list Coordinate :=
  [mkCoordinate 0 (- 0); mkCoordinate 10 (- 0);
   mkCoordinate 10 (- 10); mkCoordinate 0 (- 10)].
Definition emptyBlock : Json.Block := Json.mkBlock "b1" 1 (Some []) (Some []) None.
Definition goodBlock : Json.Block := Json.mkBlock "b2" 2 (Some square) (Some []) None.
Definition sampleProject : option Json.IrrigationProject :=
  Some (Json.mkProject
          (Some [Some (Json.mkSubArea "s1" 1 (Some square)
                         (Some [Some emptyBlock; Some goodBlock]))])).

(* ------------------------------------------------------------------ *)
(** *** The scene invariant *)

(** The identity of the graphics of a store entry. *)
Definition entryId (e : string * ShapeData) : nat := gid (graphics (snd e)).

Definition storeIds (m : ShapeManager) : list nat := map entryId (shapes m).
Definition handleIds (m : ShapeManager) : list nat := map (@hgid) (resizeHandles m).

(** The graphics of an entry is a child of the shape container. *)
Definition attached (m : ShapeManager) (shapeData : ShapeData) : Prop :=
  In (gid (graphics shapeData)) (shapesContainer m).

(** [inScene] is set exactly on the entries whose graphics is attached. *)
Definition sceneConsistent (m : ShapeManager) : Prop :=
  forall i shapeData, In (i, shapeData) (shapes m) ->
    (inScene shapeData = true <-> attached m shapeData).

(** What holds of every state the manager can be in: graphics objects
    come from the allocator, no two entries share one, handles are
    objects of their own, no label exists (nothing creates one), and the
    scene is consistent with the flags. *)
Record WellFormed (m : ShapeManager) : Prop := mkWellFormed {
  wf_fresh : forall g, In g (storeIds m) -> (g < nextGraphics m)%nat;
  wf_distinct : NoDup (storeIds m);
  wf_children : forall g, In g (shapesContainer m) -> (g < nextGraphics m)%nat;
  wf_handles : forall g, In g (handleIds m) ->
                 (g < nextGraphics m)%nat /\ ~ In g (storeIds m);
  wf_labels : labels m = [];
  wf_scene : sceneConsistent m
}.

(** Key, graphics identity and flag of every entry, in order. *)
Definition skeleton (l : list (string * ShapeData)) : list (string * nat * bool) :=
  map (fun e => (fst e, entryId e, inScene (snd e))) l.

(** [m'] differs from [m] in nothing the invariant looks at. *)
Definition frame (m m' : ShapeManager) : Prop :=
  skeleton (shapes m') = skeleton (shapes m)
  /\ shapesContainer m' = shapesContainer m
  /\ nextGraphics m' = nextGraphics m
  /\ handleIds m' = handleIds m
  /\ (labels m = [] -> labels m' = []).

(** Every entry of [m'] is an entry of [m] with the same graphics and the
    same flag, or a new entry, flagged out of the scene, with a new
    graphics. *)
Definition flagsKept (m m' : ShapeManager) : Prop :=
  (nextGraphics m <= nextGraphics m')%nat
  /\ forall i sd', In (i, sd') (shapes m') ->
       (exists sd, In (i, sd) (shapes m)
                   /\ gid (graphics sd) = gid (graphics sd')
                   /\ inScene sd = inScene sd')
       \/ (inScene sd' = false /\ (nextGraphics m <= gid (graphics sd'))%nat).

(** [m'] is well formed when [m] is, and keeps the flags of [m]. *)
Definition preserves (m m' : ShapeManager) : Prop :=
  (WellFormed m -> WellFormed m') /\ flagsKept m m'.

(** The operations a host can apply to a manager. *)
Inductive Operation : Type :=
| AddShape (s : Shape)
| BuildSpatialIndex
| RemoveShape (i : string)
| Clear
| SelectShape (i : string) (multiSelect : bool)
| DeselectShape (i : string)
| ClearSelection
| OnSelectionChanged
| EnableDragAndDrop (i : string) (g : nat)
| EnableResize
| DragPointerDown (i : string) (g : nat) (global : Coordinate)
| ResizePointerDown (handle : nat)      (* position in resizeHandles *)
| PointerMove (global : Coordinate)
| PointerUp
| CreateNewPolygon (px py size : R) (now : nat)
| CreateNewLine (px py len : R) (now : nat)
| CreateNewPoint (px py radius : R) (now : nat)
| CullShapes (v : ViewportBounds).

Definition isCull (op : Operation) : bool :=
  match op with CullShapes _ => true | _ => false end.

Definition perform (toLocal : Coordinate -> Coordinate) (op : Operation)
  (m : ShapeManager) : ShapeManager :=
  match op with
  | AddShape s => fst (addShape s m)
  | BuildSpatialIndex => buildSpatialIndex m
  | RemoveShape i => removeShape i m
  | Clear => clear m
  | SelectShape i multiSelect => selectShape i multiSelect m
  | DeselectShape i => deselectShape i m
  | ClearSelection => clearSelection m
  | OnSelectionChanged => onSelectionChanged m
  | EnableDragAndDrop i g => enableDragAndDrop i g m
  | EnableResize => enableResize m
  | DragPointerDown i g global => state_of (dragPointerDown toLocal i g global m)
  | ResizePointerDown handle =>
      match nth_error (resizeHandles m) handle with
      | Some h => if resizeListener h then resizePointerDown h m else m
      | None => m
      end
  | PointerMove global => state_of (handlePointerMove toLocal global m)
  | PointerUp => handlePointerUp m
  | CreateNewPolygon px py size now => fst (createNewPolygon px py size now m)
  | CreateNewLine px py len now => fst (createNewLine px py len now m)
  | CreateNewPoint px py radius now => fst (createNewPoint px py radius now m)
  | CullShapes v => fst (cullShapes v m)
  end.

(** The state after a sequence of operations on a new manager. *)
Definition run (toLocal : Coordinate -> Coordinate) (ops : list Operation)
  : ShapeManager :=
  fold_left (fun m op => perform toLocal op m) ops newShapeManager.

(** The flag of an entry agrees with a list of children. *)
Definition consistentWith (children : list nat) (e : string * ShapeData) : Prop :=
  inScene (snd e) = true <-> In (entryId e) children.

(* ================================================================== *)
(** ** The host ([PixiCanvas]): click handling and cull scheduling *)

(** The [pointerdown] listener the host installs on the graphics of a
    shape; [multiSelect] is [event.ctrlKey || event.metaKey]. *)
Definition shapeClicked (i : string) (multiSelect : bool) (m : ShapeManager)
  : ShapeManager :=
  if multiSelect && isSelected i m
  then deselectShape i m
  else selectShape i multiSelect m.

(** The host keeps the manager, the flag [cullingScheduled], the
    callbacks handed to [requestAnimationFrame] and not yet run, and the
    viewport, whose bounds the callback reads when it runs. *)
Record Host : Type := mkHost {
  manager : ShapeManager;
  cullingScheduled : bool;
  frameCallbacks : nat;
  viewportNow : ViewportBounds
}.

Definition newHost (m : ShapeManager) (v : ViewportBounds) : Host :=
  mkHost m false 0 v.

Definition updateCulling (h : Host) : Host :=
  if cullingScheduled h then h
  else mkHost (manager h) true (S (frameCallbacks h)) (viewportNow h).

(** The callback given to [requestAnimationFrame]. *)
Definition cullCallback (h : Host) : Host :=
  mkHost (fst (cullShapes (viewportNow h) (manager h))) false
         (frameCallbacks h) (viewportNow h).

(** A frame: the callbacks queued so far run, one after the other. *)
Definition animationFrame (h : Host) : Host :=
  Nat.iter (frameCallbacks h) cullCallback
    (mkHost (manager h) (cullingScheduled h) 0 (viewportNow h)).

(** The viewport fires [moved] or [zoomed] after taking new bounds. *)
Definition viewportMoved (v : ViewportBounds) (h : Host) : Host :=
  updateCulling (mkHost (manager h) (cullingScheduled h) (frameCallbacks h) v).

Inductive HostEvent : Type :=
| Moved (v : ViewportBounds)
| Frame.

Definition hostStep (h : Host) (e : HostEvent) : Host :=
  match e with
  | Moved v => viewportMoved v h
  | Frame => animationFrame h
  end.

(* ================================================================== *)
(** ** Further notions used in the statements *)

(** The keys of the store are the ids of the shapes stored under them,
    and no key occurs twice. *)
Definition Keyed (m : ShapeManager) : Prop :=
  NoDup (JsMap.keys (shapes m))
  /\ forall i shapeData, In (i, shapeData) (shapes m) -> shape_id (shape shapeData) = i.

(** Key and shape id of every entry, in order. *)
Definition idSkeleton (l : list (string * ShapeData)) : list (string * string) :=
  map (fun e => (fst e, shape_id (shape (snd e)))) l.

(** [a <= b] and [a < b] on extended numbers, as propositions. *)
Definition xle (a b : Num.ext) : Prop := Num.xleb a b = true.

(** A coordinate lies in a box. *)
Definition inBox (b : BBox) (c : Coordinate) : Prop :=
  xle (minX b) (Num.Finite (x c)) /\ xle (Num.Finite (x c)) (maxX b)
  /\ xle (minY b) (Num.Finite (y c)) /\ xle (Num.Finite (y c)) (maxY b).

(** Every side of the box is the coordinate of one of the points. *)
Definition touches (b : BBox) (cs : list Coordinate) : Prop :=
  (exists c, In c cs /\ minX b = Num.Finite (x c))
  /\ (exists c, In c cs /\ maxX b = Num.Finite (x c))
  /\ (exists c, In c cs /\ minY b = Num.Finite (y c))
  /\ (exists c, In c cs /\ maxY b = Num.Finite (y c)).

(** All the vertices of a list of shapes. *)
Definition allVertices (l : list Shape) : list Coordinate := flat_map shape_vertices l.

(** The viewport spanned by a box with finite sides. *)
Definition viewportOf (b : BBox) : option ViewportBounds :=
  match minX b, minY b, maxX b, maxY b with
  | Num.Finite x0, Num.Finite y0, Num.Finite x1, Num.Finite y1 =>
      Some (mkViewport x0 y0 (x1 - x0) (y1 - y0))
  | _, _, _, _ => None
  end.

(** The number of entries flagged as being in the scene. *)
Definition flaggedCount (m : ShapeManager) : nat :=
  List.length (filter (fun e => inScene (snd e)) (shapes m)).





(** A box with finite sides that contains the points and touches some
    of them on every side. *)
Definition encloses (b : BBox) (cs : list Coordinate) : Prop :=
  (exists x0 y0 x1 y1,
      b = mkBBox (Num.Finite x0) (Num.Finite y0) (Num.Finite x1) (Num.Finite y1)
      /\ forall c, In c cs -> x0 <= x c <= x1 /\ y0 <= y c <= y1)
  /\ touches b cs.

Definition isSome (A : Type) (o : option A) : bool :=
  match o with Some _ => true | None => false end.

(** Sample: a two-point line. *)
Definition sampleLine : Shape :=
  line "l" [mkCoordinate 0 0; mkCoordinate 4 3] plainStyle None.

(** [m'] stores the same shape ids under the same keys as [m]. *)
Definition sameIds (m m' : ShapeManager) : Prop :=
  idSkeleton (shapes m') = idSkeleton (shapes m).

(** The number of flagged entries of a list of entries. *)
Definition flagged (l : list (string * ShapeData)) : nat :=
  List.length (filter (fun e => inScene (snd e)) l).

(** Sample: a polygon without vertices, alone in a manager. *)
Definition emptyPolygon : Shape := polygon "e" [] plainStyle None.
Definition emptyPolygonData : ShapeData :=
  mkShapeData (mkGraphics 0 (createGraphics emptyPolygon) "e" []) emptyPolygon false.
Definition emptyPolygonManager : ShapeManager :=
  fst (addShape emptyPolygon newShapeManager).

(** The handles the creating loops make for the positions [ps], from
    index [index] and graphics identity [g] on. *)
Fixpoint handlesFrom (sid : string) (ps : list Coordinate) (index g : nat)
  : list ResizeHandleGraphics :=
  match ps with
  | [] => []
  | p :: rest =>
      mkHandle g p true (Some index) (Some sid) false
      :: handlesFrom sid rest (S index) (S g)
  end.

(** Every resize handle refers to the shape [j]. *)
Definition ownedBy (j : string) (m : ShapeManager) : Prop :=
  forall h, In h (resizeHandles m) -> shapeId h = Some j.

(** The handles follow the selection: the selection is a set, there is
    no handle unless exactly one shape is selected, and then every
    handle refers to that shape. *)
Definition handlesFollowSelection (m : ShapeManager) : Prop :=
  NoDup (selectedShapes m)
  /\ (List.length (selectedShapes m) <> 1%nat -> resizeHandles m = [])
  /\ (forall j, selectedShapes m = [j] -> ownedBy j m).

(** [m'] has the selection of [m], and handles that refer to the same
    shapes. *)
Definition selectionKept (m m' : ShapeManager) : Prop :=
  selectedShapes m' = selectedShapes m
  /\ map (@shapeId) (resizeHandles m') = map (@shapeId) (resizeHandles m).

(** What a pointer move that turns the shape of [a] into [s'] leaves:
    the entry of [a] keeps its graphics object and its flag and is
    redrawn as selected; the other entries, the keys, the spatial index,
    the scene, the selection and the gesture are as before; the handles
    are repositioned, none is made or dropped. *)
Definition movedTo (a : string) (s' : Shape) (sd : ShapeData)
  (m m' : ShapeManager) : Prop :=
  JsMap.get a (shapes m')
  = Some (mkShapeData (set_commands (graphics sd) (redraw s' true)) s' (inScene sd))
  /\ (forall j, j <> a -> JsMap.get j (shapes m') = JsMap.get j (shapes m))
  /\ JsMap.keys (shapes m') = JsMap.keys (shapes m)
  /\ spatialIndex m' = spatialIndex m
  /\ shapesContainer m' = shapesContainer m
  /\ selectedShapes m' = selectedShapes m
  /\ gesture m' = gesture m
  /\ resizeHandles m' = repositionHandles (handlePositions s') (resizeHandles m).

Definition resizedTriangle : ShapeManager :=
  with_resizeHandleIndex
    (with_activeShapeId (with_isResizing triangleManager true) (Some "a"%string)) 1%Z.


(** The graphics object [g] is shown, but belongs to no entry of the
    store and is no handle: no method can reach it. *)
Definition orphan (g : nat) (m : ShapeManager) : Prop :=
  In g (shapesContainer m) /\ ~ In g (storeIds m) /\ ~ In g (handleIds m).

(** [m'] is well formed when [m] is, and an orphan of [m] is one of [m']. *)
Definition orphanKept (g : nat) (m m' : ShapeManager) : Prop :=
  WellFormed m -> WellFormed m' /\ (orphan g m -> orphan g m').

(** Sample: the entry of the point once a cull pass has shown it. *)
Definition shownPointData : ShapeData :=
  mkShapeData (mkGraphics 0 (createGraphics samplePoint) "p" []) samplePoint true.

(** When the two drawing routines agree on a shape: on a line always,
    on a polygon without vertices always (nothing is drawn), otherwise
    when the style has a border colour (the create routines stroke only
    then) and the fill, if there is one, has an opacity other than 0
    (which the create routines replace by 1). *)
Definition restorable (s : Shape) : Prop :=
  match s with
  | line _ _ _ _ => True
  | polygon _ [] _ _ => True
  | polygon _ (_ :: _) st _ | point _ _ st _ _ =>
      truthy (borderColor st) <> None
      /\ (truthy (fillColor st) = None \/ opacity st <> Some 0)
  end.

(** Sample: a point with a fill and a border colour, in an otherwise
    new manager. *)
Definition markedPoint : Shape :=
  point "q" (mkCoordinate 0 0)
    (mkStyle (Some "#FF6347"%string) (Some "#8B0000"%string) (Some 2) None)
    None None.
Definition markedManager : ShapeManager := fst (addShape markedPoint newShapeManager).
Definition markedData : ShapeData :=
  mkShapeData (mkGraphics 0 (createGraphics markedPoint) "q" []) markedPoint false.

(** Sample: the empty polygon, selected, with its graphics in the
    scene. *)
Definition shownEmptyPolygon : ShapeManager :=
  with_shapesContainer (selectShape "e" false emptyPolygonManager) [0%nat].
Definition selectedEmptyPolygonData : ShapeData :=
  mkShapeData (mkGraphics 0 [] "e" []) emptyPolygon false.

(* ================================================================== *)
(** ** Boxes of the index *)

(** A box is proper when no side is inverted. *)
Definition proper (b : BBox) : bool :=
  Num.xleb (minX b) (maxX b) && Num.xleb (minY b) (maxY b).

(** A box is snug in a query when it is proper and the query contains
    it. *)
Definition snug (q b : BBox) : Prop :=
  proper b = true /\ RBush.contains q b = true.

(** Sample store of ten shapes, loaded the way the host does: nine
    points on a diagonal and a polygon without any vertex; and a
    viewport around all of them. *)
Definition pointAt (i : string) (c : R) : Shape :=
  point i (mkCoordinate c c) plainStyle None None.
Definition crowd : list Shape :=
  [pointAt "p1" 1; pointAt "p2" 2; pointAt "p3" 3; pointAt "p4" 4; pointAt "p5" 5;
   pointAt "p6" 6; pointAt "p7" 7; pointAt "p8" 8; pointAt "p9" 9; emptyPolygon].
Definition crowdedManager : ShapeManager := loadShapes crowd newShapeManager.
Definition crowdViewport : ViewportBounds := mkViewport (-20) (-20) 60 60.
Definition crowdIndex : list RBushItem :=
  map (fun s => mkItem (calculateShapeBounds s) (shape_id s)) crowd.

(* ================================================================== *)
(** ** Facts about the index *)

Lemma xleb_refl a : Num.xleb a a = true.
Proof.
  destruct a as [|r|]; try reflexivity. unfold Num.xleb, Num.leb.
  destruct (Rle_dec r r); [reflexivity | exfalso; lra].
Qed.

Lemma xleb_trans a b c : Num.xleb a b = true -> Num.xleb b c = true -> Num.xleb a c = true.
Proof.
  destruct a as [|r|], b as [|s|], c as [|t|]; simpl; try reflexivity;
    try discriminate; auto.
  unfold Num.leb. destruct (Rle_dec r s), (Rle_dec s t), (Rle_dec r t);
    try reflexivity; try discriminate. exfalso; lra.
Qed.

Lemma xleb_total a b : Num.xleb a b = true \/ Num.xleb b a = true.
Proof.
  destruct a as [|r|], b as [|s|]; simpl; auto.
  unfold Num.leb. destruct (Rle_dec r s), (Rle_dec s r); auto. exfalso; lra.
Qed.

Lemma xmin_le_l a b : Num.xleb (RBush.xmin a b) a = true.
Proof.
  unfold RBush.xmin. destruct (Num.xleb a b) eqn:E; [apply xleb_refl|].
  destruct (xleb_total a b) as [H|H]; [congruence | exact H].
Qed.

Lemma xmin_le_r a b : Num.xleb (RBush.xmin a b) b = true.
Proof.
  unfold RBush.xmin. destruct (Num.xleb a b) eqn:E; [exact E | apply xleb_refl].
Qed.

Lemma xmax_ge_l a b : Num.xleb a (RBush.xmax a b) = true.
Proof.
  unfold RBush.xmax. destruct (Num.xleb a b) eqn:E; [exact E | apply xleb_refl].
Qed.

Lemma xmax_ge_r a b : Num.xleb b (RBush.xmax a b) = true.
Proof.
  unfold RBush.xmax. destruct (Num.xleb a b) eqn:E; [apply xleb_refl|].
  destruct (xleb_total a b) as [H|H]; [congruence | exact H].
Qed.

Lemma contains_spec a b :
  RBush.contains a b = true <->
  Num.xleb (minX a) (minX b) = true /\ Num.xleb (minY a) (minY b) = true
  /\ Num.xleb (maxX b) (maxX a) = true /\ Num.xleb (maxY b) (maxY a) = true.
Proof. unfold RBush.contains. rewrite !andb_true_iff. tauto. Qed.

Lemma intersects_spec a b :
  intersects a b = true <->
  Num.xleb (minX b) (maxX a) = true /\ Num.xleb (minY b) (maxY a) = true
  /\ Num.xleb (minX a) (maxX b) = true /\ Num.xleb (minY a) (maxY b) = true.
Proof. unfold intersects, Num.xgeb. rewrite !andb_true_iff. tauto. Qed.

Lemma proper_spec b :
  proper b = true <->
  Num.xleb (minX b) (maxX b) = true /\ Num.xleb (minY b) (maxY b) = true.
Proof. unfold proper. rewrite andb_true_iff. tauto. Qed.

Lemma contains_refl a : RBush.contains a a = true.
Proof. apply contains_spec. repeat split; apply xleb_refl. Qed.

Lemma contains_trans a b c :
  RBush.contains a b = true -> RBush.contains b c = true -> RBush.contains a c = true.
Proof.
  rewrite !contains_spec. intros (A1 & A2 & A3 & A4) (B1 & B2 & B3 & B4).
  repeat split; eapply xleb_trans; eassumption.
Qed.

Lemma extend_contains_l a b : RBush.contains (RBush.extend a b) a = true.
Proof.
  apply contains_spec. unfold RBush.extend. cbn [minX minY maxX maxY].
  repeat split; first [apply xmin_le_l | apply xmax_ge_l].
Qed.

Lemma extend_contains_r a b : RBush.contains (RBush.extend a b) b = true.
Proof.
  apply contains_spec. unfold RBush.extend. cbn [minX minY maxX maxY].
  repeat split; first [apply xmin_le_r | apply xmax_ge_r].
Qed.

(** The box of a fold contains where it started and what it met. *)
Lemma fold_extend_contains (A : Type) (f : A -> BBox) (l : list A) : forall b,
  RBush.contains (fold_left (fun b x => RBush.extend b (f x)) l b) b = true
  /\ forall x, In x l ->
       RBush.contains (fold_left (fun b x => RBush.extend b (f x)) l b) (f x) = true.
Proof.
  induction l as [|a l IH]; intros b; simpl.
  - split; [apply contains_refl | intros x []].
  - destruct (IH (RBush.extend b (f a))) as [Hacc Hall]. split.
    + eapply contains_trans; [exact Hacc | apply extend_contains_l].
    + intros x [<- | Hin]; [|apply Hall; exact Hin].
      eapply contains_trans; [exact Hacc | apply extend_contains_r].
Qed.

(** A query that meets a box meets every box around it. *)
Lemma intersects_around q outer b :
  RBush.contains outer b = true -> intersects q b = true -> intersects q outer = true.
Proof.
  rewrite contains_spec, !intersects_spec.
  intros (C1 & C2 & C3 & C4) (I1 & I2 & I3 & I4).
  repeat split; eapply xleb_trans; eassumption.
Qed.

(** A query that contains a box meets every proper box inside it. *)
Lemma contained_proper_intersects q outer b :
  RBush.contains q outer = true -> RBush.contains outer b = true ->
  proper b = true -> intersects q b = true.
Proof.
  rewrite !contains_spec, proper_spec, intersects_spec.
  intros (Q1 & Q2 & Q3 & Q4) (C1 & C2 & C3 & C4) (P1 & P2).
  repeat split.
  - eapply xleb_trans; [exact P1|]. eapply xleb_trans; eassumption.
  - eapply xleb_trans; [exact P2|]. eapply xleb_trans; eassumption.
  - eapply xleb_trans; [exact Q1|]. eapply xleb_trans; eassumption.
  - eapply xleb_trans; [exact Q2|]. eapply xleb_trans; eassumption.
Qed.

(** Induction on nodes, with the children of an inner node at hand. *)
Lemma Node_induction (P : RBush.Node -> Prop) :
  (forall items, P (RBush.leaf items)) ->
  (forall children, Forall P children -> P (RBush.inner children)) ->
  forall node, P node.
Proof.
  intros Hleaf Hinner.
  fix IH 1. intros [items | children]; [apply Hleaf|].
  apply Hinner. induction children as [|c cs IHcs]; constructor; [apply IH | exact IHcs].
Qed.

Lemma all_inner item children :
  In item (RBush.all (RBush.inner children))
  <-> exists child, In child children /\ In item (RBush.all child).
Proof.
  cbn [RBush.all].
  assert (Hfold : forall acc,
    In item (fold_left (fun result child => RBush.all child ++ result) children acc)
    <-> In item acc \/ exists child, In child children /\ In item (RBush.all child)).
  { induction children as [|c cs IH]; intros acc; simpl.
    - split; [auto | intros [H | (c & [] & _)]; exact H].
    - rewrite IH, in_app_iff. split.
      + intros [[H | H] | (c' & Hc & H)]; eauto.
      + intros [H | (c' & [<- | Hc] & H)]; eauto. }
  rewrite Hfold. simpl. split; [intros [[] | H]; exact H | auto].
Qed.

Lemma searchFrom_inner q item children :
  In item (RBush.searchFrom q (RBush.inner children))
  <-> exists child,
        In child children /\ intersects q (RBush.nodeBox child) = true
        /\ (if RBush.contains q (RBush.nodeBox child)
            then In item (RBush.all child)
            else In item (RBush.searchFrom q child)).
Proof.
  cbn [RBush.searchFrom]. cbv zeta.
  set (step := fun (r : list RBushItem * list RBushItem) child =>
                 if intersects q (RBush.nodeBox child) then
                   if RBush.contains q (RBush.nodeBox child)
                   then (fst r ++ RBush.all child, snd r)
                   else (fst r, RBush.searchFrom q child ++ snd r)
                 else r).
  assert (Hfold : forall r,
    In item (fst (fold_left step children r) ++ snd (fold_left step children r))
    <-> In item (fst r ++ snd r)
        \/ exists child,
             In child children /\ intersects q (RBush.nodeBox child) = true
             /\ (if RBush.contains q (RBush.nodeBox child)
                 then In item (RBush.all child)
                 else In item (RBush.searchFrom q child))).
  { induction children as [|c cs IH]; intros r; simpl.
    - split; [auto | intros [H | (c & [] & _)]; exact H].
    - rewrite IH.
      assert (Hstep : step r c
                      = if intersects q (RBush.nodeBox c) then
                          if RBush.contains q (RBush.nodeBox c)
                          then (fst r ++ RBush.all c, snd r)
                          else (fst r, RBush.searchFrom q c ++ snd r)
                        else r) by reflexivity.
      rewrite Hstep. clear Hstep.
      destruct (intersects q (RBush.nodeBox c)) eqn:Ei.
      + destruct (RBush.contains q (RBush.nodeBox c)) eqn:Ec; cbn [fst snd];
          rewrite !in_app_iff; split; intros H;
          repeat match goal with
                 | H : _ \/ _ |- _ => destruct H
                 | H : ex _ |- _ => destruct H
                 | H : _ /\ _ |- _ => destruct H
                 end;
          subst; rewrite ?Ec in *; eauto 8;
          right; exists c; rewrite Ei, Ec; auto.
      + rewrite in_app_iff. split; intros H;
          repeat match goal with
                 | H : _ \/ _ |- _ => destruct H
                 | H : ex _ |- _ => destruct H
                 | H : _ /\ _ |- _ => destruct H
                 end;
          subst; eauto 8; congruence. }
  rewrite Hfold. simpl. split; [intros [[] | H]; exact H | auto].
Qed.

(** The box of a node contains the box of every item below it. *)
Lemma nodeBox_contains item : forall node,
  In item (RBush.all node) -> RBush.contains (RBush.nodeBox node) (bbox item) = true.
Proof.
  induction node as [items | children IH] using Node_induction; intros Hin.
  - cbn [RBush.all RBush.nodeBox] in *.
    apply (fold_extend_contains _ (@bbox) items emptyBounds). exact Hin.
  - apply all_inner in Hin. destruct Hin as (child & Hc & Hin).
    rewrite Forall_forall in IH. specialize (IH child Hc Hin).
    cbn [RBush.nodeBox].
    eapply contains_trans; [|exact IH].
    apply (fold_extend_contains _ RBush.nodeBox children emptyBounds). exact Hc.
Qed.

(** What [search] returns is in the tree. *)
Lemma searchFrom_sound q item : forall node,
  In item (RBush.searchFrom q node) -> In item (RBush.all node).
Proof.
  induction node as [items | children IH] using Node_induction; intros Hin.
  - cbn [RBush.searchFrom RBush.all] in *. apply filter_In in Hin. tauto.
  - apply searchFrom_inner in Hin. destruct Hin as (child & Hc & _ & Hin).
    apply all_inner. exists child. split; [exact Hc|].
    destruct (RBush.contains q (RBush.nodeBox child)); [exact Hin|].
    rewrite Forall_forall in IH. apply (IH child Hc Hin).
Qed.

(** Every item whose box meets the query is returned. *)
Lemma searchFrom_complete q item : forall node,
  In item (RBush.all node) -> intersects q (bbox item) = true ->
  In item (RBush.searchFrom q node).
Proof.
  induction node as [items | children IH] using Node_induction; intros Hin Hx.
  - cbn [RBush.searchFrom RBush.all] in *. apply filter_In. auto.
  - apply all_inner in Hin. destruct Hin as (child & Hc & Hin).
    apply searchFrom_inner. exists child. split; [exact Hc|]. split.
    + apply (intersects_around q _ (bbox item)); [|exact Hx].
      apply nodeBox_contains. exact Hin.
    + destruct (RBush.contains q (RBush.nodeBox child)); [exact Hin|].
      rewrite Forall_forall in IH. apply (IH child Hc Hin Hx).
Qed.

(** An item with a proper box is returned only when its box meets the
    query. *)
Lemma searchFrom_proper q item : forall node,
  In item (RBush.searchFrom q node) -> proper (bbox item) = true ->
  intersects q (bbox item) = true.
Proof.
  induction node as [items | children IH] using Node_induction; intros Hin Hp.
  - cbn [RBush.searchFrom] in Hin. apply filter_In in Hin. tauto.
  - apply searchFrom_inner in Hin. destruct Hin as (child & Hc & _ & Hin).
    destruct (RBush.contains q (RBush.nodeBox child)) eqn:Ec.
    + apply (contained_proper_intersects q (RBush.nodeBox child)); auto.
      apply nodeBox_contains. exact Hin.
    + rewrite Forall_forall in IH. apply (IH child Hc Hin Hp).
Qed.

Lemma search_sound tree q item :
  In item (RBush.search tree q) -> In item (RBush.all tree).
Proof.
  unfold RBush.search. destruct (intersects q (RBush.nodeBox tree)); [|intros []].
  apply searchFrom_sound.
Qed.

Lemma search_complete tree q item :
  In item (RBush.all tree) -> intersects q (bbox item) = true ->
  In item (RBush.search tree q).
Proof.
  intros Hin Hx. unfold RBush.search.
  rewrite (intersects_around q _ (bbox item) (nodeBox_contains item tree Hin) Hx).
  apply searchFrom_complete; assumption.
Qed.

Lemma search_proper tree q item :
  In item (RBush.search tree q) -> proper (bbox item) = true ->
  intersects q (bbox item) = true.
Proof.
  unfold RBush.search. destruct (intersects q (RBush.nodeBox tree)); [|intros []].
  apply searchFrom_proper.
Qed.

(** A leaf is searched item by item. *)
Lemma search_leaf items q item :
  In item (RBush.search (RBush.leaf items) q)
  <-> In item items /\ intersects q (bbox item) = true.
Proof.
  split.
  - intros Hin. split; [apply (search_sound _ _ _ Hin)|].
    unfold RBush.search in Hin.
    destruct (intersects q (RBush.nodeBox (RBush.leaf items))); [|destruct Hin].
    cbn [RBush.searchFrom] in Hin. apply filter_In in Hin. tauto.
  - intros [Hin Hx]. apply search_complete; assumption.
Qed.

(* ------------------------------------------------------------------ *)
(** *** Loading *)

Lemma takeAt_In (A : Type) (x : A) : forall n l, In x (RBush.takeAt n l) <-> In x l.
Proof.
  intros n l. revert n. induction l as [|a l IH]; intros n; simpl; [tauto|].
  destruct n as [|n]; [simpl; tauto|].
  specialize (IH n). destruct (RBush.takeAt n l) as [|b rest]; simpl in *; [tauto|].
  rewrite <- IH. tauto.
Qed.

Lemma takeAt_length (A : Type) : forall n (l : list A),
  List.length (RBush.takeAt n l) = List.length l.
Proof.
  intros n l. revert n. induction l as [|a l IH]; intros n; simpl; [reflexivity|].
  destruct n as [|n]; [reflexivity|].
  specialize (IH n). destruct (RBush.takeAt n l) as [|b rest]; simpl in *; lia.
Qed.

Lemma rearrange_In (A : Type) (x : A) : forall picks l,
  In x (RBush.rearrange picks l) <-> In x l.
Proof.
  induction picks as [|p picks IH]; intros l; simpl; [tauto|].
  pose proof (takeAt_In A x p l) as Ht. pose proof (takeAt_length A p l) as Hl.
  destruct (RBush.takeAt p l) as [|a rest]; simpl in *.
  - destruct l; [tauto | discriminate].
  - rewrite IH. exact Ht.
Qed.

Lemma rearrange_length (A : Type) : forall picks (l : list A),
  List.length (RBush.rearrange picks l) = List.length l.
Proof.
  induction picks as [|p picks IH]; intros l; simpl; [reflexivity|].
  pose proof (takeAt_length A p l) as Hl.
  destruct (RBush.takeAt p l) as [|a rest]; simpl in *.
  - destruct l; [reflexivity | discriminate].
  - rewrite IH. lia.
Qed.

Lemma chunks_In (A : Type) (x : A) n : (1 <= n)%nat -> forall fuel l,
  (List.length l <= fuel)%nat ->
  ((exists chunk, In chunk (RBush.chunks fuel n l) /\ In x chunk) <-> In x l).
Proof.
  intros Hn. induction fuel as [|fuel IH]; intros l Hlen.
  - destruct l; [|simpl in Hlen; lia]. simpl. split; [intros (c & [] & _) | intros []].
  - destruct l as [|a l]; [simpl; split; [intros (c & [] & _) | intros []]|].
    cbn [RBush.chunks].
    assert (Hskip : (List.length (skipn n (a :: l)) <= fuel)%nat).
    { rewrite length_skipn. lia. }
    specialize (IH (skipn n (a :: l)) Hskip).
    assert (Hsplit : In x (a :: l)
                     <-> In x (firstn n (a :: l)) \/ In x (skipn n (a :: l)))
      by (rewrite <- in_app_iff, firstn_skipn; reflexivity).
    rewrite Hsplit, <- IH. clear Hsplit.
    split.
    + intros (c & [<- | Hc] & Hx); eauto.
    + intros [Hx | (c & Hc & Hx)]; [exists (firstn n (a :: l)); simpl; auto|].
      exists c. simpl. auto.
Qed.

Lemma chunks_size (A : Type) n : forall fuel (l chunk : list A),
  In chunk (RBush.chunks fuel n l) -> (List.length chunk <= n)%nat.
Proof.
  induction fuel as [|fuel IH]; intros l chunk; [intros []|].
  destruct l as [|a l]; [intros []|]. cbn [RBush.chunks].
  intros [<- | Hin]; [apply firstn_le_length | apply (IH _ _ Hin)].
Qed.

Lemma divUp_pos n m : (1 <= n)%nat -> (1 <= m)%nat -> (1 <= RBush.divUp n m)%nat.
Proof.
  intros Hn Hm. unfold RBush.divUp. apply Nat.div_str_pos. lia.
Qed.

Lemma divUp_lt n m : (2 <= n)%nat -> (2 <= m)%nat -> (RBush.divUp n m < n)%nat.
Proof.
  intros Hn Hm. unfold RBush.divUp. apply Nat.Div0.div_lt_upper_bound. nia.
Qed.

Lemma divUp_two n m : (1 <= m)%nat -> (m < n)%nat -> (2 <= RBush.divUp n m)%nat.
Proof.
  intros Hm Hlt. unfold RBush.divUp. apply Nat.div_le_lower_bound; lia.
Qed.

(** The height the tree is given is the least that suffices. *)
Lemma logUp_least : forall fuel power n k,
  RBush.logUp fuel power n = S k -> (power * RBush.maxEntries ^ k < n)%nat.
Proof.
  induction fuel as [|fuel IH]; intros power n k; simpl; [discriminate|].
  destruct (Nat.leb_spec n power) as [Hle | Hlt]; [discriminate|].
  intros H. injection H as H. destruct k as [|k].
  - simpl. lia.
  - apply IH in H. rewrite Nat.pow_succ_r'.
    rewrite <- Nat.mul_assoc in H. exact H.
Qed.

Lemma logUp_positive : forall fuel power n,
  (1 <= fuel)%nat -> (power < n)%nat -> exists k, RBush.logUp fuel power n = S k.
Proof.
  intros [|fuel] power n Hf Hlt; [lia|]. simpl.
  destruct (Nat.leb_spec n power); [lia | eauto].
Qed.

(** The sizes of the tiles of one call of [_build]. *)
Lemma build_sizes N height :
  (RBush.maxEntries < N)%nat ->
  let height' := if Nat.eqb height 0 then RBush.targetHeight N else height in
  let M := if Nat.eqb height 0
           then RBush.divUp N (Nat.pow RBush.maxEntries (height' - 1))
           else RBush.maxEntries in
  (1 <= RBush.divUp N M < N)%nat /\ (1 <= RBush.divUp N M * Nat.sqrt_up M)%nat.
Proof.
  intros HN. cbv zeta. unfold RBush.maxEntries in *.
  assert (HM : (2 <= (if Nat.eqb height 0
                      then RBush.divUp N (Nat.pow 9 ((if Nat.eqb height 0
                                                      then RBush.targetHeight N
                                                      else height) - 1))
                      else 9))%nat).
  { destruct (Nat.eqb height 0); [|lia].
    destruct (logUp_positive N 1 N) as (k & Hk); [lia | lia |].
    unfold RBush.targetHeight. rewrite Hk.
    apply logUp_least in Hk. unfold RBush.maxEntries in Hk.
    replace (S k - 1)%nat with k by lia.
    apply divUp_two; [|lia].
    pose proof (Nat.pow_nonzero 9 k). lia. }
  set (M := if Nat.eqb height 0 then _ else _) in *.
  split.
  - split; [apply divUp_pos; lia | apply divUp_lt; lia].
  - assert (1 <= RBush.divUp N M)%nat by (apply divUp_pos; lia).
    assert (0 < Nat.sqrt_up M)%nat by (apply Nat.sqrt_up_pos; lia).
    nia.
Qed.

(** The tree [_build] makes holds the items it was given, whatever the
    bound of the recursion. *)
Lemma build_In item : forall fuel height items,
  In item (RBush.all (RBush.build fuel height items)) <-> In item items.
Proof.
  induction fuel as [|fuel IH]; intros height items; cbn [RBush.build]; cbv zeta.
  - destruct (Nat.leb (List.length items) RBush.maxEntries); reflexivity.
  - destruct (Nat.leb_spec (List.length items) RBush.maxEntries) as [Hle | Hlt];
      [reflexivity|].
    destruct (build_sizes (List.length items) height Hlt) as [[HN2 _] HN1].
    cbv zeta in HN2, HN1.
    rewrite all_inner.
    rewrite <- (chunks_In _ item _ HN1 (List.length items) items (Nat.le_refl _)).
    split.
    + intros (child & Hc & Hin). apply in_flat_map in Hc.
      destruct Hc as (tile & Htile & Hc). apply in_map_iff in Hc.
      destruct Hc as (chunk & <- & Hchunk). apply IH in Hin.
      exists tile. split; [exact Htile|].
      apply (chunks_In _ item _ HN2 (List.length tile) tile (Nat.le_refl _)).
      eauto.
    + intros (tile & Htile & Hin).
      apply (chunks_In _ item _ HN2 (List.length tile) tile (Nat.le_refl _)) in Hin.
      destruct Hin as (chunk & Hchunk & Hin).
      eexists. split.
      * apply in_flat_map. exists tile. split; [exact Htile|].
        apply in_map. exact Hchunk.
      * apply IH. exact Hin.
Qed.

Lemma flat_map_ext_In (A B : Type) (f g : A -> list B) (l : list A) :
  (forall a, In a l -> f a = g a) -> flat_map f l = flat_map g l.
Proof.
  induction l as [|a l IH]; intros H; simpl; [reflexivity|].
  rewrite (H a (or_introl eq_refl)), IH; [reflexivity|].
  intros b Hb. apply H. right. exact Hb.
Qed.

(** The bound of the recursion is never reached: any bound from the
    number of items on gives the same tree. *)
Lemma build_fuel : forall fuel fuel' height items,
  (List.length items <= fuel)%nat -> (List.length items <= fuel')%nat ->
  RBush.build fuel height items = RBush.build fuel' height items.
Proof.
  induction fuel as [|fuel IH]; intros fuel' height items H1 H2.
  - destruct items; [|simpl in H1; lia]. destruct fuel'; reflexivity.
  - destruct fuel' as [|fuel'].
    + destruct items; [reflexivity | simpl in H2; lia].
    + cbn [RBush.build]. cbv zeta.
      destruct (Nat.leb_spec (List.length items) RBush.maxEntries) as [Hle | Hlt];
        [reflexivity|].
      destruct (build_sizes (List.length items) height Hlt) as [[_ HN2] _].
      cbv zeta in HN2. f_equal. apply flat_map_ext_In. intros tile Htile.
      apply map_ext_in. intros chunk Hchunk.
      apply chunks_size in Hchunk. apply IH; lia.
Qed.

(** What is loaded is what the index holds. *)
Lemma load_In picks data item :
  In item (RBush.all (RBush.load picks data)) <-> In item data.
Proof.
  unfold RBush.load. destruct (Nat.leb (List.length data) RBush.maxEntries);
    [reflexivity|].
  rewrite build_In. apply rearrange_In.
Qed.

Lemma load_small picks data :
  (List.length data <= RBush.maxEntries)%nat -> RBush.load picks data = RBush.leaf data.
Proof.
  intros H. unfold RBush.load. apply Nat.leb_le in H. rewrite H. reflexivity.
Qed.

(* ================================================================== *)
(** ** Nodes that a query contains *)

Lemma extend_empty_l b : RBush.extend emptyBounds b = b.
Proof. destruct b as [[|a|] [|b|] [|c|] [|d|]]; reflexivity. Qed.

Lemma extend_empty_r b : RBush.extend b emptyBounds = b.
Proof. destruct b as [[|a|] [|b|] [|c|] [|d|]]; reflexivity. Qed.

Lemma xmin_either a b : RBush.xmin a b = a \/ RBush.xmin a b = b.
Proof. unfold RBush.xmin. destruct (Num.xleb a b); auto. Qed.

Lemma xmax_either a b : RBush.xmax a b = a \/ RBush.xmax a b = b.
Proof. unfold RBush.xmax. destruct (Num.xleb a b); auto. Qed.

Lemma snug_extend q a b : snug q a -> snug q b -> snug q (RBush.extend a b).
Proof.
  unfold snug. rewrite !proper_spec, !contains_spec.
  intros ((P1 & P2) & Q1 & Q2 & Q3 & Q4) ((P1' & P2') & Q1' & Q2' & Q3' & Q4').
  unfold RBush.extend. cbn [minX minY maxX maxY]. repeat split.
  - eapply xleb_trans; [apply xmin_le_l|]. eapply xleb_trans; [exact P1|].
    apply xmax_ge_l.
  - eapply xleb_trans; [apply xmin_le_l|]. eapply xleb_trans; [exact P2|].
    apply xmax_ge_l.
  - destruct (xmin_either (minX a) (minX b)) as [-> | ->]; assumption.
  - destruct (xmin_either (minY a) (minY b)) as [-> | ->]; assumption.
  - destruct (xmax_either (maxX a) (maxX b)) as [-> | ->]; assumption.
  - destruct (xmax_either (maxY a) (maxY b)) as [-> | ->]; assumption.
Qed.

(** A fold over boxes that are empty or snug ends empty or snug, and
    snug as soon as it started snug or met a snug box. *)
Lemma fold_extend_snug (A : Type) (f : A -> BBox) q (l : list A) :
  (forall x, In x l -> f x = emptyBounds \/ snug q (f x)) ->
  forall b, b = emptyBounds \/ snug q b ->
  let r := fold_left (fun b x => RBush.extend b (f x)) l b in
  (r = emptyBounds \/ snug q r)
  /\ (snug q b \/ (exists x, In x l /\ snug q (f x)) -> snug q r).
Proof.
  induction l as [|a l IH]; intros Hall b Hb; cbn [fold_left].
  - split; [exact Hb|]. intros [H | (x & [] & _)]. exact H.
  - assert (Ha : f a = emptyBounds \/ snug q (f a)) by (apply Hall; left; reflexivity).
    assert (Hnext : RBush.extend b (f a) = emptyBounds \/ snug q (RBush.extend b (f a))).
    { destruct Hb as [-> | Hb]; [rewrite extend_empty_l; exact Ha|].
      destruct Ha as [-> | Ha]; [rewrite extend_empty_r; right; exact Hb|].
      right. apply snug_extend; assumption. }
    destruct (IH (fun x Hx => Hall x (or_intror Hx)) _ Hnext) as [Hr Hsnug].
    split; [exact Hr|].
    intros [Hs | (x & [<- | Hx] & Hs)].
    + apply Hsnug. left. destruct Ha as [-> | Ha];
        [rewrite extend_empty_r; exact Hs | apply snug_extend; assumption].
    + apply Hsnug. left. destruct Hb as [-> | Hb];
        [rewrite extend_empty_l; exact Hs | apply snug_extend; assumption].
    + apply Hsnug. right. exists x. auto.
Qed.

(** The box of a leaf whose items are empty or snug, one of them snug,
    is snug. *)
Lemma leaf_snug q items :
  (forall item, In item items -> bbox item = emptyBounds \/ snug q (bbox item)) ->
  (exists item, In item items /\ snug q (bbox item)) ->
  snug q (RBush.nodeBox (RBush.leaf items)).
Proof.
  intros Hall Hsome. cbn [RBush.nodeBox].
  destruct (fold_extend_snug _ (@bbox) q items Hall emptyBounds (or_introl eq_refl))
    as [_ H].
  apply H. right. exact Hsome.
Qed.

(** A search whose query contains the box of every child of the root
    looks at no item: it returns all of them. *)
Lemma search_children_snug q children item :
  (forall child, In child children -> snug q (RBush.nodeBox child)) ->
  In item (RBush.all (RBush.inner children)) ->
  In item (RBush.search (RBush.inner children) q).
Proof.
  intros Hsnug Hin. apply all_inner in Hin. destruct Hin as (child & Hc & Hitem).
  assert (Hroot : snug q (RBush.nodeBox (RBush.inner children))).
  { cbn [RBush.nodeBox].
    destruct (fold_extend_snug _ RBush.nodeBox q children
                (fun c Hc => or_intror (Hsnug c Hc)) emptyBounds (or_introl eq_refl))
      as [_ H].
    apply H. right. exists child. auto. }
  unfold RBush.search.
  destruct Hroot as [Hp Hq].
  rewrite (contained_proper_intersects q _ _ Hq (contains_refl _) Hp).
  apply searchFrom_inner. exists child. split; [exact Hc|].
  destruct (Hsnug child Hc) as [Hpc Hqc].
  rewrite (contained_proper_intersects q _ _ Hqc (contains_refl _) Hpc), Hqc.
  auto.
Qed.

(** The arrangement is a permutation of the items. *)
Lemma takeAt_Permutation (A : Type) (n : nat) : forall l : list A,
  Permutation (RBush.takeAt n l) l.
Proof.
  induction n as [|n IH]; intros [|a rest]; cbn [RBush.takeAt]; try reflexivity.
  specialize (IH rest). destruct (RBush.takeAt n rest) as [|b rest'];
    [reflexivity|].
  etransitivity; [apply perm_swap|]. apply perm_skip. exact IH.
Qed.

Lemma rearrange_Permutation (A : Type) (picks : list nat) : forall l : list A,
  Permutation (RBush.rearrange picks l) l.
Proof.
  induction picks as [|p picks IH]; intros l; cbn [RBush.rearrange]; [reflexivity|].
  pose proof (takeAt_Permutation A p l) as Hp.
  destruct (RBush.takeAt p l) as [|a rest].
  - exact Hp.
  - etransitivity; [|exact Hp]. apply perm_skip. apply IH.
Qed.

(* ================================================================== *)
(** ** Facts about numbers *)

Lemma ltb_true_iff (a b : R) : Num.ltb a b = true <-> a < b.
Proof. unfold Num.ltb. destruct (Rlt_dec a b); split; intros; auto; discriminate. Qed.

Lemma ltb_false_iff (a b : R) : Num.ltb a b = false <-> b <= a.
Proof.
  unfold Num.ltb. destruct (Rlt_dec a b); split; intros; auto; try discriminate; lra.
Qed.

Lemma leb_true_iff (a b : R) : Num.leb a b = true <-> a <= b.
Proof. unfold Num.leb. destruct (Rle_dec a b); split; intros; auto; discriminate. Qed.


Lemma sqrt_gt_iff (c r : R) : 0 <= c -> (c < sqrt r <-> c * c < r).
Proof.
  intros Hc. split; intros H.
  - destruct (Rle_or_lt r 0) as [Hr | Hr].
    + rewrite sqrt_neg_0 in H by exact Hr. lra.
    + rewrite <- (sqrt_sqrt r) by lra.
      apply Rmult_le_0_lt_compat; lra.
  - rewrite <- (sqrt_square c) by exact Hc.
    apply sqrt_lt_1_alt. split; [nra | exact H].
Qed.

Lemma lodLevel_zero (zoom : R) : zoom <= LOD_MEDIUM_THRESHOLD -> lodLevel zoom = 0%nat.
Proof.
  unfold lodLevel, Num.gtb, LOD_LOW_THRESHOLD, LOD_MEDIUM_THRESHOLD. intros H.
  rewrite (proj2 (ltb_false_iff 8 zoom)) by lra.
  rewrite (proj2 (ltb_false_iff 3 zoom)) by lra. reflexivity.
Qed.

(** C6: [cullShapes] takes [zoomOutFactor] to be the square root of
    viewport width times height over the reference area, and reports the
    level of detail derived from it: 2 exactly when the factor exceeds
    the low threshold, 1 exactly when it exceeds the medium threshold
    without exceeding the low one, and 0 otherwise. *)
Theorem lodLevel_thresholds (v : ViewportBounds) (m : ShapeManager) :
  let zoom := zoomOutFactor v in
  zoom = sqrt (width v * height v / BASE_AREA)
  /\ Detail.lodLevel (snd (cullShapes v m)) = lodLevel zoom
  /\ (lodLevel zoom = 2%nat <-> zoom > LOD_LOW_THRESHOLD)
  /\ (lodLevel zoom = 1%nat <->
      zoom > LOD_MEDIUM_THRESHOLD /\ zoom <= LOD_LOW_THRESHOLD)
  /\ (lodLevel zoom = 0%nat <-> zoom <= LOD_MEDIUM_THRESHOLD).
Proof.
  intros zoom. split; [reflexivity|]. split.
  { unfold cullShapes. destruct (cullLoop _ _ _ _). reflexivity. }
  unfold lodLevel, Num.gtb, LOD_LOW_THRESHOLD, LOD_MEDIUM_THRESHOLD.
  destruct (Num.ltb 8 zoom) eqn:H8; destruct (Num.ltb 3 zoom) eqn:H3;
    repeat match goal with
    | H : Num.ltb _ _ = true |- _ => apply ltb_true_iff in H
    | H : Num.ltb _ _ = false |- _ => apply ltb_false_iff in H
    end;
    repeat split; intros; try discriminate; try lra.
Qed.

(* ================================================================== *)
(** ** Facts about the containers *)

Lemma has_In (k : string) (s : list string) : JsSet.has k s = true <-> In k s.
Proof.
  induction s as [|k' s IH]; simpl.
  - split; [discriminate | tauto].
  - destruct (String.eqb_spec k k') as [->|Hne].
    + split; auto.
    + rewrite IH. split; [auto | intros [H|H]; congruence].
Qed.

Lemma add_In (k k' : string) (s : list string) :
  In k (JsSet.add k' s) <-> k = k' \/ In k s.
Proof.
  unfold JsSet.add. destruct (JsSet.has k' s) eqn:H.
  - apply has_In in H. split; [auto | intros [->|?]; auto].
  - rewrite in_app_iff. simpl. split; intros [?|?]; auto.
    + destruct H0; auto. contradiction.
Qed.

Lemma ofList_acc_In (k : string) (l acc : list string) :
  In k (fold_left (fun s k' => JsSet.add k' s) l acc) <-> In k l \/ In k acc.
Proof.
  revert acc. induction l as [|a l IH]; intros acc; simpl.
  - tauto.
  - rewrite IH, add_In. split; intros H; intuition congruence.
Qed.

Lemma ofList_In (k : string) (l : list string) : In k (JsSet.ofList l) <-> In k l.
Proof. unfold JsSet.ofList. rewrite ofList_acc_In. simpl. tauto. Qed.

(* ================================================================== *)
(** ** The reconciliation loop *)

Lemma set_inScene_same (sd : ShapeData) : set_inScene (inScene sd) sd = sd.
Proof. destruct sd; reflexivity. Qed.

Lemma cullStep_entry ids lod c e : snd (cullStep ids lod c e) = reconciled ids lod e.
Proof.
  destruct e as [i sd]. cbv [cullStep reconciled wanted fst snd].
  destruct (JsSet.has i ids);
    destruct (Nat.leb 1 lod && is_line (shape sd));
    destruct (inScene sd) eqn:E; cbn [andb negb snd]; try reflexivity;
    rewrite <- E, set_inScene_same; reflexivity.
Qed.

Lemma cullLoop_entries ids lod c entries :
  snd (cullLoop ids lod c entries) = map (reconciled ids lod) entries.
Proof.
  revert c. induction entries as [|e rest IH]; intros c; simpl; [reflexivity|].
  pose proof (cullStep_entry ids lod c e) as He.
  destruct (cullStep ids lod c e) as [c1 e']. simpl in He.
  specialize (IH c1). destruct (cullLoop ids lod c1 rest) as [c2 rest'].
  simpl in *. congruence.
Qed.

(** An entry that already is as the loop wants it costs no attach and
    no detach. *)
Lemma cullStep_stable ids lod c e :
  inScene (snd e) = wanted ids lod e ->
  let r := cullStep ids lod c e in
  snd r = e /\ addedCount (fst r) = addedCount c
  /\ removedCount (fst r) = removedCount c
  /\ children (fst r) = children c /\ sceneIds (fst r) = sceneIds c.
Proof.
  destruct e as [i sd]. cbv [cullStep wanted fst snd]. intros H.
  destruct (JsSet.has i ids);
    destruct (Nat.leb 1 lod && is_line (shape sd));
    cbn [andb negb] in H; rewrite H; cbn; auto.
Qed.

Lemma cullLoop_stable ids lod entries : forall c,
  Forall (fun e => inScene (snd e) = wanted ids lod e) entries ->
  let r := cullLoop ids lod c entries in
  snd r = entries /\ addedCount (fst r) = addedCount c
  /\ removedCount (fst r) = removedCount c
  /\ children (fst r) = children c /\ sceneIds (fst r) = sceneIds c.
Proof.
  induction entries as [|e rest IH]; intros c HF; simpl; [auto|].
  inversion HF as [|? ? He Hrest]; subst.
  pose proof (cullStep_stable ids lod c e He) as Hs. simpl in Hs.
  destruct (cullStep ids lod c e) as [c1 e']. simpl in Hs.
  destruct Hs as (-> & Ha & Hr & Hc & Hi).
  specialize (IH c1 Hrest). simpl in IH.
  destruct (cullLoop ids lod c1 rest) as [c2 rest']. simpl in *.
  destruct IH as (-> & Ha2 & Hr2 & Hc2 & Hi2). repeat split; congruence.
Qed.

Lemma reconciled_stable ids lod entries :
  Forall (fun e => inScene (snd e) = wanted ids lod e) (map (reconciled ids lod) entries).
Proof.
  apply Forall_forall. intros e He. apply in_map_iff in He.
  destruct He as ([i sd] & <- & _). reflexivity.
Qed.

(** The number of candidates among the entries. *)
Lemma cullLoop_visibleCount ids lod entries : forall c,
  visibleCount (fst (cullLoop ids lod c entries))
  = (visibleCount c
     + List.length (filter (fun e => JsSet.has (fst e) ids) entries))%nat.
Proof.
  induction entries as [|e rest IH]; intros c; simpl; [lia|].
  assert (Hv : visibleCount (fst (cullStep ids lod c e))
               = (visibleCount c + if JsSet.has (fst e) ids then 1 else 0)%nat).
  { cbv [cullStep]. destruct (JsSet.has (fst e) ids);
      destruct (Nat.leb 1 lod && is_line (shape (snd e)));
      destruct (inScene (snd e)); cbn; lia. }
  destruct (cullStep ids lod c e) as [c1 e']. simpl in Hv.
  specialize (IH c1). destruct (cullLoop ids lod c1 rest) as [c2 rest'].
  simpl in *. rewrite IH, Hv. destruct (JsSet.has (fst e) ids); simpl; lia.
Qed.

(* ================================================================== *)
(** ** [cullShapes] as a whole *)

Lemma cullShapes_unfold v m :
  cullShapes v m =
  (let m0 := ensureIndex m in
   let r := cullResult v m in
   let m1 := cullHandles (cullLabels
               (with_shapesInScene
                  (with_shapesContainer (with_shapes m0 (snd r)) (children (fst r)))
                  (sceneIds (fst r)))) in
   (m1, Detail.mk (visibleCount (fst r)) (List.length (shapes m1))
          (List.length (candidates v m)) (addedCount (fst r)) (removedCount (fst r))
          (List.length (shapesContainer m1)) (skippedCount (fst r))
          (lodLevel (zoomOutFactor v)))).
Proof.
  unfold cullShapes, cullResult, candidates.
  destruct (cullLoop _ _ _ _) as [c entries]. reflexivity.
Qed.

Lemma showHandles_fields i m :
  shapes (showHandles i m) = shapes m
  /\ shapesContainer (showHandles i m) = shapesContainer m
  /\ shapesInScene (showHandles i m) = shapesInScene m
  /\ spatialIndex (showHandles i m) = spatialIndex m
  /\ labels (showHandles i m) = labels m
  /\ activeShapeId (showHandles i m) = activeShapeId m
  /\ selectedShapes (showHandles i m) = selectedShapes m.
Proof. unfold showHandles. destruct (JsMap.get i (shapes m)); simpl; auto 10. Qed.

Lemma cullHandles_cases m :
  cullHandles m = m \/ exists i, cullHandles m = showHandles i m.
Proof.
  unfold cullHandles. destruct (truthy (activeShapeId m)); [eauto|].
  destruct (selectedShapes m) as [|a [|b l]]; eauto.
Qed.

Lemma cullHandles_fields m :
  shapes (cullHandles m) = shapes m
  /\ shapesContainer (cullHandles m) = shapesContainer m
  /\ shapesInScene (cullHandles m) = shapesInScene m
  /\ spatialIndex (cullHandles m) = spatialIndex m
  /\ labels (cullHandles m) = labels m
  /\ activeShapeId (cullHandles m) = activeShapeId m
  /\ selectedShapes (cullHandles m) = selectedShapes m.
Proof.
  destruct (cullHandles_cases m) as [-> | (i & ->)]; [auto 10|].
  apply showHandles_fields.
Qed.

Lemma ensureIndex_fields m :
  shapes (ensureIndex m) = shapes m
  /\ shapesContainer (ensureIndex m) = shapesContainer m
  /\ shapesInScene (ensureIndex m) = shapesInScene m.
Proof. unfold ensureIndex. destruct (spatialIndex m); simpl; auto. Qed.

Lemma ensureIndex_built m : spatialIndex (ensureIndex m) = Some (currentIndex (ensureIndex m)).
Proof. unfold ensureIndex, currentIndex. destruct (spatialIndex m) eqn:E; simpl; rewrite ?E; reflexivity. Qed.

Lemma cullShapes_shapes v m :
  shapes (fst (cullShapes v m))
  = map (reconciled (candidates v m) (lodLevel (zoomOutFactor v))) (shapes m).
Proof.
  rewrite cullShapes_unfold. simpl.
  destruct (cullHandles_fields (cullLabels
     (with_shapesInScene
        (with_shapesContainer (with_shapes (ensureIndex m) (snd (cullResult v m)))
           (children (fst (cullResult v m)))) (sceneIds (fst (cullResult v m))))))
    as (-> & _). simpl.
  unfold cullResult. rewrite cullLoop_entries.
  destruct (ensureIndex_fields m) as (-> & _). reflexivity.
Qed.

Lemma cullShapes_index v m :
  spatialIndex (fst (cullShapes v m)) = Some (currentIndex (ensureIndex m)).
Proof.
  rewrite cullShapes_unfold. simpl.
  match goal with |- spatialIndex (cullHandles ?a) = _ =>
    destruct (cullHandles_fields a) as (_ & _ & _ & -> & _) end.
  simpl. apply ensureIndex_built.
Qed.

(** What [search] returns is in the index; an item of the index whose
    box meets the query is returned; a returned item whose box is proper
    meets the query; and an index of at most nine items is one leaf,
    every item of which is tested. *)
Lemma search_In index q item : In item (search index q) -> In item index.
Proof.
  unfold search. intros H. apply search_sound in H.
  apply load_In in H. exact H.
Qed.

Lemma search_meets index q item :
  In item index -> intersects q (bbox item) = true -> In item (search index q).
Proof.
  unfold search. intros Hin Hx. apply search_complete; [|exact Hx].
  apply load_In. exact Hin.
Qed.

Lemma search_tested index q item :
  In item (search index q) -> proper (bbox item) = true ->
  intersects q (bbox item) = true.
Proof. unfold search. intros Hin Hp. exact (search_proper _ _ _ Hin Hp). Qed.

Lemma search_small index q item :
  (List.length index <= 9)%nat ->
  In item (search index q) <-> In item index /\ intersects q (bbox item) = true.
Proof.
  intros Hlen. unfold search. rewrite load_small by exact Hlen.
  apply search_leaf.
Qed.

Lemma candidates_sound v m i :
  JsSet.has i (candidates v m) = true ->
  exists item, In item (search (currentIndex (ensureIndex m)) (bufferedBounds v))
               /\ In item (currentIndex (ensureIndex m)) /\ item_id item = i
               /\ (proper (bbox item) = true ->
                   intersects (bufferedBounds v) (bbox item) = true).
Proof.
  unfold candidates. rewrite has_In, ofList_In, in_map_iff.
  intros (item & Hid & Hin). exists item.
  split; [exact Hin|]. split; [exact (search_In _ _ _ Hin)|].
  split; [exact Hid|]. exact (search_tested _ _ _ Hin).
Qed.

Lemma candidates_complete v m i :
  (exists item, In item (currentIndex (ensureIndex m)) /\ item_id item = i
                /\ intersects (bufferedBounds v) (bbox item) = true) ->
  JsSet.has i (candidates v m) = true.
Proof.
  unfold candidates. rewrite has_In, ofList_In, in_map_iff.
  intros (item & Hin & Hid & Hx). exists item. split; [exact Hid|].
  apply search_meets; assumption.
Qed.

Lemma candidates_small v m i :
  (List.length (currentIndex (ensureIndex m)) <= 9)%nat ->
  JsSet.has i (candidates v m) = true <->
  exists item, In item (currentIndex (ensureIndex m)) /\ item_id item = i
               /\ intersects (bufferedBounds v) (bbox item) = true.
Proof.
  intros Hlen. unfold candidates. rewrite has_In, ofList_In, in_map_iff. split.
  - intros (item & Hid & Hin). apply (search_small _ _ _ Hlen) in Hin.
    exists item. tauto.
  - intros (item & Hin & Hid & Hx). exists item. split; [exact Hid|].
    apply (search_small _ _ _ Hlen). tauto.
Qed.

(* ================================================================== *)
(** ** Soundness of culling *)

Lemma buildSpatialIndex_records m :
  spatialIndex (buildSpatialIndex m)
  = Some (map (fun e => mkItem (calculateShapeBounds (shape (snd e)))
                          (shape_id (shape (snd e)))) (shapes m)).
Proof. reflexivity. Qed.

(** C1: after [cullShapes(v)] a shape whose [inScene] flag is set has an
    item under its id in the spatial index in force during the call (the
    one of the last [buildSpatialIndex], built on demand when there was
    none), and that item is among those the index returned for the
    viewport grown by the buffer; when the box of the item is proper (no
    side inverted) it meets the grown viewport; and the shape is not a
    line when the level of detail is 1 or more. *)
Theorem cullShapes_attached_sound (v : ViewportBounds) (m : ShapeManager)
  (i : string) (sd : ShapeData) :
  In (i, sd) (shapes (fst (cullShapes v m))) ->
  inScene sd = true ->
  (exists index item,
      spatialIndex (fst (cullShapes v m)) = Some index
      /\ index = currentIndex (ensureIndex m)
      /\ In item index /\ item_id item = i
      /\ In item (search index (bufferedBounds v))
      /\ (proper (bbox item) = true ->
          intersects (bufferedBounds v) (bbox item) = true))
  /\ ((1 <= lodLevel (zoomOutFactor v))%nat -> is_line (shape sd) = false).
Proof.
  intros Hin Hscene. rewrite cullShapes_shapes in Hin.
  apply in_map_iff in Hin. destruct Hin as ([i0 sd0] & Heq & _).
  unfold reconciled in Heq. simpl in Heq. inversion Heq; subst; clear Heq.
  simpl in Hscene. unfold wanted in Hscene. simpl in Hscene.
  apply andb_true_iff in Hscene. destruct Hscene as [Hcand Hlod].
  split.
  - apply candidates_sound in Hcand.
    destruct Hcand as (item & Hret & Hi & Hid & Hx).
    exists (currentIndex (ensureIndex m)), item.
    rewrite cullShapes_index. auto 6.
  - intros Hle. apply negb_true_iff, andb_false_iff in Hlod.
    destruct Hlod as [Hl | Hl]; [|exact Hl].
    destruct (lodLevel (zoomOutFactor v)); [lia | discriminate Hl].
Qed.

Lemma sample_lodLevel : lodLevel (zoomOutFactor sampleViewport) = 0%nat.
Proof.
  apply lodLevel_zero. unfold LOD_MEDIUM_THRESHOLD.
  destruct (Rle_or_lt (zoomOutFactor sampleViewport) 3) as [H|H]; [exact H|].
  apply sqrt_gt_iff in H; [|lra].
  unfold sampleViewport, BASE_AREA in H. simpl in H. lra.
Qed.

Lemma sample_candidate : JsSet.has "p" (candidates sampleViewport pointManager) = true.
Proof.
  apply candidates_complete.
  exists (mkItem (calculateShapeBounds samplePoint) "p"). split; [left; reflexivity|].
  split; [reflexivity|].
  unfold intersects, bufferedBounds, sampleViewport, BUFFER_PERCENT. simpl.
  unfold Num.xgeb, Num.xleb, Num.orElse.
  repeat (apply andb_true_iff; split); apply leb_true_iff; lra.
Qed.

(* ================================================================== *)
(** ** Idempotence of culling *)

Lemma manager_eta (m : ShapeManager) :
  mkManager (shapesContainer m) (labelsContainer m) (resizeHandlesContainer m)
    (shapes m) (labels m) (selectedShapes m) (shapesInScene m)
    (selectionChangedCallback m) (selectionEvents m) (resizeHandles m)
    (isDragging m) (dragOffset m) (isResizing m) (resizeHandleIndex m)
    (activeShapeId m) (spatialIndex m) (destroyed m) (nextGraphics m) = m.
Proof. destruct m; reflexivity. Qed.

Lemma showHandles_twice i m : showHandles i (showHandles i m) = showHandles i m.
Proof.
  unfold showHandles. destruct (JsMap.get i (shapes m)) as [sd|] eqn:E; simpl.
  - rewrite E. unfold with_resizeHandles. simpl. rewrite map_map. reflexivity.
  - rewrite E. reflexivity.
Qed.

Lemma cullHandles_twice m : cullHandles (cullHandles m) = cullHandles m.
Proof.
  destruct (cullHandles_fields m) as (Hs & _ & _ & _ & _ & Ha & Hsel).
  unfold cullHandles at 1. rewrite Ha, Hsel. unfold cullHandles.
  destruct (truthy (activeShapeId m)); [apply showHandles_twice|].
  destruct (selectedShapes m) as [|a [|b l]]; try reflexivity.
  apply showHandles_twice.
Qed.

Lemma cullLabels_twice m : cullLabels (cullLabels m) = cullLabels m.
Proof.
  unfold cullLabels, with_labels. simpl. f_equal. rewrite map_map.
  apply map_ext. intros [k t]. simpl.
  destruct (JsMap.get k (shapes m)) eqn:E; simpl; rewrite E; reflexivity.
Qed.

Lemma cullLabels_fields m :
  shapes (cullLabels m) = shapes m
  /\ shapesContainer (cullLabels m) = shapesContainer m
  /\ shapesInScene (cullLabels m) = shapesInScene m
  /\ spatialIndex (cullLabels m) = spatialIndex m.
Proof. unfold cullLabels; simpl; auto. Qed.

Lemma cullLabels_showHandles i m :
  cullLabels (showHandles i m) = showHandles i (cullLabels m).
Proof.
  unfold showHandles, cullLabels. simpl.
  destruct (JsMap.get i (shapes m)); reflexivity.
Qed.

Lemma cullLabels_cullHandles m : cullLabels (cullHandles m) = cullHandles (cullLabels m).
Proof.
  unfold cullHandles. simpl.
  destruct (truthy (activeShapeId m)); [apply cullLabels_showHandles|].
  destruct (selectedShapes m) as [|a [|b l]]; try reflexivity.
  apply cullLabels_showHandles.
Qed.

(** C2: a second [cullShapes(v)] right after the first attaches nothing,
    detaches nothing and leaves the whole manager, hence every [inScene]
    flag and the scene, as the first call left it. *)
Theorem cullShapes_idempotent (v : ViewportBounds) (m : ShapeManager) :
  let first := cullShapes v m in
  let second := cullShapes v (fst first) in
  Detail.added (snd second) = 0%nat
  /\ Detail.removed (snd second) = 0%nat
  /\ fst second = fst first
  /\ shapes (fst second) = shapes (fst first)
  /\ shapesContainer (fst second) = shapesContainer (fst first).
Proof.
  intros first second.
  assert (Hidx : ensureIndex (fst first) = fst first).
  { unfold ensureIndex. unfold first. rewrite cullShapes_index. reflexivity. }
  assert (Hcand : candidates v (fst first) = candidates v m).
  { unfold candidates. rewrite Hidx. unfold currentIndex at 1, first.
    rewrite cullShapes_index. reflexivity. }
  assert (Hstable : Forall (fun e => inScene (snd e)
                      = wanted (candidates v m) (lodLevel (zoomOutFactor v)) e)
                      (shapes (fst first))).
  { unfold first. rewrite cullShapes_shapes. apply reconciled_stable. }
  pose proof (cullLoop_stable (candidates v m) (lodLevel (zoomOutFactor v))
                (shapes (fst first))
                (mkCull 0 0 0 0 (shapesContainer (fst first))
                   (shapesInScene (fst first))) Hstable) as Hloop.
  simpl in Hloop. destruct Hloop as (Hs & Ha & Hr & Hc & Hi).
  assert (Hres : cullResult v (fst first)
                 = cullLoop (candidates v m) (lodLevel (zoomOutFactor v))
                     (mkCull 0 0 0 0 (shapesContainer (fst first))
                        (shapesInScene (fst first))) (shapes (fst first))).
  { unfold cullResult. rewrite Hidx, Hcand. reflexivity. }
  assert (Hfst : fst second = fst first).
  { unfold second. rewrite cullShapes_unfold. cbv zeta. cbn [fst].
    rewrite Hres, Hs, Hc, Hi, Hidx.
    unfold with_shapes, with_shapesContainer, with_shapesInScene. cbn.
    rewrite manager_eta.
    unfold first at 1 2. rewrite cullShapes_unfold. cbv zeta. cbn [fst].
    rewrite cullLabels_cullHandles, cullHandles_twice, cullLabels_twice.
    reflexivity. }
  split; [|split; [|split; [exact Hfst | rewrite Hfst; auto]]].
  - unfold second. rewrite cullShapes_unfold. cbv zeta. cbn [snd Detail.added].
    rewrite Hres. exact Ha.
  - unfold second. rewrite cullShapes_unfold. cbv zeta. cbn [snd Detail.removed].
    rewrite Hres. exact Hr.
Qed.

(* ================================================================== *)
(** ** Bounding boxes of shapes inside the viewport *)

Lemma extendBounds_empty c :
  extendBounds emptyBounds c
  = mkBBox (Num.Finite (x c)) (Num.Finite (y c)) (Num.Finite (x c)) (Num.Finite (y c)).
Proof. reflexivity. Qed.

Lemma extendBounds_inside v b c :
  boxInside v b -> inside v c -> boxInside v (extendBounds b c).
Proof.
  intros (x0 & y0 & x1 & y1 & -> & Hx0 & Hx1 & Hy0 & Hy1) [Hcx Hcy].
  unfold extendBounds, Num.xgtb. cbn [minX minY maxX maxY Num.xltb].
  exists (if Num.ltb (x c) x0 then x c else x0),
         (if Num.ltb (y c) y0 then y c else y0),
         (if Num.ltb x1 (x c) then x c else x1),
         (if Num.ltb y1 (y c) then y c else y1).
  split.
  - destruct (Num.ltb (x c) x0), (Num.ltb (y c) y0), (Num.ltb x1 (x c)),
      (Num.ltb y1 (y c)); reflexivity.
  - destruct (Num.ltb (x c) x0), (Num.ltb (y c) y0), (Num.ltb x1 (x c)),
      (Num.ltb y1 (y c)); repeat split; lra.
Qed.

Lemma fold_extendBounds_inside v coords : forall b,
  boxInside v b -> (forall c, In c coords -> inside v c) ->
  boxInside v (fold_left extendBounds coords b).
Proof.
  induction coords as [|c rest IH]; intros b Hb Hall; simpl; [exact Hb|].
  apply IH.
  - apply extendBounds_inside; [exact Hb | apply Hall; left; reflexivity].
  - intros c' Hc'. apply Hall. right. exact Hc'.
Qed.

Lemma boxInside_intersects v b :
  boxInside v b -> intersects (bufferedBounds v) b = true.
Proof.
  intros (x0 & y0 & x1 & y1 & -> & Hx0 & Hx1 & Hy0 & Hy1).
  unfold intersects, bufferedBounds, BUFFER_PERCENT, Num.xgeb.
  cbn [minX minY maxX maxY Num.xleb].
  repeat (apply andb_true_iff; split); apply leb_true_iff; lra.
Qed.

Lemma polygon_bounds_inside v i c coords st l :
  (forall c', In c' (c :: coords) -> inside v c') ->
  boxInside v (calculateShapeBounds (polygon i (c :: coords) st l)).
Proof.
  intros Hall. simpl. apply fold_extendBounds_inside.
  - rewrite extendBounds_empty. destruct (Hall c (or_introl eq_refl)) as [Hx Hy].
    exists (x c), (y c), (x c), (y c). repeat split; lra.
  - intros c' Hc'. apply Hall. right. exact Hc'.
Qed.

(* ================================================================== *)
(** ** The generator asked for one shape *)

Lemma ceil_positive r : 0 < r -> (0 < StressTest.ceil r)%Z.
Proof.
  intros Hr. unfold StressTest.ceil.
  destruct (base_Int_part (- r)) as [Hle _].
  assert (H : (Int_part (- r) < 0)%Z) by (apply lt_IZR; lra).
  lia.
Qed.

Section SingleShape.
Variable random : nat -> R.
Variable config : StressTest.StressTestConfig.
Hypothesis one : StressTest.targetShapeCount config = 1.

Lemma target_reached g :
  StressTest.shapeCount g = 1%nat ->
  Num.ltb (INR (StressTest.shapeCount g)) (StressTest.target config) = false
  /\ Num.geb (INR (StressTest.shapeCount g)) (StressTest.target config) = true.
Proof.
  intros ->. unfold StressTest.target. rewrite one. simpl. split.
  - apply ltb_false_iff. lra.
  - apply leb_true_iff. lra.
Qed.

Lemma blockRowLoop_done rounds bRow sx sy size cols g :
  StressTest.shapeCount g = 1%nat ->
  StressTest.blockRowLoop random config rounds bRow sx sy size cols g = g.
Proof.
  intros Hg. destruct (target_reached g Hg) as [Hlt _].
  destruct rounds; simpl; [reflexivity|]. rewrite Hlt. reflexivity.
Qed.

Lemma subArea_first :
  StressTest.subArea random config 0 0 (StressTest.mkGen [] 0 0 0)
  = StressTest.mkGen [(firstSubArea random config)] 1 1 2.
Proof.
  unfold StressTest.subArea.
  cbn [StressTest.drawn StressTest.push StressTest.out StressTest.shapeCount
       StressTest.subAreaIndex StressTest.randomCalls Nat.add app].
  rewrite blockRowLoop_done by reflexivity. reflexivity.
Qed.

Lemma generate_one :
  0 < StressTest.areaWidth config -> 0 < StressTest.areaHeight config ->
  StressTest.generateStressTestShapes random config = [(firstSubArea random config)].
Proof.
  intros Hw Hh. unfold StressTest.generateStressTestShapes.
  assert (Hrows : exists k, Z.to_nat (StressTest.subAreasPerRow config) = S k).
  { assert (H : (0 < StressTest.subAreasPerRow config)%Z).
    { apply ceil_positive. unfold StressTest.subAreaSize, Rdiv.
      apply Rmult_lt_0_compat; lra. }
    exists (Nat.pred (Z.to_nat (StressTest.subAreasPerRow config))). lia. }
  assert (Hcols : exists k, Z.to_nat (StressTest.subAreasPerCol config) = S k).
  { assert (H : (0 < StressTest.subAreasPerCol config)%Z).
    { apply ceil_positive. unfold StressTest.subAreaSize, Rdiv.
      apply Rmult_lt_0_compat; lra. }
    exists (Nat.pred (Z.to_nat (StressTest.subAreasPerCol config))). lia. }
  destruct Hrows as [k ->]. destruct Hcols as [k' Hcols].
  cbn [StressTest.rowLoop]. rewrite Hcols. cbn [StressTest.colLoop].
  rewrite subArea_first.
  destruct (target_reached (StressTest.mkGen [(firstSubArea random config)] 1 1 2) eq_refl) as [_ ->].
  rewrite (proj2 (target_reached (StressTest.mkGen [(firstSubArea random config)] 1 1 2) eq_refl)).
  reflexivity.
Qed.

End SingleShape.

(* ================================================================== *)
(** ** The metrics of a cull pass *)

Lemma cullShapes_total v m :
  Detail.total (snd (cullShapes v m)) = List.length (shapes m).
Proof.
  transitivity (List.length (shapes (fst (cullShapes v m)))).
  - rewrite cullShapes_unfold. reflexivity.
  - rewrite cullShapes_shapes. apply length_map.
Qed.

Lemma cullShapes_count v m :
  Detail.count (snd (cullShapes v m))
  = List.length (filter (fun e => JsSet.has (fst e) (candidates v m)) (shapes m)).
Proof.
  rewrite cullShapes_unfold. cbv zeta. cbn [snd Detail.count].
  unfold cullResult. rewrite cullLoop_visibleCount.
  destruct (ensureIndex_fields m) as (-> & _). reflexivity.
Qed.

Lemma loadShapes_single s :
  shapes (loadShapes [s] newShapeManager)
  = [(shape_id s,
      mkShapeData (mkGraphics 0 (createGraphics s) (shape_id s) [shape_id s]) s false)]
  /\ spatialIndex (loadShapes [s] newShapeManager)
     = Some [mkItem (calculateShapeBounds s) (shape_id s)].
Proof. split; reflexivity. Qed.

(** C7: asked for one shape over a positive area, the generator returns
    exactly one shape, the polygon of the first sub-area; once it is
    loaded, a cull pass whose viewport covers every vertex of the world
    reports [count = 1] (visible) and [total = 1]. *)
Theorem generate_single_shape_culled (random : nat -> R)
  (config : StressTest.StressTestConfig) :
  StressTest.targetShapeCount config = 1 ->
  0 < StressTest.areaWidth config ->
  0 < StressTest.areaHeight config ->
  let world := StressTest.generateStressTestShapes random config in
  List.length world = 1%nat
  /\ (exists coords st l, world = [polygon "subarea-0" coords st l])
  /\ forall v, covers v world ->
       let detail := snd (cullShapes v (loadShapes world newShapeManager)) in
       Detail.count detail = 1%nat /\ Detail.total detail = 1%nat.
Proof.
  intros Hone Hw Hh world. unfold world.
  rewrite (generate_one random config Hone Hw Hh).
  split; [reflexivity|]. split; [unfold firstSubArea; eauto|].
  intros v Hcov.
  rewrite cullShapes_total, cullShapes_count.
  destruct (loadShapes_single (firstSubArea random config)) as [-> Hindex].
  split; [|reflexivity].
  cbn [filter fst].
  assert (Hc : JsSet.has (shape_id (firstSubArea random config))
                 (candidates v (loadShapes [firstSubArea random config] newShapeManager))
               = true).
  { apply candidates_complete.
    exists (mkItem (calculateShapeBounds (firstSubArea random config))
              (shape_id (firstSubArea random config))).
    split.
    - unfold ensureIndex, currentIndex. rewrite Hindex. rewrite Hindex.
      left. reflexivity.
    - split; [reflexivity|]. apply boxInside_intersects.
      apply polygon_bounds_inside. intros c Hc.
      apply (Hcov (firstSubArea random config)); [left; reflexivity | exact Hc]. }
  rewrite Hc. reflexivity.
Qed.


(* ================================================================== *)
(** ** Facts about [Map] *)

Section MapFacts.
Variable V : Type.
Implicit Types (m : list (string * V)) (k : string) (v : V).

Lemma get_set_same k v m : JsMap.get k (JsMap.set k v m) = Some v.
Proof.
  induction m as [|[k' v'] m IH]; simpl.
  - rewrite String.eqb_refl. reflexivity.
  - destruct (String.eqb k k') eqn:E; simpl; rewrite ?String.eqb_refl, ?E; auto.
Qed.

Lemma get_set_other k k' v m : k <> k' -> JsMap.get k (JsMap.set k' v m) = JsMap.get k m.
Proof.
  intros Hne. induction m as [|[k0 v0] m IH]; simpl.
  - apply String.eqb_neq in Hne. rewrite Hne. reflexivity.
  - destruct (String.eqb k' k0) eqn:E; simpl.
    + apply String.eqb_eq in E. subst k0.
      apply String.eqb_neq in Hne. rewrite Hne. reflexivity.
    + destruct (String.eqb k k0); auto.
Qed.

Lemma get_In k v m : JsMap.get k m = Some v -> In (k, v) m.
Proof.
  induction m as [|[k' v'] m IH]; simpl; [discriminate|].
  destruct (String.eqb_spec k k') as [->|Hne].
  - intros [= ->]. auto.
  - auto.
Qed.

Lemma get_not_key k m : ~ In k (JsMap.keys m) -> JsMap.get k m = None.
Proof.
  induction m as [|[k' v'] m IH]; simpl; [reflexivity|].
  intros Hn. destruct (String.eqb_spec k k') as [->|Hne]; [tauto|].
  apply IH. tauto.
Qed.

Lemma delete_keys_subset k k' m :
  In k (JsMap.keys (JsMap.delete k' m)) -> In k (JsMap.keys m).
Proof.
  induction m as [|[k0 v0] m IH]; simpl; [tauto|].
  destruct (String.eqb k' k0); simpl; tauto.
Qed.

Lemma get_delete_same k m :
  NoDup (JsMap.keys m) -> JsMap.get k (JsMap.delete k m) = None.
Proof.
  induction m as [|[k' v'] m IH]; simpl; [reflexivity|].
  intros Hnd. inversion Hnd as [|? ? Hnotin Hnd']; subst.
  destruct (String.eqb_spec k k') as [->|Hne].
  - apply get_not_key. exact Hnotin.
  - simpl. apply String.eqb_neq in Hne. rewrite Hne. apply IH. exact Hnd'.
Qed.

End MapFacts.

(* ================================================================== *)
(** ** What the handle and notification helpers leave alone *)

Lemma destroy_fields g m :
  shapes (destroy g m) = shapes m
  /\ selectedShapes (destroy g m) = selectedShapes m
  /\ resizeHandles (destroy g m) = resizeHandles m
  /\ destroyed (destroy g m) = g :: destroyed m
  /\ shapesContainer (destroy g m) = Container.removeChild g (shapesContainer m)
  /\ nextGraphics (destroy g m) = nextGraphics m
  /\ labels (destroy g m) = labels m.
Proof. unfold destroy. simpl. auto 10. Qed.

Lemma destroyAll_fields (A : Type) (f : A -> nat) (l : list A) : forall m,
  let m' := fold_left (fun m a => destroy (f a) m) l m in
  shapes m' = shapes m /\ selectedShapes m' = selectedShapes m
  /\ resizeHandles m' = resizeHandles m
  /\ nextGraphics m' = nextGraphics m /\ labels m' = labels m
  /\ (forall g, In g (destroyed m') <-> In g (map f l) \/ In g (destroyed m))
  /\ (forall g, In g (shapesContainer m') <->
                In g (shapesContainer m) /\ ~ In g (map f l)).
Proof.
  induction l as [|a l IH]; intros m; simpl.
  - repeat split; auto; tauto.
  - specialize (IH (destroy (f a) m)). cbv zeta in IH.
    destruct (destroy_fields (f a) m) as (Hs & Hsel & Hh & Hd & Hc & Hn & Hl).
    destruct IH as (IHs & IHsel & IHh & IHn & IHl & IHd & IHc).
    rewrite Hs in IHs. rewrite Hsel in IHsel. rewrite Hh in IHh.
    rewrite Hn in IHn. rewrite Hl in IHl.
    repeat split; auto.
    + intros H. apply IHd in H. rewrite Hd in H. simpl in H. tauto.
    + intros H. apply IHd. rewrite Hd. simpl. tauto.
    + apply IHc in H. rewrite Hc in H. destruct H as [H _].
      apply in_remove in H. tauto.
    + apply IHc in H. rewrite Hc in H. destruct H as [H Hn'].
      apply in_remove in H. intros [Heq | Hin]; [symmetry in Heq|]; tauto.
    + intros [Hin Hnot]. apply IHc. rewrite Hc. split.
      * apply in_in_remove; [|exact Hin]. intros ->. tauto.
      * tauto.
Qed.

Lemma clearResizeHandles_fields m :
  shapes (clearResizeHandles m) = shapes m
  /\ selectedShapes (clearResizeHandles m) = selectedShapes m
  /\ resizeHandles (clearResizeHandles m) = []
  /\ nextGraphics (clearResizeHandles m) = nextGraphics m
  /\ labels (clearResizeHandles m) = labels m.
Proof.
  unfold clearResizeHandles. simpl.
  destruct (destroyAll_fields ResizeHandleGraphics hgid (resizeHandles m) m)
    as (Hs & Hsel & _ & Hn & Hl & _).
  simpl in *. auto.
Qed.

Lemma newHandles_fields sid ps : forall index m,
  shapes (newHandles sid ps index m) = shapes m
  /\ selectedShapes (newHandles sid ps index m) = selectedShapes m
  /\ shapesContainer (newHandles sid ps index m) = shapesContainer m
  /\ labels (newHandles sid ps index m) = labels m.
Proof.
  induction ps as [|p ps IH]; intros index m; simpl; [auto|].
  destruct (IH (S index) (newHandle sid p index m)) as (-> & -> & -> & ->).
  simpl. auto.
Qed.

Lemma createResizeHandles_fields sid m :
  shapes (createResizeHandles sid m) = shapes m
  /\ selectedShapes (createResizeHandles sid m) = selectedShapes m.
Proof.
  unfold createResizeHandles.
  destruct (clearResizeHandles_fields m) as (Hs & Hsel & _).
  destruct (JsMap.get sid (shapes (clearResizeHandles m))); [|auto].
  destruct (newHandles_fields sid (handlePositions (shape s)) 0 (clearResizeHandles m))
    as (-> & -> & _). auto.
Qed.

Lemma notifySelection_fields ids m :
  shapes (notifySelection ids m) = shapes m
  /\ selectedShapes (notifySelection ids m) = selectedShapes m
  /\ resizeHandles (notifySelection ids m) = resizeHandles m.
Proof. unfold notifySelection. destruct (selectionChangedCallback m); simpl; auto. Qed.

(* ================================================================== *)
(** ** Redrawing *)

Lemma updateShapeVisuals_get i selected m j :
  JsMap.get j (shapes (updateShapeVisuals i selected m))
  = if String.eqb j i
    then option_map (repainted selected) (JsMap.get i (shapes m))
    else JsMap.get j (shapes m).
Proof.
  unfold updateShapeVisuals.
  destruct (JsMap.get i (shapes m)) as [sd|] eqn:E; simpl.
  - destruct (String.eqb_spec j i) as [->|Hne].
    + apply get_set_same.
    + apply get_set_other. exact Hne.
  - destruct (String.eqb_spec j i) as [->|Hne]; [exact E | reflexivity].
Qed.

Lemma updateShapeVisuals_selected i selected m :
  selectedShapes (updateShapeVisuals i selected m) = selectedShapes m.
Proof. unfold updateShapeVisuals. destruct (JsMap.get i (shapes m)); reflexivity. Qed.

Lemma updateShapeVisuals_shapeAt i selected m j :
  shapeAt j (updateShapeVisuals i selected m) = shapeAt j m.
Proof.
  unfold shapeAt. rewrite updateShapeVisuals_get.
  destruct (String.eqb_spec j i) as [->|Hne]; [|reflexivity].
  destruct (JsMap.get i (shapes m)); reflexivity.
Qed.


Lemma revertAll_selected l : forall m,
  selectedShapes (fold_left (fun m s => updateShapeVisuals s false m) l m)
  = selectedShapes m.
Proof.
  induction l as [|s l IH]; intros m; simpl; [reflexivity|].
  rewrite IH. apply updateShapeVisuals_selected.
Qed.

Lemma clearPreviousSelections_spec m :
  selectedShapes (clearPreviousSelections m) = []
  /\ shapes (clearPreviousSelections m)
     = shapes (fold_left (fun m s => updateShapeVisuals s false m) (selectedShapes m) m).
Proof.
  unfold clearPreviousSelections.
  match goal with |- context [clearResizeHandles ?a] =>
    destruct (clearResizeHandles_fields a) as (-> & -> & _) end.
  simpl. auto.
Qed.

Lemma addToSelection_spec i m :
  selectedShapes (addToSelection i m) = JsSet.add i (selectedShapes m)
  /\ shapes (addToSelection i m)
     = shapes (updateShapeVisuals i true
                 (with_selectedShapes m (JsSet.add i (selectedShapes m)))).
Proof.
  unfold addToSelection.
  set (m1 := updateShapeVisuals i true
               (with_selectedShapes m (JsSet.add i (selectedShapes m)))).
  assert (Hsel : selectedShapes m1 = JsSet.add i (selectedShapes m)).
  { unfold m1. rewrite updateShapeVisuals_selected. reflexivity. }
  match goal with |- context [notifySelection ?ids ?a] =>
    destruct (notifySelection_fields ids a) as (-> & -> & _) end.
  destruct (Nat.eqb (List.length (selectedShapes m1)) 1).
  - unfold enableResize. simpl.
    destruct (createResizeHandles_fields i m1) as (-> & ->). auto.
  - destruct (clearResizeHandles_fields m1) as (-> & -> & _). auto.
Qed.

Lemma addToSelection_get i m j :
  JsMap.get j (shapes (addToSelection i m))
  = if String.eqb j i
    then option_map (repainted true) (JsMap.get i (shapes m))
    else JsMap.get j (shapes m).
Proof.
  destruct (addToSelection_spec i m) as [_ ->].
  rewrite updateShapeVisuals_get. reflexivity.
Qed.

(* ================================================================== *)
(** ** Selection is exclusive *)

Lemma selectShape_single i m :
  selectShape i false m = addToSelection i (clearPreviousSelections m).
Proof. reflexivity. Qed.




(* ================================================================== *)
(** ** Removing shapes and the resize handles *)

Lemma selectedManager_handles :
  exists h rest, resizeHandles selectedManager = h :: rest /\ shapeId h = Some "a"%string.
Proof. evaluate. eexists. eexists. split; reflexivity. Qed.

Example selectedManager_handle_positions :
  map (@position) (resizeHandles selectedManager)
  = [mkCoordinate 0 0; mkCoordinate 1 0; mkCoordinate 0 1]
  /\ map (@handleIndex) (resizeHandles selectedManager)
     = [Some 0%nat; Some 1%nat; Some 2%nat]
  /\ selectedShapes selectedManager = ["a"%string].
Proof. evaluate. repeat split; reflexivity. Qed.

Lemma removeShape_handles i m : resizeHandles (removeShape i m) = resizeHandles m.
Proof.
  unfold removeShape.
  destruct (JsMap.get i (shapes m)); simpl;
    match goal with |- context [JsMap.get i ?l] => destruct (JsMap.get i l) end;
    reflexivity.
Qed.

Lemma removeShape_selected i m : selectedShapes (removeShape i m) = selectedShapes m.
Proof.
  unfold removeShape.
  destruct (JsMap.get i (shapes m)); simpl;
    match goal with |- context [JsMap.get i ?l] => destruct (JsMap.get i l) end;
    reflexivity.
Qed.

Lemma clear_handles m : resizeHandles (clear m) = resizeHandles m.
Proof.
  unfold clear. simpl.
  match goal with |- context [fold_left ?f (labels ?a) ?a] =>
    destruct (destroyAll_fields _ (fun e : string * Text => tid (snd e)) (labels a) a)
      as (_ & _ & -> & _) end.
  destruct (destroyAll_fields _ (fun e : string * ShapeData => gid (graphics (snd e)))
              (shapes m) m) as (_ & _ & -> & _).
  reflexivity.
Qed.

Lemma clear_selected m : selectedShapes (clear m) = selectedShapes m.
Proof.
  unfold clear. simpl.
  match goal with |- context [fold_left ?f (labels ?a) ?a] =>
    destruct (destroyAll_fields _ (fun e : string * Text => tid (snd e)) (labels a) a)
      as (_ & -> & _) end.
  destruct (destroyAll_fields _ (fun e : string * ShapeData => gid (graphics (snd e)))
              (shapes m) m) as (_ & -> & _).
  reflexivity.
Qed.

(** The claim as stated fails: the triangle is selected and shows its
    handles, and after [removeShape] as well as after [clear] the
    handles that refer to it are still there. *)
Lemma handles_survive_removal :
  isSelected "a" selectedManager = true
  /\ JsMap.get "a" (shapes (removeShape "a" selectedManager)) = None
  /\ ~ noHandleFor "a" (removeShape "a" selectedManager)
  /\ ~ noHandleFor "a" (clear selectedManager).
Proof.
  destruct selectedManager_handles as (h & rest & Hh & Hid).
  split; [evaluate; reflexivity|]. split; [evaluate; reflexivity|]. split.
  - intros Hno. apply (Hno h); [|exact Hid].
    rewrite removeShape_handles, Hh. left. reflexivity.
  - intros Hno. apply (Hno h); [|exact Hid].
    rewrite clear_handles, Hh. left. reflexivity.
Qed.

(** C3, amended: [removeShape(id)] detaches and destroys the graphics of
    the shape and deletes its entry, and [clear()] does so for every
    shape; neither touches the resize handles or the selection, which
    stay as they were. *)
Theorem remove_and_clear_keep_handles (m : ShapeManager) (i : string)
  (sd : ShapeData) :
  NoDup (JsMap.keys (shapes m)) ->
  JsMap.get i (shapes m) = Some sd ->
  (JsMap.get i (shapes (removeShape i m)) = None
   /\ In (gid (graphics sd)) (destroyed (removeShape i m))
   /\ ~ In (gid (graphics sd)) (shapesContainer (removeShape i m))
   /\ resizeHandles (removeShape i m) = resizeHandles m
   /\ selectedShapes (removeShape i m) = selectedShapes m)
  /\ (shapes (clear m) = []
      /\ In (gid (graphics sd)) (destroyed (clear m))
      /\ shapesContainer (clear m) = []
      /\ resizeHandles (clear m) = resizeHandles m
      /\ selectedShapes (clear m) = selectedShapes m).
Proof.
  intros Hnd Hget. split.
  - split; [|split; [|split; [|split]]];
      [ | | | apply removeShape_handles | apply removeShape_selected].
    + unfold removeShape. rewrite Hget. simpl.
      match goal with |- context [JsMap.get i (labels ?a)] =>
        destruct (JsMap.get i (labels a)) end; simpl;
        apply get_delete_same; exact Hnd.
    + unfold removeShape. rewrite Hget. simpl.
      match goal with |- context [JsMap.get i (labels ?a)] =>
        destruct (JsMap.get i (labels a)) end; simpl; auto.
    + unfold removeShape. rewrite Hget. simpl.
      match goal with |- context [JsMap.get i (labels ?a)] =>
        destruct (JsMap.get i (labels a)) end; simpl;
        unfold Container.removeChild; intros H;
        repeat (apply in_remove in H; destruct H as [H ?]); congruence.
  - split; [reflexivity|]. split; [|split; [reflexivity|split]];
      [ | apply clear_handles | apply clear_selected].
    unfold clear. simpl.
    match goal with |- context [fold_left ?f (labels ?a) ?a] =>
      destruct (destroyAll_fields _ (fun e : string * Text => tid (snd e)) (labels a) a)
        as (_ & _ & _ & _ & _ & Hd & _) end.
    apply Hd. right.
    destruct (destroyAll_fields _ (fun e : string * ShapeData => gid (graphics (snd e)))
                (shapes m) m) as (_ & _ & _ & _ & _ & Hd' & _).
    apply Hd'. left. apply in_map_iff. exists (i, sd). split; [reflexivity|].
    apply get_In. exact Hget.
Qed.

Lemma remove_and_clear_keep_handles_witness :
  (JsMap.get "a" (shapes (removeShape "a" selectedManager)) = None
   /\ resizeHandles (removeShape "a" selectedManager) = resizeHandles selectedManager)
  /\ (shapes (clear selectedManager) = []
      /\ resizeHandles (clear selectedManager) = resizeHandles selectedManager).
Proof.
  assert (Hnd : NoDup (JsMap.keys (shapes selectedManager))).
  { evaluate. constructor; [simpl; tauto | constructor]. }
  assert (Hget : JsMap.get "a" (shapes selectedManager)
                 = Some (repainted true triangleData)) by (evaluate; reflexivity).
  destruct (remove_and_clear_keep_handles selectedManager "a"
              (repainted true triangleData) Hnd Hget)
    as ((H1 & _ & _ & H2 & _) & (H3 & _ & _ & H4 & _)).
  split; split; assumption.
Defined.

(* ================================================================== *)
(** ** Pointer gestures *)

Lemma gesture_resizing m active index :
  gesture m = ResizingVertex active index ->
  isDragging m = false /\ isResizing m = true
  /\ truthy (activeShapeId m) = Some active /\ resizeHandleIndex m = index.
Proof.
  unfold gesture.
  destruct (isDragging m), (isResizing m), (truthy (activeShapeId m));
    intros H; inversion H; auto.
Qed.

Lemma gesture_dragging m active offset :
  gesture m = Dragging active offset ->
  isDragging m = true /\ truthy (activeShapeId m) = Some active.
Proof.
  unfold gesture.
  destruct (isDragging m), (isResizing m), (truthy (activeShapeId m));
    intros H; inversion H; auto.
Qed.

Lemma updateResizeHandles_shapes i m : shapes (updateResizeHandles i m) = shapes m.
Proof. unfold updateResizeHandles. destruct (JsMap.get i (shapes m)); reflexivity. Qed.

(** The store entry of the active shape after a move that changed its
    geometry to [s]. *)
Lemma moved_shapeAt active sd s m :
  shapeAt active
    (updateResizeHandles active
       (updateShapeVisuals active true (set_shape active sd s m)))
  = Some s.
Proof.
  unfold shapeAt. rewrite updateResizeHandles_shapes.
  fold (shapeAt active (updateShapeVisuals active true (set_shape active sd s m))).
  rewrite updateShapeVisuals_shapeAt. unfold shapeAt, set_shape. simpl.
  rewrite get_set_same. reflexivity.
Qed.

(** C8: while a point shape is being resized, a pointer move returns
    normally and sets the radius to the distance between the centre and
    the pointer (in the local frame), raised to 3 when it is smaller; the
    radius is therefore at least 3. *)
Theorem resize_point_radius (toLocal : Coordinate -> Coordinate)
  (m : ShapeManager) (global : Coordinate) (active : string) (index : Z)
  (sd : ShapeData) (i : string) (c : Coordinate) (st : ShapeStyle)
  (r : option R) (l : option string) :
  gesture m = ResizingVertex active index ->
  JsMap.get active (shapes m) = Some sd ->
  shape sd = point i c st r l ->
  exists m' radius,
    handlePointerMove toLocal global m = Returned m'
    /\ shapeAt active m' = Some (point i c st (Some radius) l)
    /\ radius = Rmax 3 (distance (toLocal global) c)
    /\ 3 <= radius /\ 0 <= radius.
Proof.
  intros Hg Hget Hshape.
  apply gesture_resizing in Hg. destruct Hg as (Hd & Hr & Ha & _).
  unfold handlePointerMove. rewrite Hd, Hr, Ha, Hget, Hshape.
  cbn [resizeShape].
  eexists. exists (Rmax 3 (distance (toLocal global) c)).
  split; [reflexivity|]. split; [apply moved_shapeAt|]. split; [reflexivity|].
  pose proof (Rmax_l 3 (distance (toLocal global) c)). split; lra.
Qed.

Lemma resize_point_radius_witness :
  exists m' radius,
    handlePointerMove identity (mkCoordinate 3 4) resizingPoint = Returned m'
    /\ shapeAt "p" m' = Some (point "p" (mkCoordinate 0 0) plainStyle (Some radius) None)
    /\ radius = Rmax 3 (distance (identity (mkCoordinate 3 4)) (mkCoordinate 0 0))
    /\ 3 <= radius /\ 0 <= radius.
Proof.
  apply (resize_point_radius identity resizingPoint (mkCoordinate 3 4) "p" (-1)%Z
           lonePointData "p" (mkCoordinate 0 0) plainStyle None None).
  - evaluate. reflexivity.
  - evaluate. reflexivity.
  - reflexivity.
Defined.

(** C9: when the shape a drag or a resize refers to is no longer in the
    store, a pointer move returns normally and leaves the manager as it
    is (no geometry, no scene change), and pointer-up returns normally
    too, brings the state machine back to idle and touches neither the
    shapes nor the scene. *)
Theorem stale_gesture_is_noop (toLocal : Coordinate -> Coordinate)
  (m : ShapeManager) (global : Coordinate) (active : string) :
  (exists offset, gesture m = Dragging active offset)
  \/ (exists index, gesture m = ResizingVertex active index) ->
  JsMap.get active (shapes m) = None ->
  handlePointerMove toLocal global m = Returned m
  /\ gesture (handlePointerUp m) = Idle
  /\ isDragging (handlePointerUp m) = false
  /\ isResizing (handlePointerUp m) = false
  /\ activeShapeId (handlePointerUp m) = None
  /\ resizeHandleIndex (handlePointerUp m) = (-1)%Z
  /\ shapes (handlePointerUp m) = shapes m
  /\ shapesContainer (handlePointerUp m) = shapesContainer m
  /\ resizeHandles (handlePointerUp m) = resizeHandles m
  /\ selectedShapes (handlePointerUp m) = selectedShapes m.
Proof.
  intros Hg Hget. split; [|repeat split].
  unfold handlePointerMove. destruct Hg as [(offset & Hg) | (index & Hg)].
  - apply gesture_dragging in Hg. destruct Hg as (-> & ->). rewrite Hget. reflexivity.
  - apply gesture_resizing in Hg. destruct Hg as (-> & -> & -> & _).
    rewrite Hget. reflexivity.
Qed.

Lemma stale_gesture_is_noop_witness :
  handlePointerMove identity (mkCoordinate 3 4) staleDrag = Returned staleDrag
  /\ gesture (handlePointerUp staleDrag) = Idle.
Proof.
  assert (Hg : (exists offset, gesture staleDrag = Dragging "gone" offset)
               \/ (exists index, gesture staleDrag = ResizingVertex "gone" index)).
  { left. exists (mkCoordinate 0 0). evaluate. reflexivity. }
  assert (Hget : JsMap.get "gone" (shapes staleDrag) = None) by reflexivity.
  destruct (stale_gesture_is_noop identity staleDrag (mkCoordinate 3 4) "gone" Hg Hget)
    as (Hmove & Hup & _).
  split; assumption.
Defined.

(* ================================================================== *)
(** ** The importer and nodes without enough geometry *)

(** C4, on [src/utils/jsonParser.ts]: the importer without input checks
    does not skip a block whose coordinate list is empty; for the sample
    document it returns a polygon with id [block-b1] and no vertex, next
    to the shapes of the sub-area and of the sibling block. *)
Theorem unchecked_importer_keeps_empty_block :
  JsonParser.parseIrrigationProject sampleProject
  = Some [polygon "subarea-s1" squareCoordinates Json.subAreaStyle
            (Some "SubArea 1"%string);
          polygon "block-b1" [] (Json.blockStyle None) (Some "Block 1"%string);
          polygon "block-b2" squareCoordinates (Json.blockStyle None)
            (Some "Block 2"%string)]
  /\ ~ enoughGeometry
         (polygon "block-b1" [] (Json.blockStyle None) (Some "Block 1"%string)).
Proof.
  split.
  - evaluate. reflexivity.
  - simpl. lia.
Qed.

(** The revision with input checks skips that block and keeps its
    sibling. *)
Lemma checked_importer_skips_empty_block :
  JsonParserChecked.parseIrrigationProject sampleProject
  = [polygon "subarea-s1" squareCoordinates Json.subAreaStyle
       (Some "SubArea 1"%string);
     polygon "block-b2" squareCoordinates (Json.blockStyle None)
       (Some "Block 2"%string)].
Proof. evaluate. reflexivity. Qed.

Lemma checked_lateral_enough blockId snapshot lateral s :
  In s (JsonParserChecked.parseLateral blockId snapshot lateral) -> enoughGeometry s.
Proof.
  unfold JsonParserChecked.parseLateral.
  destruct lateral as [lat|]; [|intros []].
  destruct (Json.Layout lat) as [[|c0 [|c1 rest]]|]; try (intros []).
  destruct (Nat.ltb_spec
              (List.length (JsonParserChecked.usable (c0 :: c1 :: rest))) 2)
    as [Hlt|Hge]; [intros []|].
  intros [<- | []]. exact Hge.
Qed.

Lemma checked_block_enough block s :
  In s (JsonParserChecked.parseBlock block) -> enoughGeometry s.
Proof.
  unfold JsonParserChecked.parseBlock.
  destruct block as [b|]; [|intros []].
  destruct (Json.BlockCoordinates b) as [[|c0 [|c1 [|c2 rest]]]|]; try (intros []).
  destruct (Nat.ltb_spec
              (List.length (JsonParserChecked.usable (c0 :: c1 :: c2 :: rest))) 3)
    as [Hlt|Hge]; [intros []|].
  intros [<- | Hin]; [exact Hge|].
  destruct (Json.Laterals b) as [laterals|]; [|destruct Hin].
  apply in_flat_map in Hin. destruct Hin as (lat & _ & Hin).
  apply checked_lateral_enough in Hin. exact Hin.
Qed.

Lemma checked_subArea_enough subArea s :
  In s (JsonParserChecked.parseSubArea subArea) -> enoughGeometry s.
Proof.
  unfold JsonParserChecked.parseSubArea.
  destruct subArea as [a|]; [|intros []].
  destruct (Json.Coordinates a) as [[|c0 [|c1 [|c2 rest]]]|]; try (intros []).
  destruct (Nat.ltb_spec
              (List.length (JsonParserChecked.usable (c0 :: c1 :: c2 :: rest))) 3)
    as [Hlt|Hge]; [intros []|].
  intros [<- | Hin]; [exact Hge|].
  destruct (Json.Blocks a) as [blocks|]; [|destruct Hin].
  apply in_flat_map in Hin. destruct Hin as (b & _ & Hin).
  apply checked_block_enough in Hin. exact Hin.
Qed.

(** The revision with input checks never fails and emits only shapes
    with enough usable points; a block with fewer than three usable
    points contributes nothing, whatever its siblings are. *)
Lemma checked_importer_enough json s :
  In s (JsonParserChecked.parseIrrigationProject json) -> enoughGeometry s.
Proof.
  unfold JsonParserChecked.parseIrrigationProject.
  destruct json as [[[subAreas|]]|]; try (intros []).
  intros Hin. apply in_flat_map in Hin. destruct Hin as (a & _ & Hin).
  apply checked_subArea_enough in Hin. exact Hin.
Qed.

Lemma checked_block_skipped (b : Json.Block) coords :
  Json.BlockCoordinates b = Some coords ->
  (List.length (JsonParserChecked.usable coords) < 3)%nat ->
  JsonParserChecked.parseBlock (Some b) = [].
Proof.
  intros Hc Hlt. unfold JsonParserChecked.parseBlock. rewrite Hc.
  destruct coords as [|c0 [|c1 [|c2 rest]]]; try reflexivity.
  apply Nat.ltb_lt in Hlt. rewrite Hlt. reflexivity.
Qed.

(** Whenever the importer without input checks returns, a block has put
    its polygon into the list, however few points it has. *)
Lemma unchecked_block_never_skipped (b : Json.Block) shapes :
  JsonParser.parseBlock (Some b) = Some shapes ->
  exists coordinates lines,
    shapes = polygon ("block-" ++ Json.BlockId b) coordinates
               (Json.blockStyle (Json.ExternalSnapshot_ b))
               (Some ("Block " ++ Num.toString (Json.BlockNumber b))%string)
             :: lines.
Proof.
  unfold JsonParser.parseBlock.
  destruct (Json.BlockCoordinates b) as [coords|]; [|discriminate].
  destruct (Json.Laterals b) as [laterals|]; [|discriminate].
  destruct (JsonParser.mapAll JsonParser.coordsArrayToCoordinate coords)
    as [coordinates|]; [|discriminate].
  destruct (JsonParser.forEach _ laterals) as [lines|]; [|discriminate].
  intros [= <-]. eauto.
Qed.

(* ================================================================== *)
(** ** The scene invariant: changes that do not matter *)

Lemma skeleton_ids l : map entryId l = map (fun t => snd (fst t)) (skeleton l).
Proof. unfold skeleton. rewrite map_map. reflexivity. Qed.

Lemma skeleton_In l i sd :
  In (i, sd) l -> In (i, gid (graphics sd), inScene sd) (skeleton l).
Proof.
  intros H. unfold skeleton. apply in_map_iff. exists (i, sd). auto.
Qed.

Lemma skeleton_In_inv l i g b :
  In (i, g, b) (skeleton l) ->
  exists sd, In (i, sd) l /\ gid (graphics sd) = g /\ inScene sd = b.
Proof.
  unfold skeleton. intros H. apply in_map_iff in H.
  destruct H as ([k sd] & Heq & Hin). unfold entryId in Heq. simpl in Heq.
  inversion Heq; subst. eauto.
Qed.

Lemma frame_refl m : frame m m.
Proof. unfold frame. auto. Qed.

Lemma frame_trans m1 m2 m3 : frame m1 m2 -> frame m2 m3 -> frame m1 m3.
Proof.
  unfold frame. intros (A1 & B1 & C1 & D1 & E1) (A2 & B2 & C2 & D2 & E2).
  repeat split; try congruence. auto.
Qed.

Lemma frame_storeIds m m' : frame m m' -> storeIds m' = storeIds m.
Proof.
  intros (Hs & _). unfold storeIds. rewrite !skeleton_ids, Hs. reflexivity.
Qed.

Lemma frame_entries m m' i sd' :
  frame m m' -> In (i, sd') (shapes m') ->
  exists sd, In (i, sd) (shapes m)
             /\ gid (graphics sd) = gid (graphics sd') /\ inScene sd = inScene sd'.
Proof.
  intros (Hs & _) Hin. apply skeleton_In in Hin. rewrite Hs in Hin.
  apply skeleton_In_inv in Hin. exact Hin.
Qed.

Lemma frame_wellFormed m m' : frame m m' -> WellFormed m -> WellFormed m'.
Proof.
  intros Hf Hwf. pose proof (frame_storeIds m m' Hf) as Hids.
  pose proof Hf as (Hs & Hc & Hn & Hh & Hl).
  destruct Hwf as [F D C H L S]. constructor.
  - rewrite Hids, Hn. exact F.
  - rewrite Hids. exact D.
  - rewrite Hc, Hn. exact C.
  - rewrite Hh, Hids, Hn. exact H.
  - auto.
  - intros i sd' Hin. destruct (frame_entries m m' i sd' Hf Hin) as (sd & Hin0 & Hg & Hb).
    unfold attached. rewrite Hc, <- Hg, <- Hb. apply (S i sd Hin0).
Qed.

Lemma frame_flagsKept m m' : frame m m' -> flagsKept m m'.
Proof.
  intros Hf. split.
  - destruct Hf as (_ & _ & -> & _). lia.
  - intros i sd' Hin. left. apply (frame_entries m m' i sd' Hf Hin).
Qed.

Lemma frame_preserves m m' : frame m m' -> preserves m m'.
Proof.
  intros Hf. split; [apply frame_wellFormed | apply frame_flagsKept]; exact Hf.
Qed.

Lemma flagsKept_trans m1 m2 m3 :
  flagsKept m1 m2 -> flagsKept m2 m3 -> flagsKept m1 m3.
Proof.
  intros [Hn1 H1] [Hn2 H2]. split; [lia|].
  intros i sd3 Hin. destruct (H2 i sd3 Hin) as [(sd2 & Hin2 & Hg & Hb) | [Hb Hg]].
  - destruct (H1 i sd2 Hin2) as [(sd1 & Hin1 & Hg1 & Hb1) | [Hb1 Hg1]].
    + left. exists sd1. repeat split; congruence.
    + right. split; [congruence | lia].
  - right. split; [exact Hb | lia].
Qed.

Lemma preserves_refl m : preserves m m.
Proof. apply frame_preserves, frame_refl. Qed.

Lemma preserves_trans m1 m2 m3 : preserves m1 m2 -> preserves m2 m3 -> preserves m1 m3.
Proof.
  intros [W1 K1] [W2 K2]. split; [auto | eapply flagsKept_trans; eauto].
Qed.

Lemma skeleton_set i v l sd :
  JsMap.get i l = Some sd ->
  gid (graphics v) = gid (graphics sd) -> inScene v = inScene sd ->
  skeleton (JsMap.set i v l) = skeleton l.
Proof.
  intros Hget Hg Hb. induction l as [|[k v0] l IH]; simpl in *; [discriminate|].
  destruct (String.eqb_spec i k) as [->|Hne].
  - inversion Hget; subst. simpl. unfold entryId. simpl. rewrite Hg, Hb. reflexivity.
  - simpl. rewrite IH by exact Hget. reflexivity.
Qed.

Ltac frame_fields := unfold frame; simpl; repeat split; auto.

Lemma frame_updateShapeVisuals i selected m : frame m (updateShapeVisuals i selected m).
Proof.
  unfold updateShapeVisuals. destruct (JsMap.get i (shapes m)) as [sd|] eqn:E;
    [|apply frame_refl].
  frame_fields. apply (skeleton_set i _ (shapes m) sd E); reflexivity.
Qed.

Lemma frame_set_shape i sd s m :
  JsMap.get i (shapes m) = Some sd -> frame m (set_shape i sd s m).
Proof.
  intros E. frame_fields. apply (skeleton_set i _ (shapes m) sd E); reflexivity.
Qed.

Lemma repositionHandles_ids ps : forall hs,
  map (@hgid) (repositionHandles ps hs) = map (@hgid) hs.
Proof.
  induction ps as [|p ps IH]; intros [|h hs]; simpl; try reflexivity.
  rewrite IH. reflexivity.
Qed.

Lemma frame_updateResizeHandles i m : frame m (updateResizeHandles i m).
Proof.
  unfold updateResizeHandles. destruct (JsMap.get i (shapes m)); [|apply frame_refl].
  frame_fields. unfold handleIds. simpl. apply repositionHandles_ids.
Qed.

Lemma frame_enableResize m : frame m (enableResize m).
Proof.
  frame_fields. unfold handleIds. simpl. rewrite map_map. reflexivity.
Qed.

Lemma frame_notifySelection ids m : frame m (notifySelection ids m).
Proof.
  unfold notifySelection. destruct (selectionChangedCallback m);
    [frame_fields | apply frame_refl].
Qed.

Lemma frame_showHandles i m : frame m (showHandles i m).
Proof.
  unfold showHandles. destruct (JsMap.get i (shapes m)); [|apply frame_refl].
  frame_fields. unfold handleIds. simpl. rewrite map_map. reflexivity.
Qed.

Lemma frame_cullHandles m : frame m (cullHandles m).
Proof.
  destruct (cullHandles_cases m) as [-> | (i & ->)];
    [apply frame_refl | apply frame_showHandles].
Qed.

Lemma frame_cullLabels m : frame m (cullLabels m).
Proof. frame_fields. intros ->. reflexivity. Qed.

Lemma frame_ensureIndex m : frame m (ensureIndex m).
Proof.
  unfold ensureIndex. destruct (spatialIndex m); [apply frame_refl | frame_fields].
Qed.

Lemma frame_enableDragAndDrop i g m : frame m (enableDragAndDrop i g m).
Proof.
  frame_fields. unfold skeleton. rewrite map_map. apply map_ext.
  intros [k sd]. simpl. destruct (Nat.eqb (gid (graphics sd)) g); reflexivity.
Qed.

Lemma frame_handlePointerUp m : frame m (handlePointerUp m).
Proof. frame_fields. Qed.

Lemma frame_resizePointerDown h m : frame m (resizePointerDown h m).
Proof. frame_fields. Qed.

Lemma frame_dragPointerDown toLocal i g global m :
  frame m (state_of (dragPointerDown toLocal i g global m)).
Proof.
  unfold dragPointerDown.
  destruct (isSelected i m && Container.hasChild g (shapesContainer m));
    [|apply frame_refl].
  cbn [shapes with_activeShapeId with_isDragging].
  destruct (JsMap.get i (shapes m)) as [sd|]; [|frame_fields].
  match goal with |- context [match ?r with Some _ => _ | None => _ end] =>
    destruct r end; frame_fields.
Qed.

Lemma frame_handlePointerMove toLocal global m :
  frame m (state_of (handlePointerMove toLocal global m)).
Proof.
  unfold handlePointerMove.
  destruct (isDragging m), (isResizing m), (truthy (activeShapeId m)) as [active|];
    try apply frame_refl;
    (destruct (JsMap.get active (shapes m)) as [sd|] eqn:E; [|apply frame_refl]);
    match goal with |- context [match ?r with Some _ => _ | None => _ end] =>
      destruct r as [s|] end; try apply frame_refl; simpl;
    (eapply frame_trans; [|apply frame_updateResizeHandles]);
    (eapply frame_trans; [|apply frame_updateShapeVisuals]);
    apply frame_set_shape; exact E.
Qed.

(* ================================================================== *)
(** ** The scene invariant: handles *)

Lemma sameShapes_flagsKept m m' :
  shapes m' = shapes m -> (nextGraphics m <= nextGraphics m')%nat -> flagsKept m m'.
Proof.
  intros Hs Hn. split; [exact Hn|]. intros i sd' Hin. left. exists sd'.
  rewrite <- Hs. auto.
Qed.

Lemma clearResizeHandles_scene m g :
  In g (shapesContainer (clearResizeHandles m))
  <-> In g (shapesContainer m) /\ ~ In g (handleIds m).
Proof.
  unfold clearResizeHandles. simpl.
  destruct (destroyAll_fields ResizeHandleGraphics hgid (resizeHandles m) m)
    as (_ & _ & _ & _ & _ & _ & Hc).
  apply Hc.
Qed.

Lemma preserves_clearResizeHandles m : preserves m (clearResizeHandles m).
Proof.
  destruct (clearResizeHandles_fields m) as (Hs & _ & Hh & Hn & Hl).
  split.
  - intros [F D C H L S]. constructor.
    + unfold storeIds. rewrite Hs, Hn. exact F.
    + unfold storeIds. rewrite Hs. exact D.
    + intros g Hg. apply clearResizeHandles_scene in Hg. rewrite Hn. apply C, Hg.
    + unfold handleIds. rewrite Hh. intros g [].
    + congruence.
    + intros i sd Hin. rewrite Hs in Hin. unfold attached.
      rewrite clearResizeHandles_scene. specialize (S i sd Hin). unfold attached in S.
      rewrite S. split; [|tauto]. intros Hc. split; [exact Hc|].
      intros Hh'. apply H in Hh'. destruct Hh' as [_ Hno]. apply Hno.
      unfold storeIds. apply in_map_iff. exists (i, sd). auto.
  - apply sameShapes_flagsKept; [exact Hs | lia].
Qed.

Lemma preserves_newHandle sid p index m : preserves m (newHandle sid p index m).
Proof.
  split.
  - intros [F D C H L S]. constructor; simpl; auto.
    + intros g Hg. specialize (F g Hg). simpl. lia.
    + intros g Hg. specialize (C g Hg). lia.
    + unfold handleIds. simpl. rewrite map_app. simpl. intros g Hg.
      apply in_app_iff in Hg. destruct Hg as [Hg | [<- | []]].
      * destruct (H g Hg) as [Hlt Hno]. split; [lia | exact Hno].
      * split; [lia|]. intros Hin. specialize (F _ Hin). lia.
  - apply sameShapes_flagsKept; simpl; [reflexivity | lia].
Qed.

Lemma preserves_newHandles sid ps : forall index m,
  preserves m (newHandles sid ps index m).
Proof.
  induction ps as [|p ps IH]; intros index m; simpl; [apply preserves_refl|].
  eapply preserves_trans; [apply preserves_newHandle | apply IH].
Qed.

Lemma preserves_createResizeHandles sid m : preserves m (createResizeHandles sid m).
Proof.
  unfold createResizeHandles.
  destruct (JsMap.get sid (shapes (clearResizeHandles m)));
    [|apply preserves_clearResizeHandles].
  eapply preserves_trans; [apply preserves_clearResizeHandles|].
  apply preserves_newHandles.
Qed.

(* ================================================================== *)
(** ** The scene invariant: selection *)

Lemma frame_revertAll l : forall m,
  frame m (fold_left (fun m s => updateShapeVisuals s false m) l m).
Proof.
  induction l as [|s l IH]; intros m; simpl; [apply frame_refl|].
  eapply frame_trans; [apply frame_updateShapeVisuals | apply IH].
Qed.

Lemma frame_with_selectedShapes m v : frame m (with_selectedShapes m v).
Proof. frame_fields. Qed.

Lemma preserves_clearPreviousSelections m : preserves m (clearPreviousSelections m).
Proof.
  unfold clearPreviousSelections.
  eapply preserves_trans; [|apply preserves_clearResizeHandles].
  apply frame_preserves.
  eapply frame_trans; [apply frame_revertAll | apply frame_with_selectedShapes].
Qed.

Lemma preserves_addToSelection i m : preserves m (addToSelection i m).
Proof.
  unfold addToSelection.
  eapply preserves_trans; [|apply frame_preserves, frame_notifySelection].
  eapply preserves_trans.
  { apply frame_preserves. eapply frame_trans;
      [apply frame_with_selectedShapes | apply frame_updateShapeVisuals]. }
  match goal with |- context [if ?b then _ else _] => destruct b end.
  - eapply preserves_trans; [apply preserves_createResizeHandles|].
    apply frame_preserves, frame_enableResize.
  - apply preserves_clearResizeHandles.
Qed.

Lemma preserves_selectShape i multiSelect m : preserves m (selectShape i multiSelect m).
Proof.
  unfold selectShape. destruct multiSelect.
  - apply preserves_addToSelection.
  - eapply preserves_trans;
      [apply preserves_clearPreviousSelections | apply preserves_addToSelection].
Qed.

Lemma preserves_deselectShape i m : preserves m (deselectShape i m).
Proof.
  unfold deselectShape. destruct (JsSet.has i (selectedShapes m));
    [|apply preserves_refl].
  eapply preserves_trans; [|apply frame_preserves, frame_notifySelection].
  eapply preserves_trans.
  { apply frame_preserves. eapply frame_trans;
      [apply frame_with_selectedShapes | apply frame_updateShapeVisuals]. }
  match goal with |- context [match ?l with [] => _ | _ :: _ => _ end] =>
    destruct l as [|r [|r' l']] end;
    try apply preserves_clearResizeHandles.
  eapply preserves_trans; [apply preserves_createResizeHandles|].
  apply frame_preserves, frame_enableResize.
Qed.

Lemma preserves_clearSelection m : preserves m (clearSelection m).
Proof.
  unfold clearSelection.
  eapply preserves_trans; [apply preserves_clearPreviousSelections|].
  apply frame_preserves, frame_notifySelection.
Qed.

(* ================================================================== *)
(** ** The scene invariant: adding and removing shapes *)

Lemma set_In (V : Type) k (v : V) l e :
  In e (JsMap.set k v l) -> e = (k, v) \/ In e l.
Proof.
  induction l as [|[k' v'] l IH]; simpl.
  - intros [<- | []]. auto.
  - destruct (String.eqb k k'); simpl; intros [<- | H]; auto.
    destruct (IH H); auto.
Qed.

Lemma delete_In (V : Type) k l (e : string * V) : In e (JsMap.delete k l) -> In e l.
Proof.
  induction l as [|[k' v'] l IH]; simpl; [tauto|].
  destruct (String.eqb k k'); simpl; [auto | intros [<- | H]; auto].
Qed.

Lemma set_distinct k v l :
  NoDup (map entryId l) -> ~ In (entryId (k, v)) (map entryId l) ->
  NoDup (map entryId (JsMap.set k v l)).
Proof.
  induction l as [|[k' v'] l IH]; simpl; intros Hnd Hno.
  - constructor; [tauto | constructor].
  - inversion Hnd as [|? ? Hnotin Hnd']; subst.
    destruct (String.eqb k k'); simpl.
    + constructor; [tauto | exact Hnd'].
    + constructor; [|apply IH; tauto].
      intros Hin. apply in_map_iff in Hin. destruct Hin as (e & He & Hin).
      apply set_In in Hin. destruct Hin as [-> | Hin].
      * apply Hno. left. symmetry. exact He.
      * apply Hnotin. rewrite <- He. apply in_map. exact Hin.
Qed.

Lemma delete_distinct k l :
  NoDup (map entryId l) -> NoDup (map entryId (JsMap.delete k l)).
Proof.
  induction l as [|[k' v'] l IH]; simpl; intros Hnd; [constructor|].
  inversion Hnd as [|? ? Hnotin Hnd']; subst.
  destruct (String.eqb k k'); simpl; [exact Hnd'|].
  constructor; [|apply IH; exact Hnd'].
  intros Hin. apply Hnotin. apply in_map_iff in Hin.
  destruct Hin as (e & He & Hin). rewrite <- He. apply in_map.
  apply delete_In in Hin. exact Hin.
Qed.

Lemma delete_other_id k l sd e :
  JsMap.get k l = Some sd -> NoDup (map entryId l) ->
  In e (JsMap.delete k l) -> entryId e <> gid (graphics sd).
Proof.
  induction l as [|[k' v'] l IH]; simpl; [discriminate|].
  intros Hget Hnd Hin. inversion Hnd as [|? ? Hnotin Hnd']; subst.
  destruct (String.eqb k k').
  - inversion Hget; subst. intros Heq. apply Hnotin.
    unfold entryId at 1. simpl. rewrite <- Heq. apply in_map. exact Hin.
  - destruct Hin as [<- | Hin].
    + intros Heq. apply Hnotin. apply get_In in Hget.
      change (entryId (k', v')) with (gid (graphics v')).
      unfold entryId in Heq. simpl in Heq. rewrite Heq.
      change (gid (graphics sd)) with (entryId (k, sd)). apply in_map. exact Hget.
    + apply IH; assumption.
Qed.

Lemma addShape_entry s m :
  JsMap.get (shape_id s) (shapes (fst (addShape s m)))
  = Some (mkShapeData (snd (addShape s m)) s false)
  /\ gid (snd (addShape s m)) = nextGraphics m.
Proof. unfold addShape. simpl. split; [apply get_set_same | reflexivity]. Qed.

Lemma preserves_addShape s m : preserves m (fst (addShape s m)).
Proof.
  unfold addShape. cbn [fst]. split.
  - intros [F D C H L S]. constructor; simpl.
    + intros g Hg. unfold storeIds in Hg. simpl in Hg. apply in_map_iff in Hg.
      destruct Hg as (e & <- & Hin). apply set_In in Hin. destruct Hin as [-> | Hin].
      * unfold entryId. simpl. lia.
      * assert (entryId e < nextGraphics m)%nat; [|lia].
        apply F. unfold storeIds. apply in_map. exact Hin.
    + unfold storeIds. simpl. apply set_distinct; [exact D|].
      unfold entryId at 1. simpl. intros Hin. apply F in Hin. lia.
    + intros g Hg. specialize (C g Hg). lia.
    + intros g Hg. destruct (H g Hg) as [Hlt Hno]. split; [lia|].
      unfold storeIds. simpl. intros Hin. apply in_map_iff in Hin.
      destruct Hin as (e & He & Hin). apply set_In in Hin.
      destruct Hin as [-> | Hin].
      * unfold entryId in He. simpl in He. lia.
      * apply Hno. unfold storeIds. rewrite <- He. apply in_map. exact Hin.
    + exact L.
    + intros i sd Hin. simpl in Hin. apply set_In in Hin. unfold attached. simpl.
      destruct Hin as [Heq | Hin].
      * inversion Heq; subst. simpl. split; [discriminate|].
        intros Hc. apply C in Hc. lia.
      * apply (S i sd Hin).
  - split; simpl; [lia|]. intros i sd' Hin. apply set_In in Hin.
    destruct Hin as [Heq | Hin].
    + right. inversion Heq; subst. simpl. split; [reflexivity | lia].
    + left. exists sd'. auto.
Qed.

Lemma preserves_createNew s m : preserves m (fst (createNew s m)).
Proof.
  unfold createNew.
  pose proof (preserves_addShape s m) as Hadd.
  destruct (addShape s m) as [m1 g]. cbn [fst] in *.
  eapply preserves_trans; [exact Hadd|].
  apply frame_preserves, frame_enableDragAndDrop.
Qed.

Lemma removeShape_shapes i m :
  shapes (removeShape i m)
  = match JsMap.get i (shapes m) with
    | Some _ => JsMap.delete i (shapes m)
    | None => shapes m
    end
  /\ nextGraphics (removeShape i m) = nextGraphics m.
Proof.
  unfold removeShape.
  destruct (JsMap.get i (shapes m)); simpl;
    match goal with |- context [JsMap.get i ?l] => destruct (JsMap.get i l) end;
    simpl; auto.
Qed.

Lemma preserves_removeShape i m : preserves m (removeShape i m).
Proof.
  split.
  - intros [F D C H L S]. unfold removeShape.
    destruct (JsMap.get i (shapes m)) as [sd|] eqn:E; simpl; rewrite L; simpl;
      [|constructor; assumption].
    constructor; simpl.
    + intros g Hg. apply F. unfold storeIds in *. simpl in Hg.
      apply in_map_iff in Hg. destruct Hg as (e & <- & Hin).
      apply in_map. apply delete_In in Hin. exact Hin.
    + unfold storeIds. simpl. apply delete_distinct. exact D.
    + intros g Hg. unfold Container.removeChild in Hg.
      apply in_remove in Hg. destruct Hg as [Hg _].
      apply in_remove in Hg. destruct Hg as [Hg _]. apply C. exact Hg.
    + intros g Hg. destruct (H g Hg) as [Hlt Hno]. split; [exact Hlt|].
      intros Hin. apply Hno. unfold storeIds in *. simpl in Hin.
      apply in_map_iff in Hin. destruct Hin as (e & <- & Hin).
      apply in_map. apply delete_In in Hin. exact Hin.
    + exact L.
    + intros k sd' Hin. simpl in Hin. unfold attached. simpl.
      pose proof (delete_other_id i (shapes m) sd (k, sd') E D Hin) as Hne.
      unfold entryId in Hne. simpl in Hne.
      apply delete_In in Hin. specialize (S k sd' Hin). unfold attached in S.
      rewrite S. unfold Container.removeChild. split.
      * intros Hc. apply in_in_remove; [exact Hne|].
        apply in_in_remove; [exact Hne | exact Hc].
      * intros Hc. apply in_remove in Hc. destruct Hc as [Hc _].
        apply in_remove in Hc. tauto.
  - destruct (removeShape_shapes i m) as [Hs Hn]. split; [lia|].
    intros k sd' Hin. left. exists sd'. rewrite Hs in Hin.
    destruct (JsMap.get i (shapes m)); [apply delete_In in Hin|]; auto.
Qed.

Lemma clear_next m : nextGraphics (clear m) = nextGraphics m.
Proof.
  unfold clear. simpl.
  match goal with |- context [fold_left ?f (labels ?a) ?a] =>
    destruct (destroyAll_fields _ (fun e : string * Text => tid (snd e)) (labels a) a)
      as (_ & _ & _ & -> & _) end.
  destruct (destroyAll_fields _ (fun e : string * ShapeData => gid (graphics (snd e)))
              (shapes m) m) as (_ & _ & _ & -> & _).
  reflexivity.
Qed.

Lemma preserves_clear m : preserves m (clear m).
Proof.
  split.
  - intros [F D C H L S]. constructor.
    + intros g [].
    + constructor.
    + intros g [].
    + unfold handleIds. rewrite clear_handles, clear_next. intros g Hg.
      split; [apply (H g Hg) | intros []].
    + reflexivity.
    + intros i sd [].
  - split; [rewrite clear_next; lia | intros i sd' []].
Qed.

(* ================================================================== *)
(** ** The scene invariant: culling *)

Lemma removeChild_In g g' c :
  In g' (Container.removeChild g c) <-> In g' c /\ g' <> g.
Proof.
  unfold Container.removeChild. split.
  - intros H. apply in_remove in H. exact H.
  - intros [H Hne]. apply in_in_remove; assumption.
Qed.

Lemma addChild_In g g' c : In g' (Container.addChild g c) <-> g' = g \/ In g' c.
Proof.
  unfold Container.addChild. rewrite in_app_iff, removeChild_In. simpl.
  destruct (Nat.eq_dec g' g) as [->|Hne]; intuition congruence.
Qed.

Lemma cullStep_scene ids lod c e :
  let r := cullStep ids lod c e in
  (forall g, g <> entryId e -> (In g (children (fst r)) <-> In g (children c)))
  /\ (consistentWith (children c) e -> consistentWith (children (fst r)) (snd r))
  /\ entryId (snd r) = entryId e.
Proof.
  destruct e as [i sd]. unfold consistentWith, entryId.
  cbv [cullStep fst snd].
  destruct (JsSet.has i ids);
    destruct (Nat.leb 1 lod && is_line (shape sd));
    destruct (inScene sd) eqn:E;
    cbn [negb fst snd children inScene graphics set_inScene];
    (split; [intros g Hne | split; [intros Hc | reflexivity]]);
    rewrite ?removeChild_In, ?addChild_In, ?E in *;
    intuition congruence.
Qed.

Lemma cullLoop_scene ids lod entries : forall c,
  NoDup (map entryId entries) ->
  let r := cullLoop ids lod c entries in
  (forall g, ~ In g (map entryId entries) ->
             (In g (children (fst r)) <-> In g (children c)))
  /\ (Forall (consistentWith (children c)) entries ->
      Forall (consistentWith (children (fst r))) (snd r))
  /\ map entryId (snd r) = map entryId entries.
Proof.
  induction entries as [|e rest IH]; intros c Hnd; simpl.
  - repeat split; auto; tauto.
  - inversion Hnd as [|? ? Hnotin Hnd']; subst.
    pose proof (cullStep_scene ids lod c e) as Hstep. cbv zeta in Hstep.
    destruct (cullStep ids lod c e) as [c1 e']. cbn [fst snd] in Hstep.
    destruct Hstep as (Hother & Hself & Hid).
    specialize (IH c1 Hnd'). cbv zeta in IH.
    destruct (cullLoop ids lod c1 rest) as [c2 rest']. cbn [fst snd] in *.
    destruct IH as (IHother & IHall & IHids).
    split; [|split].
    + intros g Hg. rewrite IHother by tauto. apply Hother. intros ->. tauto.
    + intros HF. inversion HF as [|? ? He Hrest]; subst. constructor.
      * unfold consistentWith in *. rewrite Hid.
        rewrite (IHother (entryId e) Hnotin). rewrite <- Hid. apply Hself.
        exact He.
      * apply IHall. apply Forall_forall. intros er Her.
        rewrite Forall_forall in Hrest. specialize (Hrest er Her).
        unfold consistentWith in *. rewrite Hrest. symmetry. apply Hother.
        intros Heq. apply Hnotin. rewrite <- Heq. apply in_map. exact Her.
    + simpl. rewrite Hid, IHids. reflexivity.
Qed.

Lemma wellFormed_cullShapes v m : WellFormed m -> WellFormed (fst (cullShapes v m)).
Proof.
  intros Hwf. rewrite cullShapes_unfold. cbv zeta. cbn [fst].
  eapply frame_wellFormed; [apply frame_cullHandles|].
  eapply frame_wellFormed; [apply frame_cullLabels|].
  assert (Hwf0 : WellFormed (ensureIndex m))
    by (eapply frame_wellFormed; [apply frame_ensureIndex | exact Hwf]).
  destruct Hwf0 as [F D C H L S].
  pose proof (cullLoop_scene (candidates v m) (lodLevel (zoomOutFactor v))
                (shapes (ensureIndex m))
                (mkCull 0 0 0 0 (shapesContainer (ensureIndex m))
                   (shapesInScene (ensureIndex m))) D) as Hloop.
  cbv zeta in Hloop. fold (cullResult v m) in Hloop.
  destruct Hloop as (Hother & Hall & Hids). cbn [children] in *.
  constructor; simpl.
  - unfold storeIds. simpl. rewrite Hids. exact F.
  - unfold storeIds. simpl. rewrite Hids. exact D.
  - intros g Hg.
    destruct (in_dec Nat.eq_dec g (map entryId (shapes (ensureIndex m)))) as [Hin | Hno].
    + apply F. exact Hin.
    + apply C. apply Hother; assumption.
  - unfold storeIds. simpl. rewrite Hids. exact H.
  - exact L.
  - intros i sd Hin. simpl in Hin. unfold attached. simpl.
    assert (HF : Forall (consistentWith (shapesContainer (ensureIndex m)))
                   (shapes (ensureIndex m))).
    { apply Forall_forall. intros [k sd0] Hk. apply (S k sd0 Hk). }
    specialize (Hall HF). rewrite Forall_forall in Hall.
    apply (Hall (i, sd) Hin).
Qed.

(* ================================================================== *)
(** ** The scene invariant: every operation *)

Lemma wellFormed_new : WellFormed newShapeManager.
Proof.
  constructor.
  - intros g [].
  - constructor.
  - intros g [].
  - intros g [].
  - reflexivity.
  - intros k sd [].
Qed.

Lemma preserves_perform toLocal op m :
  isCull op = false -> preserves m (perform toLocal op m).
Proof.
  destruct op; cbn [perform isCull]; intros Hc; try discriminate.
  - apply preserves_addShape.
  - apply frame_preserves. unfold frame. simpl. auto.
  - apply preserves_removeShape.
  - apply preserves_clear.
  - apply preserves_selectShape.
  - apply preserves_deselectShape.
  - apply preserves_clearSelection.
  - apply frame_preserves. unfold frame. simpl. auto.
  - apply frame_preserves, frame_enableDragAndDrop.
  - apply frame_preserves, frame_enableResize.
  - apply frame_preserves, frame_dragPointerDown.
  - destruct (nth_error (resizeHandles m) handle) as [h|]; [|apply preserves_refl].
    destruct (resizeListener h); [|apply preserves_refl].
    apply frame_preserves, frame_resizePointerDown.
  - apply frame_preserves, frame_handlePointerMove.
  - apply frame_preserves, frame_handlePointerUp.
  - unfold createNewPolygon. apply preserves_createNew.
  - unfold createNewLine. apply preserves_createNew.
  - unfold createNewPoint. apply preserves_createNew.
Qed.

Lemma wellFormed_perform toLocal op m :
  WellFormed m -> WellFormed (perform toLocal op m).
Proof.
  destruct (isCull op) eqn:E.
  - destruct op; try discriminate. apply wellFormed_cullShapes.
  - apply (preserves_perform toLocal op m E).
Qed.

Lemma wellFormed_from toLocal ops : forall m,
  WellFormed m -> WellFormed (fold_left (fun m op => perform toLocal op m) ops m).
Proof.
  induction ops as [|op ops IH]; intros m Hwf; simpl; [exact Hwf|].
  apply IH, wellFormed_perform, Hwf.
Qed.

Lemma wellFormed_run toLocal ops : WellFormed (run toLocal ops).
Proof. apply wellFormed_from, wellFormed_new. Qed.

(** C10: in every state reached from a new manager by the operations of
    the manager, and in the state after one more operation, the
    [inScene] flag of an entry is set exactly when its graphics is a
    child of the shape container.  [addShape] leaves the new entry
    flagged out of the scene with its graphics not attached.  An
    operation other than [cullShapes] keeps graphics and flag of every
    entry that stays, so only [cullShapes] toggles a flag, and by
    consistency before and after it does so together with the attach or
    detach. *)
Theorem inScene_iff_attached (toLocal : Coordinate -> Coordinate)
  (ops : list Operation) (op : Operation) :
  let m := run toLocal ops in
  let m' := perform toLocal op m in
  sceneConsistent m
  /\ sceneConsistent m'
  /\ (forall s, op = AddShape s ->
        exists g, JsMap.get (shape_id s) (shapes m') = Some (mkShapeData g s false)
                  /\ ~ attached m' (mkShapeData g s false))
  /\ (isCull op = false -> flagsKept m m').
Proof.
  intros m m'.
  pose proof (wellFormed_run toLocal ops) as Hwf. fold m in Hwf.
  pose proof (wellFormed_perform toLocal op m Hwf) as Hwf'. fold m' in Hwf'.
  split; [apply Hwf|]. split; [apply Hwf'|]. split.
  - intros s ->. unfold m' in *. cbn [perform] in *.
    destruct (addShape_entry s m) as [Hget _].
    exists (snd (addShape s m)). split; [exact Hget|].
    intros Hat. apply get_In in Hget.
    apply (wf_scene _ Hwf' _ _ Hget) in Hat. discriminate Hat.
  - intros Hc. apply (preserves_perform toLocal op m Hc).
Qed.

(* ================================================================== *)
(** ** The store as a map *)

Lemma set_length (V : Type) k (v : V) l :
  List.length (JsMap.set k v l)
  = if isSome V (JsMap.get k l) then List.length l else S (List.length l).
Proof.
  induction l as [|[k' v'] l IH]; simpl; [reflexivity|].
  destruct (String.eqb k k'); simpl; [reflexivity|].
  rewrite IH. destruct (JsMap.get k l); reflexivity.
Qed.

Lemma delete_length (V : Type) k (l : list (string * V)) :
  List.length (JsMap.delete k l)
  = if isSome V (JsMap.get k l) then Nat.pred (List.length l) else List.length l.
Proof.
  induction l as [|[k' v'] l IH]; simpl; [reflexivity|].
  destruct (String.eqb k k') eqn:E; simpl; [reflexivity|].
  rewrite IH. destruct (JsMap.get k l) eqn:G; simpl; [|reflexivity].
  destruct l; [discriminate G | reflexivity].
Qed.

Lemma get_delete_other (V : Type) k k' (l : list (string * V)) :
  k <> k' -> JsMap.get k (JsMap.delete k' l) = JsMap.get k l.
Proof.
  intros Hne. induction l as [|[k0 v0] l IH]; simpl; [reflexivity|].
  destruct (String.eqb_spec k' k0) as [->|Hne'].
  - apply String.eqb_neq in Hne. rewrite Hne. reflexivity.
  - simpl. rewrite IH. reflexivity.
Qed.

(** X1: [addShape] stores, under the id of the shape, an entry made
    of a graphics object of its own, the shape, and the flag [inScene]
    cleared.  The graphics object is new (in a well-formed manager its
    identity is that of no stored graphics, of no child of the scene and
    of no handle), it shows what the create routine of the kind draws
    and is labelled with the id.  A lookup under the id gives back the
    shape with the graphics [addShape] returned; lookups under other ids
    are unchanged; the count grows by one unless the id was already
    present (the entry is then replaced); the scene and the spatial
    index are not touched. *)
Theorem addShape_lookup (s : Shape) (m : ShapeManager) :
  let m' := fst (addShape s m) in
  JsMap.get (shape_id s) (shapes m') = Some (mkShapeData (snd (addShape s m)) s false)
  /\ snd (addShape s m)
     = mkGraphics (nextGraphics m) (createGraphics s) (shape_id s) []
  /\ nextGraphics m' = S (nextGraphics m)
  /\ (WellFormed m ->
      ~ In (gid (snd (addShape s m))) (storeIds m)
      /\ ~ In (gid (snd (addShape s m))) (shapesContainer m)
      /\ ~ In (gid (snd (addShape s m))) (handleIds m))
  /\ getShapeById (shape_id s) m' = Some s
  /\ getShape (shape_id s) m' = Some (snd (addShape s m), s)
  /\ (forall j, j <> shape_id s ->
        getShape j m' = getShape j m /\ getShapeById j m' = getShapeById j m)
  /\ getShapeCount m'
     = (if isSome Shape (getShapeById (shape_id s) m)
        then getShapeCount m else S (getShapeCount m))
  /\ shapesContainer m' = shapesContainer m
  /\ spatialIndex m' = spatialIndex m.
Proof.
  cbv zeta. unfold getShapeById, getShape, getShapeCount, addShape.
  cbn [fst snd shapes with_shapes with_nextGraphics shapesContainer spatialIndex
       nextGraphics gid].
  rewrite get_set_same. cbn [option_map graphics shape].
  split; [reflexivity|]. split; [reflexivity|]. split; [reflexivity|]. split.
  { intros Hwf. split; [|split]; intros Hin.
    - apply (wf_fresh m Hwf) in Hin. lia.
    - apply (wf_children m Hwf) in Hin. lia.
    - apply (wf_handles m Hwf) in Hin. lia. }
  split; [reflexivity|]. split; [reflexivity|]. split.
  - intros j Hne. rewrite (get_set_other _ j (shape_id s) _ _ Hne). auto.
  - split; [|auto]. rewrite set_length.
    destruct (JsMap.get (shape_id s) (shapes m)); reflexivity.
Qed.

(** X2: in a store without duplicate keys, [removeShape(id)] makes the
    lookup of [id] fail and leaves the other lookups alone; the count
    drops by one when the id was present and the call changes nothing in
    the store when it was not; the spatial index keeps its items. *)
Theorem removeShape_lookup (i : string) (m : ShapeManager) :
  NoDup (JsMap.keys (shapes m)) ->
  getShapeById i (removeShape i m) = None
  /\ getShape i (removeShape i m) = None
  /\ (forall j, j <> i -> getShape j (removeShape i m) = getShape j m)
  /\ getShapeCount (removeShape i m)
     = (if isSome Shape (getShapeById i m)
        then Nat.pred (getShapeCount m) else getShapeCount m)
  /\ (getShapeById i m = None -> shapes (removeShape i m) = shapes m)
  /\ spatialIndex (removeShape i m) = spatialIndex m.
Proof.
  intros Hnd. destruct (removeShape_shapes i m) as [Hs _].
  unfold getShapeById, getShape, getShapeCount. rewrite Hs.
  assert (Hget : JsMap.get i
                   (match JsMap.get i (shapes m) with
                    | Some _ => JsMap.delete i (shapes m)
                    | None => shapes m
                    end) = None).
  { destruct (JsMap.get i (shapes m)) eqn:E; [|exact E].
    apply get_delete_same. exact Hnd. }
  rewrite Hget. split; [reflexivity|]. split; [reflexivity|]. split.
  { intros j Hne. destruct (JsMap.get i (shapes m));
      [rewrite get_delete_other by exact Hne|]; reflexivity. }
  split.
  { destruct (JsMap.get i (shapes m)) eqn:E; simpl.
    - rewrite delete_length, E. reflexivity.
    - reflexivity. }
  split.
  { destruct (JsMap.get i (shapes m)); [discriminate | reflexivity]. }
  unfold removeShape.
  destruct (JsMap.get i (shapes m)); simpl;
    match goal with |- context [JsMap.get i ?l] => destruct (JsMap.get i l) end;
    reflexivity.
Qed.

Lemma removeShape_lookup_witness :
  getShapeById "a" (removeShape "a" twoShapes) = None
  /\ getShapeCount (removeShape "a" twoShapes) = 1%nat.
Proof.
  assert (Hnd : NoDup (JsMap.keys (shapes twoShapes))).
  { evaluate. constructor; [simpl; intros [H|[]]; discriminate H|].
    constructor; [simpl; tauto | constructor]. }
  destruct (removeShape_lookup "a" twoShapes Hnd) as (H1 & _ & _ & H4 & _).
  split; [exact H1|]. rewrite H4. evaluate. reflexivity.
Defined.

(* ================================================================== *)
(** ** Bounding boxes *)

Lemma xleb_finite a b : Num.xleb (Num.Finite a) (Num.Finite b) = true <-> a <= b.
Proof. apply leb_true_iff. Qed.

Lemma extendBounds_first c :
  encloses (extendBounds emptyBounds c) [c].
Proof.
  rewrite extendBounds_empty. split.
  - exists (x c), (y c), (x c), (y c). split; [reflexivity|].
    intros c' [<- | []]. lra.
  - repeat split; exists c; simpl; auto.
Qed.

Lemma extendBounds_next b seen c :
  encloses b seen -> encloses (extendBounds b c) (seen ++ [c]).
Proof.
  intros [(x0 & y0 & x1 & y1 & -> & Hin) (Tx0 & Tx1 & Ty0 & Ty1)].
  unfold extendBounds, Num.xgtb. cbn [minX minY maxX maxY Num.xltb] in *.
  assert (Hc : In c (seen ++ [c])) by (apply in_or_app; right; left; reflexivity).
  assert (Hs : forall c', In c' seen -> In c' (seen ++ [c]))
    by (intros; apply in_or_app; left; assumption).
  assert (Hold : forall (f : Coordinate -> R) a,
             (exists c0, In c0 seen /\ Num.Finite a = Num.Finite (f c0)) ->
             exists c1, In c1 (seen ++ [c]) /\ Num.Finite a = Num.Finite (f c1)).
  { intros f a (c0 & H0 & Heq). exists c0. split; [apply Hs; exact H0 | exact Heq]. }
  assert (Hnew : forall (f : Coordinate -> R),
             exists c1, In c1 (seen ++ [c]) /\ Num.Finite (f c) = Num.Finite (f c1)).
  { intros f. exists c. split; [exact Hc | reflexivity]. }
  split.
  - exists (if Num.ltb (x c) x0 then x c else x0),
           (if Num.ltb (y c) y0 then y c else y0),
           (if Num.ltb x1 (x c) then x c else x1),
           (if Num.ltb y1 (y c) then y c else y1).
    split.
    + destruct (Num.ltb (x c) x0), (Num.ltb (y c) y0), (Num.ltb x1 (x c)),
        (Num.ltb y1 (y c)); reflexivity.
    + intros c' Hc'. apply in_app_iff in Hc'.
      destruct (Num.ltb (x c) x0) eqn:E0; destruct (Num.ltb (y c) y0) eqn:E1;
        destruct (Num.ltb x1 (x c)) eqn:E2; destruct (Num.ltb y1 (y c)) eqn:E3;
        repeat match goal with
        | H : Num.ltb _ _ = true |- _ => apply ltb_true_iff in H
        | H : Num.ltb _ _ = false |- _ => apply ltb_false_iff in H
        end;
        (destruct Hc' as [Hc' | [<- | []]]; [specialize (Hin c' Hc'); lra | lra]).
  - unfold touches. cbn [minX minY maxX maxY].
    split; [|split; [|split]].
    + destruct (Num.ltb (x c) x0); [apply (Hnew (@x)) | apply (Hold (@x)), Tx0].
    + destruct (Num.ltb x1 (x c)); [apply (Hnew (@x)) | apply (Hold (@x)), Tx1].
    + destruct (Num.ltb (y c) y0); [apply (Hnew (@y)) | apply (Hold (@y)), Ty0].
    + destruct (Num.ltb y1 (y c)); [apply (Hnew (@y)) | apply (Hold (@y)), Ty1].
Qed.

Lemma fold_extendBounds_encloses cs : forall b seen,
  encloses b seen -> encloses (fold_left extendBounds cs b) (seen ++ cs).
Proof.
  induction cs as [|c cs IH]; intros b seen Hb; simpl.
  - rewrite app_nil_r. exact Hb.
  - replace (seen ++ c :: cs) with ((seen ++ [c]) ++ cs)
      by (rewrite <- app_assoc; reflexivity).
    apply IH. apply extendBounds_next. exact Hb.
Qed.

Lemma bounds_of_vertices c cs :
  encloses (fold_left extendBounds (c :: cs) emptyBounds) (c :: cs).
Proof.
  apply (fold_extendBounds_encloses cs (extendBounds emptyBounds c) [c]).
  apply extendBounds_first.
Qed.

Lemma encloses_inBox b cs c : encloses b cs -> In c cs -> inBox b c.
Proof.
  intros [(x0 & y0 & x1 & y1 & -> & Hin) _] Hc. specialize (Hin c Hc).
  unfold inBox, xle. cbn [minX minY maxX maxY]. rewrite !xleb_finite. lra.
Qed.

(** X3: the bounding box [calculateShapeBounds] computes for a polygon
    or a line is the empty box (infinite, inverted) when the shape has no
    vertex; otherwise its sides are finite, every vertex lies in it and
    each side passes through a vertex. *)
Theorem shapeBounds_tight (s : Shape) :
  shape_type s <> TPoint ->
  (shape_vertices s = [] -> calculateShapeBounds s = emptyBounds)
  /\ (shape_vertices s <> [] -> encloses (calculateShapeBounds s) (shape_vertices s))
  /\ (forall c, In c (shape_vertices s) -> inBox (calculateShapeBounds s) c).
Proof.
  intros Hp.
  assert (H : forall cs,
             (cs = [] -> fold_left extendBounds cs emptyBounds = emptyBounds)
             /\ (cs <> [] -> encloses (fold_left extendBounds cs emptyBounds) cs)
             /\ (forall c, In c cs -> inBox (fold_left extendBounds cs emptyBounds) c)).
  { intros [|c cs].
    - split; [reflexivity|]. split; [congruence | intros c []].
    - split; [discriminate|]. split; [intros _; apply bounds_of_vertices|].
      intros c' Hc'. apply (encloses_inBox _ (c :: cs)); [|exact Hc'].
      apply bounds_of_vertices. }
  destruct s as [i cs st l | i ps st l | i c st r l]; simpl in *;
    [apply H | apply H | congruence].
Qed.

Lemma shapeBounds_tight_witness :
  encloses (calculateShapeBounds sampleLine) (shape_vertices sampleLine)
  /\ inBox (calculateShapeBounds sampleLine) (mkCoordinate 4 3).
Proof.
  assert (Hp : shape_type sampleLine <> TPoint) by discriminate.
  destruct (shapeBounds_tight sampleLine Hp) as (_ & H2 & H3).
  split.
  - apply H2. discriminate.
  - apply H3. right. left. reflexivity.
Defined.

(* ================================================================== *)
(** ** Keys and shape ids *)

Lemma idSkeleton_keys l : JsMap.keys l = map fst (idSkeleton l).
Proof. unfold JsMap.keys, idSkeleton. rewrite map_map. reflexivity. Qed.

Lemma sameIds_refl m : sameIds m m.
Proof. reflexivity. Qed.

Lemma sameIds_trans m1 m2 m3 : sameIds m1 m2 -> sameIds m2 m3 -> sameIds m1 m3.
Proof. unfold sameIds. congruence. Qed.

Lemma sameIds_shapes m m' : shapes m' = shapes m -> sameIds m m'.
Proof. unfold sameIds. intros ->. reflexivity. Qed.

Lemma sameIds_keyed m m' : sameIds m m' -> Keyed m -> Keyed m'.
Proof.
  unfold sameIds. intros Hs [Hnd Hid]. split.
  - rewrite idSkeleton_keys, Hs, <- idSkeleton_keys. exact Hnd.
  - intros i sd Hin.
    assert (H : In (i, shape_id (shape sd)) (idSkeleton (shapes m'))).
    { unfold idSkeleton. apply in_map_iff. exists (i, sd). auto. }
    rewrite Hs in H. unfold idSkeleton in H. apply in_map_iff in H.
    destruct H as ([k sd0] & Heq & Hin0). simpl in Heq.
    injection Heq as Hk Hsd. subst k. rewrite <- Hsd. apply (Hid _ _ Hin0).
Qed.

Lemma idSkeleton_set i v l sd :
  JsMap.get i l = Some sd -> shape_id (shape v) = shape_id (shape sd) ->
  idSkeleton (JsMap.set i v l) = idSkeleton l.
Proof.
  intros Hget Hid. induction l as [|[k v0] l IH]; simpl in *; [discriminate|].
  destruct (String.eqb_spec i k) as [->|Hne].
  - inversion Hget; subst. simpl. rewrite Hid. reflexivity.
  - simpl. rewrite IH by exact Hget. reflexivity.
Qed.

Lemma sameIds_updateShapeVisuals i selected m : sameIds m (updateShapeVisuals i selected m).
Proof.
  unfold updateShapeVisuals. destruct (JsMap.get i (shapes m)) as [sd|] eqn:E;
    [|apply sameIds_refl].
  unfold sameIds. simpl. apply (idSkeleton_set i _ (shapes m) sd E). reflexivity.
Qed.

Lemma sameIds_revertAll l : forall m,
  sameIds m (fold_left (fun m s => updateShapeVisuals s false m) l m).
Proof.
  induction l as [|s l IH]; intros m; simpl; [apply sameIds_refl|].
  eapply sameIds_trans; [apply sameIds_updateShapeVisuals | apply IH].
Qed.

Lemma sameIds_clearPreviousSelections m : sameIds m (clearPreviousSelections m).
Proof.
  unfold sameIds. destruct (clearPreviousSelections_spec m) as [_ ->].
  apply sameIds_revertAll.
Qed.

Lemma sameIds_addToSelection i m : sameIds m (addToSelection i m).
Proof.
  unfold sameIds. destruct (addToSelection_spec i m) as [_ ->].
  apply (sameIds_updateShapeVisuals i true
           (with_selectedShapes m (JsSet.add i (selectedShapes m)))).
Qed.

Lemma sameIds_selectShape i multiSelect m : sameIds m (selectShape i multiSelect m).
Proof.
  unfold selectShape. destruct multiSelect; [apply sameIds_addToSelection|].
  eapply sameIds_trans;
    [apply sameIds_clearPreviousSelections | apply sameIds_addToSelection].
Qed.

Lemma deselectShape_shapes i m :
  shapes (deselectShape i m)
  = if JsSet.has i (selectedShapes m)
    then shapes (updateShapeVisuals i false
                   (with_selectedShapes m (JsSet.delete i (selectedShapes m))))
    else shapes m.
Proof.
  unfold deselectShape. destruct (JsSet.has i (selectedShapes m)); [|reflexivity].
  match goal with |- context [notifySelection ?ids ?a] =>
    destruct (notifySelection_fields ids a) as (-> & _) end.
  match goal with |- context [match ?l with [] => _ | _ :: _ => _ end] =>
    destruct l as [|r [|r' l']] end.
  - match goal with |- context [clearResizeHandles ?a] =>
      destruct (clearResizeHandles_fields a) as (-> & _) end. reflexivity.
  - unfold enableResize. simpl.
    match goal with |- context [createResizeHandles ?r ?a] =>
      destruct (createResizeHandles_fields r a) as (-> & _) end. reflexivity.
  - match goal with |- context [clearResizeHandles ?a] =>
      destruct (clearResizeHandles_fields a) as (-> & _) end. reflexivity.
Qed.

Lemma sameIds_deselectShape i m : sameIds m (deselectShape i m).
Proof.
  unfold sameIds. rewrite deselectShape_shapes.
  destruct (JsSet.has i (selectedShapes m)); [|reflexivity].
  apply (sameIds_updateShapeVisuals i false
           (with_selectedShapes m (JsSet.delete i (selectedShapes m)))).
Qed.

Lemma sameIds_clearSelection m : sameIds m (clearSelection m).
Proof.
  unfold clearSelection, sameIds.
  destruct (notifySelection_fields [] (clearPreviousSelections m)) as (-> & _).
  apply sameIds_clearPreviousSelections.
Qed.

Lemma dragShape_id localPos offset s s' :
  dragShape localPos offset s = Some s' -> shape_id s' = shape_id s.
Proof.
  destruct s as [i [|c0 cs] st l | i [|p0 ps] st l | i c st r l]; simpl;
    try discriminate; intros [= <-]; reflexivity.
Qed.

Lemma resizeShape_id localPos index s s' :
  resizeShape localPos index s = Some s' -> shape_id s' = shape_id s.
Proof.
  destruct s as [i cs st l | i ps st l | i c st r l]; cbn [resizeShape].
  - destruct (at_index cs index); [|discriminate]. intros [= <-]. reflexivity.
  - intros [= <-]. reflexivity.
  - intros [= <-]. reflexivity.
Qed.

Lemma sameIds_moved active sd s m :
  JsMap.get active (shapes m) = Some sd -> shape_id s = shape_id (shape sd) ->
  sameIds m (updateResizeHandles active
               (updateShapeVisuals active true (set_shape active sd s m))).
Proof.
  intros Hget Hid. unfold sameIds. rewrite updateResizeHandles_shapes.
  eapply eq_trans; [apply sameIds_updateShapeVisuals|].
  unfold set_shape. simpl. apply (idSkeleton_set active _ (shapes m) sd Hget).
  exact Hid.
Qed.

Lemma sameIds_handlePointerMove toLocal global m :
  sameIds m (state_of (handlePointerMove toLocal global m)).
Proof.
  unfold handlePointerMove.
  destruct (isDragging m), (isResizing m), (truthy (activeShapeId m)) as [active|];
    try apply sameIds_refl;
    (destruct (JsMap.get active (shapes m)) as [sd|] eqn:E; [|apply sameIds_refl]).
  - destruct (dragShape _ _ _) as [s|] eqn:D; [|apply sameIds_refl].
    apply sameIds_moved; [exact E | apply (dragShape_id _ _ _ _ D)].
  - destruct (dragShape _ _ _) as [s|] eqn:D; [|apply sameIds_refl].
    apply sameIds_moved; [exact E | apply (dragShape_id _ _ _ _ D)].
  - destruct (resizeShape _ _ _) as [s|] eqn:D; [|apply sameIds_refl].
    apply sameIds_moved; [exact E | apply (resizeShape_id _ _ _ _ D)].
Qed.

Lemma sameIds_dragPointerDown toLocal i g global m :
  sameIds m (state_of (dragPointerDown toLocal i g global m)).
Proof.
  unfold dragPointerDown.
  destruct (isSelected i m && Container.hasChild g (shapesContainer m));
    [|apply sameIds_refl].
  cbn [shapes with_activeShapeId with_isDragging].
  destruct (JsMap.get i (shapes m)) as [sd|]; [|apply sameIds_shapes; reflexivity].
  match goal with |- context [match ?r with Some _ => _ | None => _ end] =>
    destruct r end; apply sameIds_shapes; reflexivity.
Qed.

Lemma sameIds_enableDragAndDrop i g m : sameIds m (enableDragAndDrop i g m).
Proof.
  unfold sameIds, idSkeleton. simpl. rewrite map_map. apply map_ext.
  intros [k sd]. simpl. destruct (Nat.eqb (gid (graphics sd)) g); reflexivity.
Qed.

Lemma sameIds_cullShapes v m : sameIds m (fst (cullShapes v m)).
Proof.
  unfold sameIds, idSkeleton. rewrite cullShapes_shapes, map_map. reflexivity.
Qed.

Lemma set_keys_NoDup (V : Type) k (v : V) l :
  NoDup (JsMap.keys l) -> NoDup (JsMap.keys (JsMap.set k v l)).
Proof.
  induction l as [|[k' v'] l IH]; simpl; intros Hnd.
  - constructor; [tauto | constructor].
  - inversion Hnd as [|? ? Hnotin Hnd']; subst.
    destruct (String.eqb_spec k k') as [->|Hne]; simpl.
    + constructor; assumption.
    + constructor; [|apply IH; exact Hnd'].
      intros Hin. unfold JsMap.keys in Hin. apply in_map_iff in Hin.
      destruct Hin as (e & He & Hin). apply set_In in Hin.
      destruct Hin as [-> | Hin]; [simpl in He; congruence|].
      apply Hnotin. unfold JsMap.keys. rewrite <- He. apply in_map. exact Hin.
Qed.

Lemma delete_keys_NoDup (V : Type) k (l : list (string * V)) :
  NoDup (JsMap.keys l) -> NoDup (JsMap.keys (JsMap.delete k l)).
Proof.
  induction l as [|[k' v'] l IH]; simpl; intros Hnd; [constructor|].
  inversion Hnd as [|? ? Hnotin Hnd']; subst.
  destruct (String.eqb k k'); simpl; [exact Hnd'|].
  constructor; [|apply IH; exact Hnd'].
  intros Hin. apply Hnotin. apply (delete_keys_subset V k' k l Hin).
Qed.

Lemma keyed_addShape s m : Keyed m -> Keyed (fst (addShape s m)).
Proof.
  intros [Hnd Hid]. unfold addShape. simpl. split.
  - apply set_keys_NoDup. exact Hnd.
  - intros i sd Hin. apply set_In in Hin. destruct Hin as [Heq | Hin].
    + inversion Heq; subst. reflexivity.
    + apply (Hid _ _ Hin).
Qed.

Lemma keyed_createNew s m : Keyed m -> Keyed (fst (createNew s m)).
Proof.
  intros Hk. unfold createNew. pose proof (keyed_addShape s m Hk) as Hadd.
  destruct (addShape s m) as [m1 g]. cbn [fst] in *.
  apply (sameIds_keyed m1); [apply sameIds_enableDragAndDrop | exact Hadd].
Qed.

Lemma keyed_removeShape i m : Keyed m -> Keyed (removeShape i m).
Proof.
  intros [Hnd Hid]. destruct (removeShape_shapes i m) as [Hs _]. unfold Keyed.
  rewrite Hs. destruct (JsMap.get i (shapes m)); [|split; assumption]. split.
  - apply delete_keys_NoDup. exact Hnd.
  - intros k sd Hin. apply delete_In in Hin. apply (Hid _ _ Hin).
Qed.

Lemma keyed_perform toLocal op m : Keyed m -> Keyed (perform toLocal op m).
Proof.
  intros Hk. destruct op; cbn [perform].
  - apply keyed_addShape, Hk.
  - exact Hk.
  - apply keyed_removeShape, Hk.
  - split; [constructor | intros i sd []].
  - apply (sameIds_keyed m); [apply sameIds_selectShape | exact Hk].
  - apply (sameIds_keyed m); [apply sameIds_deselectShape | exact Hk].
  - apply (sameIds_keyed m); [apply sameIds_clearSelection | exact Hk].
  - exact Hk.
  - apply (sameIds_keyed m); [apply sameIds_enableDragAndDrop | exact Hk].
  - exact Hk.
  - apply (sameIds_keyed m); [apply sameIds_dragPointerDown | exact Hk].
  - destruct (nth_error (resizeHandles m) handle) as [h|]; [|exact Hk].
    destruct (resizeListener h); exact Hk.
  - apply (sameIds_keyed m); [apply sameIds_handlePointerMove | exact Hk].
  - exact Hk.
  - unfold createNewPolygon. apply keyed_createNew, Hk.
  - unfold createNewLine. apply keyed_createNew, Hk.
  - unfold createNewPoint. apply keyed_createNew, Hk.
  - apply (sameIds_keyed m); [apply sameIds_cullShapes | exact Hk].
Qed.

Lemma keyed_from toLocal ops : forall m,
  Keyed m -> Keyed (fold_left (fun m op => perform toLocal op m) ops m).
Proof.
  induction ops as [|op ops IH]; intros m Hk; simpl; [exact Hk|].
  apply IH, keyed_perform, Hk.
Qed.

Lemma keyed_new : Keyed newShapeManager.
Proof. split; [constructor | intros i sd []]. Qed.

(** X4: in every state reached from a new manager by the operations of
    the manager, every entry of the store is kept under the id of its
    shape, no two entries share a key, and the count is the number of
    distinct shape ids. *)
Theorem store_keyed_by_id (toLocal : Coordinate -> Coordinate) (ops : list Operation) :
  let m := run toLocal ops in
  NoDup (JsMap.keys (shapes m))
  /\ (forall i shapeData, In (i, shapeData) (shapes m) ->
        shape_id (shape shapeData) = i /\ getShapeById i m = Some (shape shapeData))
  /\ getShapeCount m = List.length (JsMap.keys (shapes m)).
Proof.
  cbv zeta. pose proof (keyed_from toLocal ops newShapeManager keyed_new) as Hk.
  fold (run toLocal ops) in Hk. destruct Hk as [Hnd Hid].
  split; [exact Hnd|]. split.
  - intros i sd Hin. split; [apply (Hid _ _ Hin)|].
    unfold getShapeById.
    destruct (JsMap.get i (shapes (run toLocal ops))) as [sd0|] eqn:E.
    + apply get_In in E. simpl. f_equal. f_equal.
      clear Hid. revert Hnd Hin E. generalize (shapes (run toLocal ops)).
      induction l as [|[k v] l IH]; simpl; [tauto|].
      intros Hnd. inversion Hnd as [|? ? Hnotin Hnd']; subst.
      intros [H1 | H1] [H2 | H2].
      * congruence.
      * inversion H1; subst. exfalso. apply Hnotin.
        change i with (fst (i, sd0)). apply in_map. exact H2.
      * inversion H2; subst. exfalso. apply Hnotin.
        change i with (fst (i, sd)). apply in_map. exact H1.
      * apply IH; assumption.
    + exfalso. assert (Hk : In i (JsMap.keys (shapes (run toLocal ops)))).
      { change i with (fst (i, sd)). apply in_map. exact Hin. }
      clear Hid Hnd Hin. revert E Hk. generalize (shapes (run toLocal ops)).
      induction l as [|[k v] l IH]; simpl; [tauto|].
      destruct (String.eqb_spec i k) as [->|Hne]; [discriminate|].
      intros E [H|H]; [congruence | auto].
  - unfold getShapeCount, JsMap.keys. rewrite length_map. reflexivity.
Qed.

(* ================================================================== *)
(** ** What a cull pass attaches *)

Lemma unique_value (V : Type) (l : list (string * V)) k v v' :
  NoDup (JsMap.keys l) -> In (k, v) l -> In (k, v') l -> v = v'.
Proof.
  induction l as [|[k0 v0] l IH]; simpl; [tauto|].
  intros Hnd. inversion Hnd as [|? ? Hnotin Hnd']; subst.
  intros [H1 | H1] [H2 | H2].
  - congruence.
  - inversion H1; subst. exfalso. apply Hnotin.
    change k with (fst (k, v')). apply in_map. exact H2.
  - inversion H2; subst. exfalso. apply Hnotin.
    change k with (fst (k, v)). apply in_map. exact H1.
  - apply IH; assumption.
Qed.

Lemma cullShapes_entry v m i sd :
  In (i, sd) (shapes (fst (cullShapes v m))) ->
  exists sd0, In (i, sd0) (shapes m) /\ shape sd = shape sd0
              /\ graphics sd = graphics sd0
              /\ inScene sd
                 = wanted (candidates v m) (lodLevel (zoomOutFactor v)) (i, sd0).
Proof.
  rewrite cullShapes_shapes. intros Hin. apply in_map_iff in Hin.
  destruct Hin as ([k sd0] & Heq & Hin). unfold reconciled in Heq. simpl in Heq.
  inversion Heq; subst. exists sd0. auto.
Qed.

Lemma candidates_fresh_index v m i :
  Keyed m ->
  forall sd0, In (i, sd0) (shapes m) ->
  proper (calculateShapeBounds (shape sd0)) = true
  \/ (List.length (shapes m) <= 9)%nat ->
  (JsSet.has i (candidates v (buildSpatialIndex m)) = true
   <-> intersects (bufferedBounds v) (calculateShapeBounds (shape sd0)) = true).
Proof.
  intros [Hnd Hid] sd0 Hin Hwhen.
  assert (Hindex : currentIndex (ensureIndex (buildSpatialIndex m))
                   = map (fun e => mkItem (calculateShapeBounds (shape (snd e)))
                                     (shape_id (shape (snd e)))) (shapes m))
    by reflexivity.
  assert (Hbox : forall item,
             In item (currentIndex (ensureIndex (buildSpatialIndex m))) ->
             item_id item = i -> bbox item = calculateShapeBounds (shape sd0)).
  { intros item Hitem Hidi. rewrite Hindex in Hitem. apply in_map_iff in Hitem.
    destruct Hitem as ([k sd1] & <- & Hin1). simpl in *.
    pose proof (Hid _ _ Hin1) as Hk. rewrite Hidi in Hk. subst k.
    rewrite (unique_value _ _ _ _ _ Hnd Hin Hin1). reflexivity. }
  split.
  - intros Hcand. destruct Hwhen as [Hproper | Hsmall].
    + apply candidates_sound in Hcand.
      destruct Hcand as (item & _ & Hitem & Hidi & Hx).
      rewrite (Hbox item Hitem Hidi) in Hx. exact (Hx Hproper).
    + apply candidates_small in Hcand.
      * destruct Hcand as (item & Hitem & Hidi & Hx).
        rewrite (Hbox item Hitem Hidi) in Hx. exact Hx.
      * rewrite Hindex, length_map. exact Hsmall.
  - intros Hx. apply candidates_complete.
    exists (mkItem (calculateShapeBounds (shape sd0)) (shape_id (shape sd0))).
    split; [|split; [simpl; apply (Hid _ _ Hin) | exact Hx]].
    rewrite Hindex. apply in_map_iff. exists (i, sd0). auto.
Qed.

(** The box of a polygon or a line with a vertex, and of a point whose
    radius is not negative, is proper. *)
Lemma shapeBounds_proper s :
  match s with
  | point _ _ _ radius _ => 0 <= Num.orElse radius 5
  | _ => shape_vertices s <> []
  end -> proper (calculateShapeBounds s) = true.
Proof.
  assert (H : forall cs, cs <> [] -> proper (fold_left extendBounds cs emptyBounds) = true).
  { intros [|c cs] Hne; [congruence|].
    destruct (bounds_of_vertices c cs) as [(x0 & y0 & x1 & y1 & -> & Hall) _].
    destruct (Hall c (or_introl eq_refl)) as [Hx Hy].
    unfold proper. cbn [minX minY maxX maxY Num.xleb].
    apply andb_true_iff. split; apply leb_true_iff; lra. }
  destruct s as [i cs st l | i ps st l | i c st r l]; cbn [calculateShapeBounds shape_vertices].
  - apply H.
  - apply H.
  - intros Hr. unfold proper. cbn [minX minY maxX maxY Num.xleb].
    apply andb_true_iff. split; apply leb_true_iff; lra.
Qed.

Lemma lod_filter lod s :
  negb (Nat.leb 1 lod && is_line s) = true <-> is_line s = false \/ lod = 0%nat.
Proof.
  destruct lod; destruct (is_line s); simpl; split; intros H; auto;
    try discriminate; destruct H; congruence.
Qed.

Lemma cull_fresh_index_entry v m i sd :
  Keyed m -> In (i, sd) (shapes (fst (cullShapes v (buildSpatialIndex m)))) ->
  proper (calculateShapeBounds (shape sd)) = true
  \/ (List.length (shapes m) <= 9)%nat ->
  (inScene sd = true <->
   intersects (bufferedBounds v) (calculateShapeBounds (shape sd)) = true
   /\ (is_line (shape sd) = false \/ lodLevel (zoomOutFactor v) = 0%nat)).
Proof.
  intros Hk Hin Hwhen. apply cullShapes_entry in Hin.
  destruct Hin as (sd0 & Hin0 & Hs & _ & ->). change (shapes (buildSpatialIndex m))
    with (shapes m) in Hin0.
  unfold wanted. cbn [fst snd]. rewrite andb_true_iff, lod_filter, Hs.
  rewrite Hs in Hwhen.
  rewrite (candidates_fresh_index v m i Hk sd0 Hin0 Hwhen). reflexivity.
Qed.

(** X5: when the store is keyed by shape id and the spatial index has
    just been built, [cullShapes(v)] leaves a shape whose bounding box is
    proper (no side inverted), or any shape of a store of at most nine,
    flagged (and, by the scene invariant, attached) exactly when the
    bounding box of its geometry meets the viewport grown by the buffer
    and it is not a line suppressed by a level of detail of 1 or more.
    A cull without any index is the same as building the index first. *)
Theorem cull_attaches_exactly (v : ViewportBounds) (m : ShapeManager)
  (i : string) (sd : ShapeData) :
  Keyed m ->
  In (i, sd) (shapes (fst (cullShapes v (buildSpatialIndex m)))) ->
  proper (calculateShapeBounds (shape sd)) = true
  \/ (List.length (shapes m) <= 9)%nat ->
  (inScene sd = true <->
   intersects (bufferedBounds v) (calculateShapeBounds (shape sd)) = true
   /\ (is_line (shape sd) = false \/ lodLevel (zoomOutFactor v) = 0%nat))
  /\ (spatialIndex m = None -> cullShapes v m = cullShapes v (buildSpatialIndex m)).
Proof.
  intros Hk Hin Hwhen. split; [apply (cull_fresh_index_entry v m i sd Hk Hin Hwhen)|].
  intros Hnone. unfold cullShapes, ensureIndex. rewrite Hnone. reflexivity.
Qed.

Lemma keyed_pointManager : Keyed pointManager.
Proof.
  split.
  - evaluate. constructor; [simpl; tauto | constructor].
  - intros i sd Hin. change (shapes pointManager) with [("p"%string, lonePointData)] in Hin.
    destruct Hin as [Heq | []]. inversion Heq; subst. reflexivity.
Qed.

Lemma intersects_emptyBounds v : intersects (bufferedBounds v) emptyBounds = false.
Proof. reflexivity. Qed.

(** X6: in a store of at most nine shapes a polygon or a line without
    any vertex is never attached by a cull pass that follows an index
    build: its bounding box is the empty box, which meets no viewport,
    and an index of at most nine items tests every item. *)
Theorem empty_shape_never_attached (v : ViewportBounds) (m : ShapeManager)
  (i : string) (sd : ShapeData) :
  Keyed m ->
  (List.length (shapes m) <= 9)%nat ->
  In (i, sd) (shapes (fst (cullShapes v (buildSpatialIndex m)))) ->
  shape_type (shape sd) <> TPoint ->
  shape_vertices (shape sd) = [] ->
  inScene sd = false.
Proof.
  intros Hk Hsmall Hin Hp Hv.
  destruct (inScene sd) eqn:E; [|reflexivity].
  apply (cull_fresh_index_entry v m i sd Hk Hin (or_intror Hsmall)) in E.
  destruct E as [Hx _].
  assert (Hb : calculateShapeBounds (shape sd) = emptyBounds).
  { destruct (shape sd) as [k cs st l | k ps st l | k c st r l]; simpl in *;
      [subst; reflexivity | subst; reflexivity | congruence]. }
  rewrite Hb, intersects_emptyBounds in Hx. discriminate Hx.
Qed.

(* ================================================================== *)
(** ** The counters of a cull pass *)

Lemma cullStep_counters ids lod c e :
  let r := cullStep ids lod c e in
  (flagged [snd r] + removedCount (fst r) + addedCount c
   = flagged [e] + addedCount (fst r) + removedCount c)%nat
  /\ (flagged [snd r] + skippedCount (fst r) + visibleCount c
      = visibleCount (fst r) + skippedCount c)%nat
  /\ (lod = 0%nat -> skippedCount (fst r) = skippedCount c).
Proof.
  destruct e as [i sd]. unfold flagged. cbv [cullStep fst snd].
  destruct (JsSet.has i ids); destruct lod as [|lod];
    destruct (is_line (shape sd)); destruct (inScene sd) eqn:E;
    cbn [Nat.leb andb negb fst snd filter inScene set_inScene List.length
         removedCount addedCount skippedCount visibleCount];
    rewrite ?E; cbn [List.length]; repeat split; try lia; intros; congruence.
Qed.

Lemma flagged_cons e l : flagged (e :: l) = (flagged [e] + flagged l)%nat.
Proof. unfold flagged. simpl. destruct (inScene (snd e)); reflexivity. Qed.

Lemma cullLoop_counters ids lod entries : forall c,
  let r := cullLoop ids lod c entries in
  (flagged (snd r) + removedCount (fst r) + addedCount c
   = flagged entries + addedCount (fst r) + removedCount c)%nat
  /\ (flagged (snd r) + skippedCount (fst r) + visibleCount c
      = visibleCount (fst r) + skippedCount c)%nat
  /\ (lod = 0%nat -> skippedCount (fst r) = skippedCount c).
Proof.
  induction entries as [|e rest IH]; intros c; simpl.
  - repeat split; lia.
  - pose proof (cullStep_counters ids lod c e) as Hs. cbv zeta in Hs.
    destruct (cullStep ids lod c e) as [c1 e']. cbn [fst snd] in Hs.
    specialize (IH c1). cbv zeta in IH.
    destruct (cullLoop ids lod c1 rest) as [c2 rest']. cbn [fst snd] in *.
    rewrite (flagged_cons e' rest'), (flagged_cons e rest).
    destruct Hs as (A1 & B1 & C1). destruct IH as (A2 & B2 & C2).
    split; [lia|]. split; [lia|]. intros H0. rewrite C2, C1 by exact H0.
    reflexivity.
Qed.

(** X7: the counters one cull pass reports add up: the shapes flagged
    after the pass are the ones flagged before plus [added] minus
    [removed]; they are the candidates ([count]) minus the ones skipped
    by the level of detail; [count] is at most [total]; and at level 0
    nothing is skipped. *)
Theorem cull_counters_add_up (v : ViewportBounds) (m : ShapeManager) :
  let m' := fst (cullShapes v m) in
  let d := snd (cullShapes v m) in
  (flaggedCount m' + Detail.removed d = flaggedCount m + Detail.added d)%nat
  /\ (flaggedCount m' + Detail.skippedByLOD d = Detail.count d)%nat
  /\ (Detail.count d <= Detail.total d)%nat
  /\ Detail.total d = getShapeCount m
  /\ (Detail.lodLevel d = 0%nat -> Detail.skippedByLOD d = 0%nat).
Proof.
  cbv zeta.
  assert (Hshapes : shapes (fst (cullShapes v m)) = snd (cullResult v m)).
  { rewrite cullShapes_shapes. unfold cullResult. rewrite cullLoop_entries.
    destruct (ensureIndex_fields m) as (-> & _). reflexivity. }
  pose proof (cullLoop_counters (candidates v m) (lodLevel (zoomOutFactor v))
                (shapes (ensureIndex m))
                (mkCull 0 0 0 0 (shapesContainer (ensureIndex m))
                   (shapesInScene (ensureIndex m)))) as H.
  cbv zeta in H. fold (cullResult v m) in H.
  cbn [addedCount removedCount skippedCount visibleCount] in H.
  destruct H as (A & B & C).
  destruct (ensureIndex_fields m) as (Hs & _). rewrite Hs in A.
  unfold flaggedCount. rewrite Hshapes. fold (flagged (snd (cullResult v m))).
  fold (flagged (shapes m)) in *.
  rewrite cullShapes_total. pose proof (cullShapes_count v m) as Hcount.
  assert (Hd : Detail.removed (snd (cullShapes v m)) = removedCount (fst (cullResult v m))
               /\ Detail.added (snd (cullShapes v m)) = addedCount (fst (cullResult v m))
               /\ Detail.skippedByLOD (snd (cullShapes v m))
                  = skippedCount (fst (cullResult v m))
               /\ Detail.count (snd (cullShapes v m))
                  = visibleCount (fst (cullResult v m))
               /\ Detail.lodLevel (snd (cullShapes v m)) = lodLevel (zoomOutFactor v)).
  { rewrite cullShapes_unfold. cbv zeta. cbn. auto. }
  destruct Hd as (-> & -> & -> & Hc & ->).
  split; [lia|]. split; [rewrite Hc; lia|]. split.
  - rewrite Hcount. unfold getShapeCount.
    apply (filter_length_le (fun e => JsSet.has (fst e) (candidates v m)) (shapes m)).
  - split; [reflexivity|]. intros H0. rewrite (C H0). reflexivity.
Qed.

(* ================================================================== *)
(** ** Resize handles *)

Lemma clearResizeHandles_container m :
  resizeHandlesContainer (clearResizeHandles m) = []
  /\ resizeHandles (clearResizeHandles m) = []
  /\ selectionEvents (clearResizeHandles m) = selectionEvents m
  /\ selectionChangedCallback (clearResizeHandles m) = selectionChangedCallback m.
Proof.
  unfold clearResizeHandles. simpl. split; [reflexivity|]. split; [reflexivity|].
  generalize (resizeHandles m). intros l. revert m.
  induction l as [|h l IH]; intros m; simpl; [auto|].
  destruct (IH (destroy (hgid h) m)) as [-> ->]. auto.
Qed.

Lemma handlesFrom_ids sid ps : forall index g,
  map (@hgid) (handlesFrom sid ps index g) = seq g (List.length ps).
Proof.
  induction ps as [|p ps IH]; intros index g; simpl; [reflexivity|].
  rewrite IH. reflexivity.
Qed.

Lemma newHandles_result sid ps : forall index m,
  (forall g, In g (resizeHandlesContainer m) -> (g < nextGraphics m)%nat) ->
  resizeHandles (newHandles sid ps index m)
  = resizeHandles m ++ handlesFrom sid ps index (nextGraphics m)
  /\ resizeHandlesContainer (newHandles sid ps index m)
     = resizeHandlesContainer m ++ seq (nextGraphics m) (List.length ps)
  /\ nextGraphics (newHandles sid ps index m) = (nextGraphics m + List.length ps)%nat
  /\ selectionEvents (newHandles sid ps index m) = selectionEvents m
  /\ selectionChangedCallback (newHandles sid ps index m) = selectionChangedCallback m.
Proof.
  induction ps as [|p ps IH]; intros index m Hc; simpl.
  - rewrite !app_nil_r. repeat split; auto.
  - assert (Hadd : resizeHandlesContainer (newHandle sid p index m)
                   = resizeHandlesContainer m ++ [nextGraphics m]).
    { simpl. unfold Container.addChild, Container.removeChild.
      rewrite notin_remove; [reflexivity|].
      intros Hin. apply Hc in Hin. lia. }
    destruct (IH (S index) (newHandle sid p index m)) as (H1 & H2 & H3 & H4 & H5).
    { rewrite Hadd. intros g Hg. apply in_app_iff in Hg. simpl.
      destruct Hg as [Hg | [<- | []]]; [apply Hc in Hg|]; lia. }
    rewrite H1, H2, H3, H4, H5, Hadd. simpl. rewrite <- !app_assoc. simpl.
    repeat split; auto; lia.
Qed.

Lemma createResizeHandles_result sid m :
  match JsMap.get sid (shapes m) with
  | Some sd =>
      resizeHandles (createResizeHandles sid m)
      = handlesFrom sid (handlePositions (shape sd)) 0 (nextGraphics m)
      /\ resizeHandlesContainer (createResizeHandles sid m)
         = map (@hgid) (resizeHandles (createResizeHandles sid m))
  | None =>
      resizeHandles (createResizeHandles sid m) = []
      /\ resizeHandlesContainer (createResizeHandles sid m) = []
  end
  /\ selectionEvents (createResizeHandles sid m) = selectionEvents m
  /\ selectionChangedCallback (createResizeHandles sid m) = selectionChangedCallback m.
Proof.
  unfold createResizeHandles.
  destruct (clearResizeHandles_fields m) as (Hs & _ & _ & Hn & _).
  destruct (clearResizeHandles_container m) as (Hc & Hh & He & Hcb).
  rewrite Hs. destruct (JsMap.get sid (shapes m)) as [sd|]; [|auto].
  destruct (newHandles_result sid (handlePositions (shape sd)) 0 (clearResizeHandles m))
    as (H1 & H2 & H3 & H4 & H5).
  { rewrite Hc. intros g []. }
  rewrite H1, H2, H4, H5, Hh, Hc, Hn, He, Hcb. simpl.
  rewrite handlesFrom_ids. auto.
Qed.

Lemma handlesFrom_shapeId sid ps : forall index g h,
  In h (handlesFrom sid ps index g) -> shapeId h = Some sid /\ visible h = true.
Proof.
  induction ps as [|p ps IH]; intros index g h; simpl; [tauto|].
  intros [<- | Hin]; [auto | apply (IH _ _ _ Hin)].
Qed.




Lemma addToSelection_unfold i m0 m1 :
  m1 = updateShapeVisuals i true
         (with_selectedShapes m0 (JsSet.add i (selectedShapes m0))) ->
  addToSelection i m0
  = notifySelection
      (selectedShapes (if Nat.eqb (List.length (selectedShapes m1)) 1
                       then enableResize (createResizeHandles i m1)
                       else clearResizeHandles m1))
      (if Nat.eqb (List.length (selectedShapes m1)) 1
       then enableResize (createResizeHandles i m1)
       else clearResizeHandles m1).
Proof. intros ->. reflexivity. Qed.






(* ================================================================== *)
(** ** The selection as a set *)

Lemma has_add j i s :
  JsSet.has j (JsSet.add i s) = (String.eqb j i || JsSet.has j s)%bool.
Proof.
  unfold JsSet.add. destruct (JsSet.has i s) eqn:E.
  - destruct (String.eqb_spec j i) as [->|Hne]; [rewrite E|]; reflexivity.
  - clear E. induction s as [|k s IH]; simpl.
    + destruct (String.eqb j i); reflexivity.
    + destruct (String.eqb j k); [apply eq_sym, orb_true_r | exact IH].
Qed.

Lemma delete_In_set k k' s : In k' (JsSet.delete k s) -> In k' s.
Proof.
  induction s as [|a s IH]; simpl; [tauto|].
  destruct (String.eqb k a); simpl; [auto|]. intros [H|H]; auto.
Qed.

Lemma has_delete_other j i s :
  j <> i -> JsSet.has j (JsSet.delete i s) = JsSet.has j s.
Proof.
  intros Hne. induction s as [|k s IH]; simpl; [reflexivity|].
  destruct (String.eqb_spec i k) as [->|Hik]; simpl.
  - destruct (String.eqb_spec j k); [contradiction | reflexivity].
  - rewrite IH. reflexivity.
Qed.

Lemma has_delete_same i s : NoDup s -> JsSet.has i (JsSet.delete i s) = false.
Proof.
  induction s as [|k s IH]; simpl; intros Hnd; [reflexivity|].
  inversion Hnd as [|? ? Hnotin Hnd']; subst.
  destruct (String.eqb_spec i k) as [->|Hik]; simpl.
  - destruct (JsSet.has k s) eqn:E; [|reflexivity].
    apply has_In in E. contradiction.
  - destruct (String.eqb_spec i k); [contradiction | apply IH; exact Hnd'].
Qed.

Lemma delete_absent i s : JsSet.has i s = false -> JsSet.delete i s = s.
Proof.
  induction s as [|k s IH]; simpl; [reflexivity|].
  destruct (String.eqb i k); [discriminate|]. intros H. rewrite IH by exact H.
  reflexivity.
Qed.

Lemma delete_add_absent i s :
  JsSet.has i s = false -> JsSet.delete i (JsSet.add i s) = s.
Proof.
  intros H. unfold JsSet.add. rewrite H.
  induction s as [|k s IH]; simpl.
  - rewrite String.eqb_refl. reflexivity.
  - simpl in H. destruct (String.eqb i k); [discriminate|].
    rewrite IH by exact H. reflexivity.
Qed.

Lemma add_NoDup i s : NoDup s -> NoDup (JsSet.add i s).
Proof.
  intros Hnd. unfold JsSet.add. destruct (JsSet.has i s) eqn:E; [exact Hnd|].
  apply NoDup_app; [exact Hnd | constructor; [tauto | constructor] |].
  intros a Ha [<- | []]. apply has_In in Ha. congruence.
Qed.

Lemma delete_NoDup i s : NoDup s -> NoDup (JsSet.delete i s).
Proof.
  induction s as [|k s IH]; simpl; intros Hnd; [constructor|].
  inversion Hnd as [|? ? Hnotin Hnd']; subst.
  destruct (String.eqb i k); [exact Hnd'|].
  constructor; [|apply IH; exact Hnd'].
  intros Hin. apply Hnotin. apply (delete_In_set i k s Hin).
Qed.

(* ================================================================== *)
(** ** What the selection methods leave *)

Lemma selectShape_selected i multiSelect m :
  selectedShapes (selectShape i multiSelect m)
  = JsSet.add i (if multiSelect then selectedShapes m else []).
Proof.
  unfold selectShape. destruct (addToSelection_spec i
    (if multiSelect then m else clearPreviousSelections m)) as [-> _].
  destruct multiSelect; [reflexivity|].
  destruct (clearPreviousSelections_spec m) as [-> _]. reflexivity.
Qed.

Lemma clearSelection_selected m : selectedShapes (clearSelection m) = [].
Proof.
  unfold clearSelection.
  destruct (notifySelection_fields [] (clearPreviousSelections m)) as (_ & -> & _).
  apply clearPreviousSelections_spec.
Qed.

Lemma clearSelection_handles m : resizeHandles (clearSelection m) = [].
Proof.
  unfold clearSelection.
  destruct (notifySelection_fields [] (clearPreviousSelections m)) as (_ & _ & ->).
  unfold clearPreviousSelections. apply clearResizeHandles_fields.
Qed.

Lemma deselectShape_unfold i m m1 :
  m1 = updateShapeVisuals i false
         (with_selectedShapes m (JsSet.delete i (selectedShapes m))) ->
  deselectShape i m
  = if JsSet.has i (selectedShapes m) then
      notifySelection
        (selectedShapes (match selectedShapes m1 with
                         | [remainingId] =>
                             enableResize (createResizeHandles remainingId m1)
                         | _ => clearResizeHandles m1
                         end))
        (match selectedShapes m1 with
         | [remainingId] => enableResize (createResizeHandles remainingId m1)
         | _ => clearResizeHandles m1
         end)
    else m.
Proof. intros ->. reflexivity. Qed.

Lemma enableResize_selected m : selectedShapes (enableResize m) = selectedShapes m.
Proof. reflexivity. Qed.

Lemma rehandle_selected (m1 : ShapeManager) :
  selectedShapes (match selectedShapes m1 with
                  | [remainingId] => enableResize (createResizeHandles remainingId m1)
                  | _ => clearResizeHandles m1
                  end) = selectedShapes m1.
Proof.
  destruct (selectedShapes m1) as [|a [|b l]] eqn:E.
  - destruct (clearResizeHandles_fields m1) as (_ & -> & _). exact E.
  - rewrite enableResize_selected.
    destruct (createResizeHandles_fields a m1) as (_ & ->). exact E.
  - destruct (clearResizeHandles_fields m1) as (_ & -> & _). exact E.
Qed.

Lemma deselectShape_selected i m :
  selectedShapes (deselectShape i m) = JsSet.delete i (selectedShapes m).
Proof.
  rewrite (deselectShape_unfold i m _ eq_refl).
  destruct (JsSet.has i (selectedShapes m)) eqn:E.
  - match goal with |- context [notifySelection ?ids ?a] =>
      destruct (notifySelection_fields ids a) as (_ & -> & _) end.
    rewrite rehandle_selected, updateShapeVisuals_selected. reflexivity.
  - symmetry. apply delete_absent. exact E.
Qed.

Lemma created_ownedBy j m ids :
  ownedBy j (notifySelection ids (enableResize (createResizeHandles j m))).
Proof.
  unfold ownedBy.
  destruct (notifySelection_fields ids (enableResize (createResizeHandles j m)))
    as (_ & _ & ->).
  unfold enableResize. cbn [resizeHandles with_resizeHandles].
  intros h Hin. apply in_map_iff in Hin. destruct Hin as (h0 & <- & Hin0).
  cbn [shapeId set_resizeListener].
  pose proof (createResizeHandles_result j m) as [Hres _].
  destruct (JsMap.get j (shapes m)) as [sd|].
  - destruct Hres as [Hres _]. rewrite Hres in Hin0.
    apply (handlesFrom_shapeId _ _ _ _ _ Hin0).
  - destruct Hres as [Hres _]. rewrite Hres in Hin0. destruct Hin0.
Qed.

Lemma cleared_handles m ids :
  resizeHandles (notifySelection ids (clearResizeHandles m)) = [].
Proof.
  destruct (notifySelection_fields ids (clearResizeHandles m)) as (_ & _ & ->).
  apply clearResizeHandles_fields.
Qed.

Lemma follows_rehandle (m1 m' : ShapeManager) (ids : list string) :
  NoDup (selectedShapes m1) ->
  m' = notifySelection ids
         (match selectedShapes m1 with
          | [remainingId] => enableResize (createResizeHandles remainingId m1)
          | _ => clearResizeHandles m1
          end) ->
  handlesFollowSelection m'.
Proof.
  intros Hnd ->. unfold handlesFollowSelection.
  match goal with |- context [notifySelection ?ids ?a] =>
    destruct (notifySelection_fields ids a) as (_ & Hs & _) end.
  rewrite Hs, rehandle_selected. clear Hs.
  split; [exact Hnd|].
  destruct (selectedShapes m1) as [|a [|b l]] eqn:E.
  - split; [intros _; apply cleared_handles | intros j Hj; discriminate].
  - split; [intros H; simpl in H; congruence|].
    intros j Hj. injection Hj as <-. apply created_ownedBy.
  - split; [intros _; apply cleared_handles | intros j Hj; discriminate].
Qed.

Lemma follows_deselectShape i m :
  handlesFollowSelection m -> handlesFollowSelection (deselectShape i m).
Proof.
  intros Hm. rewrite (deselectShape_unfold i m _ eq_refl).
  destruct (JsSet.has i (selectedShapes m)); [|exact Hm].
  eapply follows_rehandle; [|reflexivity].
  rewrite updateShapeVisuals_selected. cbn [selectedShapes with_selectedShapes].
  apply delete_NoDup. apply Hm.
Qed.

Lemma addToSelection_rehandle i m0 m1 :
  m1 = updateShapeVisuals i true
         (with_selectedShapes m0 (JsSet.add i (selectedShapes m0))) ->
  (if Nat.eqb (List.length (selectedShapes m1)) 1
   then enableResize (createResizeHandles i m1)
   else clearResizeHandles m1)
  = match selectedShapes m1 with
    | [remainingId] => enableResize (createResizeHandles remainingId m1)
    | _ => clearResizeHandles m1
    end.
Proof.
  intros E.
  assert (Hin : In i (selectedShapes m1)).
  { rewrite E, updateShapeVisuals_selected. cbn [selectedShapes with_selectedShapes].
    apply has_In. rewrite has_add, String.eqb_refl. reflexivity. }
  destruct (selectedShapes m1) as [|a [|b l]]; [reflexivity| |reflexivity].
  destruct Hin as [-> | []]. reflexivity.
Qed.

Lemma follows_addToSelection i m :
  NoDup (selectedShapes m) -> handlesFollowSelection (addToSelection i m).
Proof.
  intros Hnd.
  remember (updateShapeVisuals i true
              (with_selectedShapes m (JsSet.add i (selectedShapes m)))) as m1 eqn:E.
  rewrite (addToSelection_unfold i m m1 E), (addToSelection_rehandle i m m1 E).
  eapply follows_rehandle; [|reflexivity].
  rewrite E, updateShapeVisuals_selected. cbn [selectedShapes with_selectedShapes].
  apply add_NoDup. exact Hnd.
Qed.

Lemma follows_selectShape i multiSelect m :
  handlesFollowSelection m -> handlesFollowSelection (selectShape i multiSelect m).
Proof.
  intros Hm. unfold selectShape. apply follows_addToSelection.
  destruct multiSelect; [apply Hm|].
  destruct (clearPreviousSelections_spec m) as [-> _]. constructor.
Qed.

Lemma follows_clearSelection m : handlesFollowSelection (clearSelection m).
Proof.
  unfold handlesFollowSelection. rewrite clearSelection_selected, clearSelection_handles.
  split; [constructor|]. split; [reflexivity | discriminate].
Qed.

(* ================================================================== *)
(** ** What the other methods keep *)

Lemma selectionKept_refl m : selectionKept m m.
Proof. split; reflexivity. Qed.

Lemma selectionKept_trans m1 m2 m3 :
  selectionKept m1 m2 -> selectionKept m2 m3 -> selectionKept m1 m3.
Proof. intros [A B] [C D]. split; congruence. Qed.

Lemma selectionKept_follows m m' :
  selectionKept m m' -> handlesFollowSelection m -> handlesFollowSelection m'.
Proof.
  intros [Hs Hh] (Hnd & Hnone & Hone). unfold handlesFollowSelection, ownedBy.
  rewrite Hs. split; [exact Hnd|]. split.
  - intros Hlen. specialize (Hnone Hlen). rewrite Hnone in Hh.
    destruct (resizeHandles m'); [reflexivity | discriminate].
  - intros j Hj h Hin. specialize (Hone j Hj).
    assert (Hin' : In (shapeId h) (map (@shapeId) (resizeHandles m)))
      by (rewrite <- Hh; apply in_map; exact Hin).
    apply in_map_iff in Hin'. destruct Hin' as (h0 & <- & Hin0).
    apply Hone. exact Hin0.
Qed.

Lemma selectionKept_fields m m' :
  selectedShapes m' = selectedShapes m -> resizeHandles m' = resizeHandles m ->
  selectionKept m m'.
Proof. intros A B. split; [exact A | rewrite B; reflexivity]. Qed.

Lemma selectionKept_destroy g m : selectionKept m (destroy g m).
Proof. apply selectionKept_fields; reflexivity. Qed.

Lemma selectionKept_removeShape i m : selectionKept m (removeShape i m).
Proof.
  unfold removeShape.
  destruct (JsMap.get i (shapes m)) as [sd|];
    match goal with |- context [JsMap.get i (labels ?a)] =>
      destruct (JsMap.get i (labels a)) end;
    apply selectionKept_fields; reflexivity.
Qed.

Lemma selectionKept_clear m : selectionKept m (clear m).
Proof.
  unfold clear. apply selectionKept_fields; cbn [selectedShapes resizeHandles
    with_labelsContainer with_shapesContainer with_shapesInScene with_labels with_shapes].
  - match goal with |- selectedShapes (fold_left ?f (labels ?a) ?a) = _ =>
      destruct (destroyAll_fields _ (fun e : string * Text => tid (snd e)) (labels a) a)
        as (_ & -> & _) end.
    destruct (destroyAll_fields _ (fun e : string * ShapeData => gid (graphics (snd e)))
                (shapes m) m) as (_ & -> & _). reflexivity.
  - match goal with |- resizeHandles (fold_left ?f (labels ?a) ?a) = _ =>
      destruct (destroyAll_fields _ (fun e : string * Text => tid (snd e)) (labels a) a)
        as (_ & _ & -> & _) end.
    destruct (destroyAll_fields _ (fun e : string * ShapeData => gid (graphics (snd e)))
                (shapes m) m) as (_ & _ & -> & _). reflexivity.
Qed.

Lemma selectionKept_enableResize m : selectionKept m (enableResize m).
Proof.
  split; [reflexivity|]. unfold enableResize. cbn [resizeHandles with_resizeHandles].
  rewrite map_map. reflexivity.
Qed.

Lemma repositionHandles_owners ps : forall hs,
  map (@shapeId) (repositionHandles ps hs) = map (@shapeId) hs.
Proof.
  induction ps as [|p ps IH]; intros [|h hs]; simpl; try reflexivity.
  rewrite IH. reflexivity.
Qed.

Lemma selectionKept_updateResizeHandles i m : selectionKept m (updateResizeHandles i m).
Proof.
  unfold updateResizeHandles. destruct (JsMap.get i (shapes m)) as [sd|];
    [|apply selectionKept_refl].
  split; [reflexivity|]. cbn [resizeHandles with_resizeHandles].
  apply repositionHandles_owners.
Qed.

Lemma selectionKept_updateShapeVisuals i selected m :
  selectionKept m (updateShapeVisuals i selected m).
Proof.
  unfold updateShapeVisuals. destruct (JsMap.get i (shapes m));
    apply selectionKept_fields; reflexivity.
Qed.

Lemma selectionKept_moved active sd s m :
  selectionKept m
    (updateResizeHandles active (updateShapeVisuals active true (set_shape active sd s m))).
Proof.
  eapply selectionKept_trans; [|apply selectionKept_updateResizeHandles].
  eapply selectionKept_trans; [|apply selectionKept_updateShapeVisuals].
  apply selectionKept_fields; reflexivity.
Qed.

Lemma selectionKept_handlePointerMove toLocal global m :
  selectionKept m (state_of (handlePointerMove toLocal global m)).
Proof.
  unfold handlePointerMove.
  destruct (isDragging m), (isResizing m), (truthy (activeShapeId m)) as [active|];
    try apply selectionKept_refl;
    (destruct (JsMap.get active (shapes m)) as [sd|]; [|apply selectionKept_refl]).
  - destruct (dragShape _ _ _) as [s|]; [|apply selectionKept_refl].
    apply selectionKept_moved.
  - destruct (dragShape _ _ _) as [s|]; [|apply selectionKept_refl].
    apply selectionKept_moved.
  - destruct (resizeShape _ _ _) as [s|]; [|apply selectionKept_refl].
    apply selectionKept_moved.
Qed.

Lemma selectionKept_dragPointerDown toLocal i g global m :
  selectionKept m (state_of (dragPointerDown toLocal i g global m)).
Proof.
  unfold dragPointerDown.
  destruct (isSelected i m && Container.hasChild g (shapesContainer m));
    [|apply selectionKept_refl].
  cbn [shapes with_activeShapeId with_isDragging].
  destruct (JsMap.get i (shapes m)) as [sd|]; [|apply selectionKept_fields; reflexivity].
  match goal with |- context [match ?r with Some _ => _ | None => _ end] =>
    destruct r end; apply selectionKept_fields; reflexivity.
Qed.

Lemma selectionKept_showHandles i m : selectionKept m (showHandles i m).
Proof.
  unfold showHandles. destruct (JsMap.get i (shapes m)); [|apply selectionKept_refl].
  split; [reflexivity|]. cbn [resizeHandles with_resizeHandles].
  rewrite map_map. reflexivity.
Qed.

Lemma selectionKept_cullShapes v m : selectionKept m (fst (cullShapes v m)).
Proof.
  rewrite cullShapes_unfold. cbv zeta. cbn [fst].
  match goal with |- selectionKept m (cullHandles ?a) =>
    apply (selectionKept_trans m a) end.
  - unfold ensureIndex. destruct (spatialIndex m); apply selectionKept_fields; reflexivity.
  - match goal with |- selectionKept ?a (cullHandles ?a) =>
      destruct (cullHandles_cases a) as [-> | [i ->]] end;
      [apply selectionKept_refl | apply selectionKept_showHandles].
Qed.

Lemma selectionKept_createNew s m : selectionKept m (fst (createNew s m)).
Proof. apply selectionKept_fields; reflexivity. Qed.

Lemma follows_perform toLocal op m :
  handlesFollowSelection m -> handlesFollowSelection (perform toLocal op m).
Proof.
  intros Hm. destruct op; cbn [perform].
  - apply (selectionKept_follows m); [apply selectionKept_fields; reflexivity | exact Hm].
  - apply (selectionKept_follows m); [apply selectionKept_fields; reflexivity | exact Hm].
  - apply (selectionKept_follows m); [apply selectionKept_removeShape | exact Hm].
  - apply (selectionKept_follows m); [apply selectionKept_clear | exact Hm].
  - apply follows_selectShape. exact Hm.
  - apply follows_deselectShape. exact Hm.
  - apply follows_clearSelection.
  - apply (selectionKept_follows m); [apply selectionKept_fields; reflexivity | exact Hm].
  - apply (selectionKept_follows m); [apply selectionKept_fields; reflexivity | exact Hm].
  - apply (selectionKept_follows m); [apply selectionKept_enableResize | exact Hm].
  - apply (selectionKept_follows m); [apply selectionKept_dragPointerDown | exact Hm].
  - destruct (nth_error (resizeHandles m) handle) as [h|]; [|exact Hm].
    destruct (resizeListener h); [|exact Hm].
    apply (selectionKept_follows m); [apply selectionKept_fields; reflexivity | exact Hm].
  - apply (selectionKept_follows m); [apply selectionKept_handlePointerMove | exact Hm].
  - apply (selectionKept_follows m); [apply selectionKept_fields; reflexivity | exact Hm].
  - apply (selectionKept_follows m); [apply selectionKept_createNew | exact Hm].
  - apply (selectionKept_follows m); [apply selectionKept_createNew | exact Hm].
  - apply (selectionKept_follows m); [apply selectionKept_createNew | exact Hm].
  - apply (selectionKept_follows m); [apply selectionKept_cullShapes | exact Hm].
Qed.

Lemma follows_from toLocal ops : forall m,
  handlesFollowSelection m ->
  handlesFollowSelection (fold_left (fun m op => perform toLocal op m) ops m).
Proof.
  induction ops as [|op ops IH]; intros m Hm; simpl; [exact Hm|].
  apply IH. apply follows_perform. exact Hm.
Qed.

Lemma follows_new : handlesFollowSelection newShapeManager.
Proof.
  split; [constructor|]. split; [reflexivity | discriminate].
Qed.

(** X9: in every state that a sequence of operations reaches from a new
    manager, the resize handles follow the selection: the selection
    holds no id twice, there is no handle unless exactly one shape is
    selected, and then every handle refers to the selected shape. *)
Theorem handles_follow_selection (toLocal : Coordinate -> Coordinate)
  (ops : list Operation) :
  NoDup (selectedShapes (run toLocal ops))
  /\ (List.length (selectedShapes (run toLocal ops)) <> 1%nat ->
      resizeHandles (run toLocal ops) = [])
  /\ (forall j h, selectedShapes (run toLocal ops) = [j] ->
        In h (resizeHandles (run toLocal ops)) -> shapeId h = Some j).
Proof.
  destruct (follows_from toLocal ops newShapeManager follows_new) as (A & B & C).
  split; [exact A|]. split; [exact B|].
  intros j h Hj Hin. exact (C j Hj h Hin).
Qed.

(* ================================================================== *)
(** ** Clicks on a shape *)

(** X10: the click handler of a shape.  A plain click leaves exactly the
    clicked shape selected, whatever was selected before and whether or
    not the store knows the id.  A click with the control (or meta) key
    toggles the clicked shape and leaves the membership of every other
    shape as it was; two such clicks in a row on a shape that was not
    selected restore the selection. *)
Theorem click_toggles_selection (m : ShapeManager) (i j : string) :
  NoDup (selectedShapes m) ->
  selectedShapes (shapeClicked i false m) = [i]
  /\ isSelected j (shapeClicked i true m)
     = (if String.eqb j i then negb (isSelected i m) else isSelected j m)
  /\ (isSelected i m = false ->
      selectedShapes (shapeClicked i true (shapeClicked i true m)) = selectedShapes m).
Proof.
  intros Hnd. unfold shapeClicked, isSelected. cbn [andb]. split; [|split].
  - rewrite selectShape_selected. reflexivity.
  - destruct (JsSet.has i (selectedShapes m)) eqn:E.
    + rewrite deselectShape_selected.
      destruct (String.eqb_spec j i) as [->|Hne].
      * apply has_delete_same. exact Hnd.
      * apply has_delete_other. exact Hne.
    + rewrite selectShape_selected, has_add.
      destruct (String.eqb_spec j i) as [->|Hne]; reflexivity.
  - intros E. rewrite E.
    assert (Hin : JsSet.has i (selectedShapes (selectShape i true m)) = true).
    { rewrite selectShape_selected, has_add, String.eqb_refl. reflexivity. }
    rewrite Hin. rewrite deselectShape_selected, selectShape_selected.
    apply delete_add_absent. exact E.
Qed.

Lemma click_toggles_selection_witness :
  selectedShapes (shapeClicked "a" false selectedManager) = ["a"%string]
  /\ isSelected "a" (shapeClicked "a" true selectedManager)
     = negb (isSelected "a" selectedManager).
Proof.
  assert (Hnd : NoDup (selectedShapes selectedManager)).
  { evaluate. constructor; [intros [] | constructor]. }
  destruct (click_toggles_selection selectedManager "a" "a" Hnd) as (H1 & H2 & _).
  rewrite String.eqb_refl in H2. split; [exact H1 | exact H2].
Defined.

(* ================================================================== *)
(** ** Notifications *)

Lemma notifySelection_events ids m :
  selectionEvents (notifySelection ids m)
  = selectionEvents m ++ (if selectionChangedCallback m then [ids] else [])
  /\ selectionChangedCallback (notifySelection ids m) = selectionChangedCallback m.
Proof.
  unfold notifySelection. destruct (selectionChangedCallback m) eqn:E; simpl.
  - auto.
  - rewrite app_nil_r. auto.
Qed.

Lemma updateShapeVisuals_events i selected m :
  selectionEvents (updateShapeVisuals i selected m) = selectionEvents m
  /\ selectionChangedCallback (updateShapeVisuals i selected m)
     = selectionChangedCallback m.
Proof. unfold updateShapeVisuals. destruct (JsMap.get i (shapes m)); auto. Qed.

Lemma revertAll_events l : forall m,
  selectionEvents (fold_left (fun m s => updateShapeVisuals s false m) l m)
  = selectionEvents m
  /\ selectionChangedCallback (fold_left (fun m s => updateShapeVisuals s false m) l m)
     = selectionChangedCallback m.
Proof.
  induction l as [|s l IH]; intros m; simpl; [auto|].
  destruct (IH (updateShapeVisuals s false m)) as [-> ->].
  apply updateShapeVisuals_events.
Qed.

Lemma clearPreviousSelections_events m :
  selectionEvents (clearPreviousSelections m) = selectionEvents m
  /\ selectionChangedCallback (clearPreviousSelections m) = selectionChangedCallback m.
Proof.
  unfold clearPreviousSelections.
  match goal with |- context [clearResizeHandles ?a] =>
    destruct (clearResizeHandles_container a) as (_ & _ & -> & ->) end.
  cbn [selectionEvents selectionChangedCallback with_selectedShapes].
  apply revertAll_events.
Qed.

Lemma rehandle_events (m1 : ShapeManager) :
  selectionEvents (match selectedShapes m1 with
                   | [remainingId] => enableResize (createResizeHandles remainingId m1)
                   | _ => clearResizeHandles m1
                   end) = selectionEvents m1
  /\ selectionChangedCallback
       (match selectedShapes m1 with
        | [remainingId] => enableResize (createResizeHandles remainingId m1)
        | _ => clearResizeHandles m1
        end) = selectionChangedCallback m1.
Proof.
  destruct (selectedShapes m1) as [|a [|b l]].
  - destruct (clearResizeHandles_container m1) as (_ & _ & -> & ->). auto.
  - unfold enableResize. cbn [selectionEvents selectionChangedCallback with_resizeHandles].
    destruct (createResizeHandles_result a m1) as (_ & -> & ->). auto.
  - destruct (clearResizeHandles_container m1) as (_ & _ & -> & ->). auto.
Qed.

Lemma addToSelection_events i m :
  selectionEvents (addToSelection i m)
  = selectionEvents m
    ++ (if selectionChangedCallback m then [JsSet.add i (selectedShapes m)] else []).
Proof.
  remember (updateShapeVisuals i true
              (with_selectedShapes m (JsSet.add i (selectedShapes m)))) as m1 eqn:E.
  rewrite (addToSelection_unfold i m m1 E), (addToSelection_rehandle i m m1 E).
  match goal with |- context [notifySelection ?ids ?a] =>
    destruct (notifySelection_events ids a) as [-> _] end.
  destruct (rehandle_events m1) as [-> ->]. rewrite rehandle_selected.
  rewrite E, updateShapeVisuals_selected.
  destruct (updateShapeVisuals_events i true
              (with_selectedShapes m (JsSet.add i (selectedShapes m)))) as [-> ->].
  reflexivity.
Qed.

Lemma selectShape_events i multiSelect m :
  selectionEvents (selectShape i multiSelect m)
  = selectionEvents m
    ++ (if selectionChangedCallback m
        then [selectedShapes (selectShape i multiSelect m)] else []).
Proof.
  rewrite selectShape_selected. unfold selectShape. rewrite addToSelection_events.
  destruct multiSelect; [reflexivity|].
  destruct (clearPreviousSelections_events m) as [-> ->].
  destruct (clearPreviousSelections_spec m) as [-> _]. reflexivity.
Qed.

Lemma deselectShape_events i m :
  selectionEvents (deselectShape i m)
  = selectionEvents m
    ++ (if selectionChangedCallback m && isSelected i m
        then [selectedShapes (deselectShape i m)] else []).
Proof.
  rewrite deselectShape_selected. unfold isSelected.
  rewrite (deselectShape_unfold i m _ eq_refl).
  destruct (JsSet.has i (selectedShapes m)).
  - match goal with |- context [notifySelection ?ids ?a] =>
      destruct (notifySelection_events ids a) as [-> _] end.
    rewrite rehandle_selected.
    match goal with |- context [selectedShapes (updateShapeVisuals i false ?a)] =>
      destruct (rehandle_events (updateShapeVisuals i false a)) as [-> ->];
      rewrite updateShapeVisuals_selected;
      destruct (updateShapeVisuals_events i false a) as [-> ->] end.
    rewrite andb_true_r. reflexivity.
  - rewrite andb_false_r, app_nil_r. reflexivity.
Qed.

Lemma clearSelection_events m :
  selectionEvents (clearSelection m)
  = selectionEvents m ++ (if selectionChangedCallback m then [[]] else []).
Proof.
  unfold clearSelection.
  destruct (notifySelection_events [] (clearPreviousSelections m)) as [-> _].
  destruct (clearPreviousSelections_events m) as [-> ->]. reflexivity.
Qed.

(** X11: notifications of the selection.  With a callback registered,
    [selectShape] and [clearSelection] call it exactly once, with the
    selection they leave (for [selectShape] also when the shape was
    already selected), and [deselectShape] calls it once when the shape
    was selected and not at all otherwise; without a callback nothing is
    recorded.  Earlier notifications are never changed. *)
Theorem selection_notified_once (m : ShapeManager) (i : string) (multiSelect : bool) :
  selectionEvents (selectShape i multiSelect m)
  = selectionEvents m
    ++ (if selectionChangedCallback m
        then [selectedShapes (selectShape i multiSelect m)] else [])
  /\ selectionEvents (deselectShape i m)
     = selectionEvents m
       ++ (if selectionChangedCallback m && isSelected i m
           then [selectedShapes (deselectShape i m)] else [])
  /\ selectionEvents (clearSelection m)
     = selectionEvents m ++ (if selectionChangedCallback m then [[]] else [])
  /\ selectionEvents (onSelectionChanged m) = selectionEvents m
  /\ selectionChangedCallback (onSelectionChanged m) = true.
Proof.
  split; [apply selectShape_events|].
  split; [apply deselectShape_events|].
  split; [apply clearSelection_events|].
  split; reflexivity.
Qed.

(* ================================================================== *)
(** ** Pointer moves *)

Lemma set_keys_present (V : Type) k (v v0 : V) l :
  JsMap.get k l = Some v0 -> JsMap.keys (JsMap.set k v l) = JsMap.keys l.
Proof.
  induction l as [|[k' v'] l IH]; simpl; [discriminate|].
  destruct (String.eqb k k') eqn:E.
  - apply String.eqb_eq in E. subst. reflexivity.
  - intros H. simpl. f_equal. apply IH. exact H.
Qed.

Lemma moved_movedTo a sd s m :
  JsMap.get a (shapes m) = Some sd ->
  movedTo a s sd m
    (updateResizeHandles a (updateShapeVisuals a true (set_shape a sd s m))).
Proof.
  intros Hget.
  assert (Hget1 : JsMap.get a (shapes (set_shape a sd s m))
                  = Some (mkShapeData (graphics sd) s (inScene sd))).
  { unfold set_shape. cbn [shapes with_shapes]. apply get_set_same. }
  assert (Husv : updateShapeVisuals a true (set_shape a sd s m)
                 = with_shapes (set_shape a sd s m)
                     (JsMap.set a
                        (mkShapeData (set_commands (graphics sd) (redraw s true)) s
                           (inScene sd))
                        (shapes (set_shape a sd s m)))).
  { unfold updateShapeVisuals. rewrite Hget1. reflexivity. }
  assert (Hget2 : JsMap.get a (shapes (updateShapeVisuals a true (set_shape a sd s m)))
                  = Some (mkShapeData (set_commands (graphics sd) (redraw s true)) s
                            (inScene sd))).
  { rewrite Husv. cbn [shapes with_shapes]. apply get_set_same. }
  assert (Hurh : updateResizeHandles a (updateShapeVisuals a true (set_shape a sd s m))
                 = with_resizeHandles (updateShapeVisuals a true (set_shape a sd s m))
                     (repositionHandles (handlePositions s)
                        (resizeHandles (updateShapeVisuals a true (set_shape a sd s m))))).
  { unfold updateResizeHandles. rewrite Hget2. reflexivity. }
  rewrite Hurh. unfold movedTo. cbn [shapes resizeHandles spatialIndex shapesContainer
    selectedShapes with_resizeHandles].
  split; [exact Hget2|]. rewrite Husv.
  cbn [shapes resizeHandles spatialIndex shapesContainer selectedShapes with_shapes].
  split; [|split; [|repeat split]].
  - intros j Hne. rewrite get_set_other by exact Hne.
    unfold set_shape. cbn [shapes with_shapes]. apply get_set_other. exact Hne.
  - rewrite (set_keys_present _ a _ _ _ Hget1).
    unfold set_shape. cbn [shapes with_shapes].
    apply (set_keys_present _ a _ _ _ Hget).
Qed.


Lemma replace_nth_length (A : Type) (f : A -> A) (l : list A) : forall n,
  List.length (replace_nth n f l) = List.length l.
Proof.
  induction l as [|a l IH]; intros [|n]; simpl; try reflexivity.
  rewrite IH. reflexivity.
Qed.

Lemma replace_nth_same (A : Type) (f : A -> A) (l : list A) : forall n a,
  nth_error l n = Some a -> nth_error (replace_nth n f l) n = Some (f a).
Proof.
  induction l as [|b l IH]; intros [|n] a; simpl; try discriminate.
  - intros H. inversion H. reflexivity.
  - apply IH.
Qed.

Lemma replace_nth_other (A : Type) (f : A -> A) (l : list A) : forall n k,
  k <> n -> nth_error (replace_nth n f l) k = nth_error l k.
Proof.
  induction l as [|b l IH]; intros [|n] [|k] Hne; simpl; try reflexivity.
  - contradiction.
  - apply IH. intros ->. apply Hne. reflexivity.
Qed.

(** X13: a pointer move while a vertex of a polygon is being resized.
    When the handle index is an index of the vertex list, that vertex
    and no other is set to the pointer position, so the polygon keeps
    its number of vertices, and the rest of the state is treated as in a
    drag.  When the index is not one (it is -1 for a handle without
    index), the move throws and leaves the state unchanged. *)
Theorem resize_moves_one_vertex (toLocal : Coordinate -> Coordinate)
  (m : ShapeManager) (global : Coordinate) (a : string) (index : Z)
  (sd : ShapeData) (i : string) (cs : list Coordinate) (st : ShapeStyle)
  (l : option string) :
  gesture m = ResizingVertex a index ->
  JsMap.get a (shapes m) = Some sd ->
  shape sd = polygon i cs st l ->
  if ((0 <=? index) && (index <? Z.of_nat (List.length cs)))%Z
  then exists m' cs',
         handlePointerMove toLocal global m = Returned m'
         /\ movedTo a (polygon i cs' st l) sd m m'
         /\ List.length cs' = List.length cs
         /\ nth_error cs' (Z.to_nat index) = Some (toLocal global)
         /\ (forall k, k <> Z.to_nat index -> nth_error cs' k = nth_error cs k)
  else handlePointerMove toLocal global m = Threw m.
Proof.
  intros Hg Hget Hshape.
  apply gesture_resizing in Hg. destruct Hg as (Hd & Hr & Ha & Hi).
  unfold handlePointerMove. rewrite Hd, Hr, Ha, Hget, Hi, Hshape.
  cbn [resizeShape]. unfold at_index.
  destruct (Z.ltb_spec index 0) as [Hneg | Hpos].
  - replace (0 <=? index)%Z with false by (symmetry; apply Z.leb_gt; exact Hneg).
    reflexivity.
  - replace (0 <=? index)%Z with true by (symmetry; apply Z.leb_le; exact Hpos).
    cbn [andb]. destruct (Z.ltb_spec index (Z.of_nat (List.length cs))) as [Hlt | Hge].
    + destruct (nth_error cs (Z.to_nat index)) as [c|] eqn:E.
      * eexists. exists (replace_nth (Z.to_nat index) (fun _ => toLocal global) cs).
        split; [reflexivity|]. split; [apply moved_movedTo; exact Hget|].
        split; [apply replace_nth_length|].
        split; [apply (replace_nth_same _ _ _ _ c E)|].
        intros k Hk. apply replace_nth_other. exact Hk.
      * apply nth_error_None in E. lia.
    + assert (E : nth_error cs (Z.to_nat index) = None) by (apply nth_error_None; lia).
      rewrite E. reflexivity.
Qed.


Lemma resize_moves_one_vertex_witness :
  exists m' cs',
    handlePointerMove identity (mkCoordinate 2 3) resizedTriangle = Returned m'
    /\ movedTo "a" (polygon "a" cs' plainStyle None) triangleData resizedTriangle m'
    /\ List.length cs' = 3%nat
    /\ nth_error cs' 1 = Some (mkCoordinate 2 3)
    /\ (forall k, k <> 1%nat ->
        nth_error cs' k
        = nth_error [mkCoordinate 0 0; mkCoordinate 1 0; mkCoordinate 0 1] k).
Proof.
  apply (resize_moves_one_vertex identity resizedTriangle (mkCoordinate 2 3) "a" 1%Z
           triangleData "a" [mkCoordinate 0 0; mkCoordinate 1 0; mkCoordinate 0 1]
           plainStyle None).
  - evaluate. reflexivity.
  - evaluate. reflexivity.
  - reflexivity.
Defined.

(* ================================================================== *)
(** ** The spatial index is built once *)

Lemma destroyAll_index (A : Type) (f : A -> nat) (l : list A) : forall m,
  spatialIndex (fold_left (fun m a => destroy (f a) m) l m) = spatialIndex m.
Proof.
  induction l as [|a l IH]; intros m; simpl; [reflexivity|].
  rewrite IH. reflexivity.
Qed.

Lemma clearResizeHandles_index m :
  spatialIndex (clearResizeHandles m) = spatialIndex m.
Proof.
  unfold clearResizeHandles. cbn [spatialIndex with_resizeHandlesContainer
    with_resizeHandles]. apply destroyAll_index.
Qed.

Lemma newHandles_index sid ps : forall index m,
  spatialIndex (newHandles sid ps index m) = spatialIndex m.
Proof.
  induction ps as [|p ps IH]; intros index m; simpl; [reflexivity|].
  rewrite IH. reflexivity.
Qed.

Lemma createResizeHandles_index sid m :
  spatialIndex (createResizeHandles sid m) = spatialIndex m.
Proof.
  unfold createResizeHandles.
  destruct (JsMap.get sid (shapes (clearResizeHandles m)));
    rewrite ?newHandles_index; apply clearResizeHandles_index.
Qed.

Lemma notifySelection_index ids m :
  spatialIndex (notifySelection ids m) = spatialIndex m.
Proof. unfold notifySelection. destruct (selectionChangedCallback m); reflexivity. Qed.

Lemma updateShapeVisuals_index i selected m :
  spatialIndex (updateShapeVisuals i selected m) = spatialIndex m.
Proof. unfold updateShapeVisuals. destruct (JsMap.get i (shapes m)); reflexivity. Qed.

Lemma revertAll_index l : forall m,
  spatialIndex (fold_left (fun m s => updateShapeVisuals s false m) l m)
  = spatialIndex m.
Proof.
  induction l as [|s l IH]; intros m; simpl; [reflexivity|].
  rewrite IH. apply updateShapeVisuals_index.
Qed.

Lemma clearPreviousSelections_index m :
  spatialIndex (clearPreviousSelections m) = spatialIndex m.
Proof.
  unfold clearPreviousSelections. rewrite clearResizeHandles_index.
  cbn [spatialIndex with_selectedShapes]. apply revertAll_index.
Qed.

Lemma rehandle_index (m1 : ShapeManager) :
  spatialIndex (match selectedShapes m1 with
                | [remainingId] => enableResize (createResizeHandles remainingId m1)
                | _ => clearResizeHandles m1
                end) = spatialIndex m1.
Proof.
  destruct (selectedShapes m1) as [|a [|b l]].
  - apply clearResizeHandles_index.
  - unfold enableResize. cbn [spatialIndex with_resizeHandles].
    apply createResizeHandles_index.
  - apply clearResizeHandles_index.
Qed.

Lemma addToSelection_index i m : spatialIndex (addToSelection i m) = spatialIndex m.
Proof.
  remember (updateShapeVisuals i true
              (with_selectedShapes m (JsSet.add i (selectedShapes m)))) as m1 eqn:E.
  rewrite (addToSelection_unfold i m m1 E), (addToSelection_rehandle i m m1 E).
  rewrite notifySelection_index, rehandle_index, E, updateShapeVisuals_index.
  reflexivity.
Qed.

Lemma selectShape_index i multiSelect m :
  spatialIndex (selectShape i multiSelect m) = spatialIndex m.
Proof.
  unfold selectShape. rewrite addToSelection_index.
  destruct multiSelect; [reflexivity | apply clearPreviousSelections_index].
Qed.

Lemma deselectShape_index i m : spatialIndex (deselectShape i m) = spatialIndex m.
Proof.
  rewrite (deselectShape_unfold i m _ eq_refl).
  destruct (JsSet.has i (selectedShapes m)); [|reflexivity].
  rewrite notifySelection_index, rehandle_index, updateShapeVisuals_index.
  reflexivity.
Qed.

Lemma clearSelection_index m : spatialIndex (clearSelection m) = spatialIndex m.
Proof.
  unfold clearSelection. rewrite notifySelection_index.
  apply clearPreviousSelections_index.
Qed.

Lemma removeShape_index i m : spatialIndex (removeShape i m) = spatialIndex m.
Proof.
  unfold removeShape.
  destruct (JsMap.get i (shapes m)) as [sd|];
    match goal with |- context [JsMap.get i (labels ?a)] =>
      destruct (JsMap.get i (labels a)) end; reflexivity.
Qed.

Lemma clear_index m : spatialIndex (clear m) = spatialIndex m.
Proof.
  unfold clear. cbn [spatialIndex with_labelsContainer with_shapesContainer
    with_shapesInScene with_labels with_shapes].
  rewrite destroyAll_index. apply destroyAll_index.
Qed.

Lemma updateResizeHandles_index i m :
  spatialIndex (updateResizeHandles i m) = spatialIndex m.
Proof. unfold updateResizeHandles. destruct (JsMap.get i (shapes m)); reflexivity. Qed.

Lemma handlePointerMove_index toLocal global m :
  spatialIndex (state_of (handlePointerMove toLocal global m)) = spatialIndex m.
Proof.
  unfold handlePointerMove.
  destruct (isDragging m), (isResizing m), (truthy (activeShapeId m)) as [active|];
    try reflexivity;
    (destruct (JsMap.get active (shapes m)) as [sd|]; [|reflexivity]);
    match goal with |- context [match ?r with Some _ => _ | None => _ end] =>
      destruct r as [s|] end; try reflexivity; cbn [state_of];
    rewrite updateResizeHandles_index, updateShapeVisuals_index; reflexivity.
Qed.

Lemma dragPointerDown_index toLocal i g global m :
  spatialIndex (state_of (dragPointerDown toLocal i g global m)) = spatialIndex m.
Proof.
  unfold dragPointerDown.
  destruct (isSelected i m && Container.hasChild g (shapesContainer m)); [|reflexivity].
  cbn [shapes with_activeShapeId with_isDragging].
  destruct (JsMap.get i (shapes m)) as [sd|]; [|reflexivity].
  match goal with |- context [match ?r with Some _ => _ | None => _ end] =>
    destruct r end; reflexivity.
Qed.

Lemma perform_index toLocal op m :
  op <> BuildSpatialIndex -> isCull op = false ->
  spatialIndex (perform toLocal op m) = spatialIndex m.
Proof.
  destruct op; cbn [perform isCull]; intros Hb Hc; try discriminate; try reflexivity.
  - contradiction.
  - apply removeShape_index.
  - apply clear_index.
  - apply selectShape_index.
  - apply deselectShape_index.
  - apply clearSelection_index.
  - apply dragPointerDown_index.
  - destruct (nth_error (resizeHandles m) handle) as [h|]; [|reflexivity].
    destruct (resizeListener h); reflexivity.
  - apply handlePointerMove_index.
Qed.

(** A cull pass against an index without an item for [i] leaves the
    index and flags every entry of [i] out of the scene. *)
Lemma cull_unindexed v m index i :
  spatialIndex m = Some index ->
  (forall item, In item index -> item_id item <> i) ->
  spatialIndex (fst (cullShapes v m)) = Some index
  /\ forall sd, In (i, sd) (shapes (fst (cullShapes v m))) -> inScene sd = false.
Proof.
  intros Hidx Hno. split.
  - rewrite cullShapes_index. unfold ensureIndex, currentIndex.
    rewrite Hidx. rewrite Hidx. reflexivity.
  - intros sd Hin.
    apply cullShapes_entry in Hin. destruct Hin as (sd0 & _ & _ & _ & ->).
    unfold wanted. cbn [fst snd].
    destruct (JsSet.has i (candidates v m)) eqn:E; [|reflexivity].
    apply candidates_sound in E. destruct E as (item & _ & Hitem & Hid & _).
    unfold ensureIndex, currentIndex in Hitem. rewrite Hidx in Hitem.
    rewrite Hidx in Hitem. exfalso. apply (Hno item Hitem Hid).
Qed.

Lemma unindexed_perform toLocal op m index i :
  op <> BuildSpatialIndex ->
  spatialIndex m = Some index ->
  (forall item, In item index -> item_id item <> i) ->
  (forall sd, In (i, sd) (shapes m) -> inScene sd = false) ->
  spatialIndex (perform toLocal op m) = Some index
  /\ forall sd, In (i, sd) (shapes (perform toLocal op m)) -> inScene sd = false.
Proof.
  intros Hb Hidx Hno Hout. destruct (isCull op) eqn:Hc.
  - destruct op; try discriminate. cbn [perform].
    apply cull_unindexed; assumption.
  - split.
    + rewrite perform_index by assumption. exact Hidx.
    + intros sd' Hin.
      destruct (preserves_perform toLocal op m Hc) as [_ [_ Hkept]].
      destruct (Hkept i sd' Hin) as [(sd & Hin0 & _ & Hflag) | [Hflag _]].
      * rewrite <- Hflag. apply Hout. exact Hin0.
      * exact Hflag.
Qed.

Lemma unindexed_from toLocal index i ops : forall m,
  Forall (fun op => op <> BuildSpatialIndex) ops ->
  spatialIndex m = Some index ->
  (forall item, In item index -> item_id item <> i) ->
  (forall sd, In (i, sd) (shapes m) -> inScene sd = false) ->
  spatialIndex (fold_left (fun m op => perform toLocal op m) ops m) = Some index
  /\ forall sd,
       In (i, sd) (shapes (fold_left (fun m op => perform toLocal op m) ops m)) ->
       inScene sd = false.
Proof.
  induction ops as [|op ops IH]; intros m Hall Hidx Hno Hout; simpl.
  - split; assumption.
  - inversion Hall as [|? ? Hop Hrest]; subst.
    destruct (unindexed_perform toLocal op m index i Hop Hidx Hno Hout) as [Hidx' Hout'].
    apply IH; assumption.
Qed.

(** X14: the spatial index is built once and never refreshed.  From a
    state whose index is built and holds no item for the id [i] (a shape
    added or created afterwards), no sequence of operations that does
    not call [buildSpatialIndex] changes the index, and after each such
    sequence every entry stored under [i] is flagged out of the scene:
    no cull pass shows the shape, whatever the viewport. *)
Theorem late_shape_never_shown (toLocal : Coordinate -> Coordinate)
  (ops : list Operation) (m : ShapeManager) (index : list RBushItem) (i : string) :
  spatialIndex m = Some index ->
  (forall item, In item index -> item_id item <> i) ->
  (forall sd, In (i, sd) (shapes m) -> inScene sd = false) ->
  Forall (fun op => op <> BuildSpatialIndex) ops ->
  spatialIndex (fold_left (fun m op => perform toLocal op m) ops m) = Some index
  /\ forall sd,
       In (i, sd) (shapes (fold_left (fun m op => perform toLocal op m) ops m)) ->
       inScene sd = false.
Proof.
  intros Hidx Hno Hout Hall.
  apply (unindexed_from toLocal index i ops m Hall Hidx Hno Hout).
Qed.


(* ================================================================== *)
(** ** The bounds of a list of shapes *)

Lemma xltb_xleb a b : Num.xltb a b = negb (Num.xleb b a).
Proof.
  destruct a as [|r|], b as [|s|]; try reflexivity.
  unfold Num.xltb, Num.xleb, Num.ltb, Num.leb.
  destruct (Rlt_dec r s), (Rle_dec s r); try reflexivity; exfalso; lra.
Qed.

Lemma min_extend a r :
  WorldBounds.min a (Num.Finite r)
  = if Num.xltb (Num.Finite r) a then Num.Finite r else a.
Proof.
  unfold WorldBounds.min. rewrite xltb_xleb.
  destruct (Num.xleb a (Num.Finite r)); reflexivity.
Qed.

Lemma max_extend a r :
  WorldBounds.max a (Num.Finite r)
  = if Num.xgtb (Num.Finite r) a then Num.Finite r else a.
Proof.
  unfold WorldBounds.max, Num.xgtb.
  destruct a as [|s|]; try reflexivity.
  unfold Num.xltb, Num.xleb, Num.ltb, Num.leb.
  destruct (Rlt_dec s r), (Rle_dec s r); try reflexivity; try (exfalso; lra).
  f_equal. lra.
Qed.

Lemma grow_extendBounds b c : WorldBounds.grow b c = extendBounds b c.
Proof.
  unfold WorldBounds.grow, extendBounds. rewrite !min_extend, !max_extend.
  reflexivity.
Qed.

Lemma growShape_extend s b :
  WorldBounds.growShape b s = fold_left extendBounds (shape_vertices s) b.
Proof.
  unfold WorldBounds.growShape. generalize (shape_vertices s) as cs. intros cs.
  revert b. induction cs as [|c cs IH]; intros b; simpl; [reflexivity|].
  rewrite grow_extendBounds. apply IH.
Qed.

Lemma fold_growShape shapes : forall b,
  fold_left WorldBounds.growShape shapes b
  = fold_left extendBounds (allVertices shapes) b.
Proof.
  induction shapes as [|s shapes IH]; intros b; simpl; [reflexivity|].
  rewrite IH, growShape_extend.
  unfold allVertices. simpl. rewrite fold_left_app. reflexivity.
Qed.

Lemma encloses_isFinite b cs :
  encloses b cs ->
  negb (WorldBounds.isFinite (minX b)) || negb (WorldBounds.isFinite (maxX b))
  || negb (WorldBounds.isFinite (minY b)) || negb (WorldBounds.isFinite (maxY b))
  = false.
Proof. intros [(x0 & y0 & x1 & y1 & -> & _) _]. reflexivity. Qed.

(** X15: the bounds of a list of shapes, in both revisions of the
    importer.  When the shapes have at least one vertex (the centre of a
    point counts), the two revisions agree: the box has finite sides,
    contains every vertex and touches one on each side.  When they have
    none, the unchecked revision returns the inverted infinite box and
    the checked one the box with all sides 0. *)
Theorem worldBounds_enclose (shapes : list Shape) :
  match allVertices shapes with
  | [] =>
      WorldBounds.calculateBounds shapes = emptyBounds
      /\ WorldBounds.calculateBoundsChecked shapes = WorldBounds.zeroBounds
  | _ :: _ =>
      encloses (WorldBounds.calculateBounds shapes) (allVertices shapes)
      /\ (forall c, In c (allVertices shapes) ->
            inBox (WorldBounds.calculateBounds shapes) c)
      /\ WorldBounds.calculateBoundsChecked shapes = WorldBounds.calculateBounds shapes
  end.
Proof.
  unfold WorldBounds.calculateBounds, WorldBounds.calculateBoundsChecked.
  rewrite fold_growShape.
  destruct (allVertices shapes) as [|c cs] eqn:E.
  - split; [reflexivity|]. destruct shapes as [|s rest]; reflexivity.
  - pose proof (bounds_of_vertices c cs) as Henc.
    split; [exact Henc|]. split.
    + intros c' Hin. apply (encloses_inBox _ (c :: cs) c' Henc Hin).
    + destruct shapes as [|s rest]; [discriminate|]. cbv zeta.
      rewrite (encloses_isFinite _ _ Henc). reflexivity.
Qed.

(* ================================================================== *)
(** ** The two revisions of the importer *)








(* ================================================================== *)
(** ** The stress-test generator *)

Section GeneratorFacts.
Variable random : nat -> R.
Variable config : StressTest.StressTestConfig.













End GeneratorFacts.


(* ================================================================== *)
(** ** The host: one cull pass per frame *)

Lemma moved_pending v h :
  frameCallbacks h = (if cullingScheduled h then 1 else 0)%nat ->
  frameCallbacks (viewportMoved v h) = 1%nat
  /\ cullingScheduled (viewportMoved v h) = true
  /\ manager (viewportMoved v h) = manager h
  /\ viewportNow (viewportMoved v h) = v.
Proof.
  unfold viewportMoved, updateCulling. cbn [cullingScheduled].
  destruct (cullingScheduled h) eqn:E; cbn; intros H; auto.
Qed.

Lemma frame_pending h :
  frameCallbacks h = (if cullingScheduled h then 1 else 0)%nat ->
  frameCallbacks (animationFrame h) = 0%nat
  /\ cullingScheduled (animationFrame h) = false
  /\ manager (animationFrame h)
     = (if cullingScheduled h then fst (cullShapes (viewportNow h) (manager h))
        else manager h)
  /\ viewportNow (animationFrame h) = viewportNow h.
Proof.
  unfold animationFrame. destruct (cullingScheduled h) eqn:E; intros ->; cbn; auto.
Qed.

Lemma pending_step h e :
  frameCallbacks h = (if cullingScheduled h then 1 else 0)%nat ->
  frameCallbacks (hostStep h e)
  = (if cullingScheduled (hostStep h e) then 1 else 0)%nat.
Proof.
  intros H. destruct e as [v|]; cbn [hostStep].
  - destruct (moved_pending v h H) as (-> & -> & _). reflexivity.
  - destruct (frame_pending h H) as (-> & -> & _). reflexivity.
Qed.

Lemma pending_run events : forall h,
  frameCallbacks h = (if cullingScheduled h then 1 else 0)%nat ->
  frameCallbacks (fold_left hostStep events h)
  = (if cullingScheduled (fold_left hostStep events h) then 1 else 0)%nat.
Proof.
  induction events as [|e events IH]; intros h H; simpl; [exact H|].
  apply IH. apply pending_step. exact H.
Qed.

Lemma moves_pending vs : forall h v,
  frameCallbacks h = (if cullingScheduled h then 1 else 0)%nat ->
  frameCallbacks (fold_left (fun h v => viewportMoved v h) (vs ++ [v]) h) = 1%nat
  /\ cullingScheduled (fold_left (fun h v => viewportMoved v h) (vs ++ [v]) h) = true
  /\ manager (fold_left (fun h v => viewportMoved v h) (vs ++ [v]) h) = manager h
  /\ viewportNow (fold_left (fun h v => viewportMoved v h) (vs ++ [v]) h) = v.
Proof.
  induction vs as [|v0 vs IH]; intros h v H; simpl.
  - apply moved_pending. exact H.
  - destruct (moved_pending v0 h H) as (Hc & Hs & Hm & _).
    destruct (IH (viewportMoved v0 h) v) as (A & B & C & D).
    { rewrite Hc, Hs. reflexivity. }
    rewrite C, Hm. auto.
Qed.

(** X18: the host culls at most once per frame.  After any sequence of
    viewport changes and animation frames, at most one cull callback is
    pending, and it is pending exactly when the flag [cullingScheduled]
    is set.  Any number of viewport changes before the next frame leave
    the manager untouched, and that frame runs a single cull pass, with
    the bounds the viewport has then, and clears the flag. *)
Theorem culling_coalesced (m : ShapeManager) (v0 : ViewportBounds)
  (events : list HostEvent) (vs : list ViewportBounds) (v : ViewportBounds) :
  frameCallbacks (fold_left hostStep events (newHost m v0))
  = (if cullingScheduled (fold_left hostStep events (newHost m v0)) then 1 else 0)%nat
  /\ manager (fold_left (fun h v => viewportMoved v h) (vs ++ [v])
                (fold_left hostStep events (newHost m v0)))
     = manager (fold_left hostStep events (newHost m v0))
  /\ manager (animationFrame
                (fold_left (fun h v => viewportMoved v h) (vs ++ [v])
                   (fold_left hostStep events (newHost m v0))))
     = fst (cullShapes v (manager (fold_left hostStep events (newHost m v0))))
  /\ cullingScheduled
       (animationFrame
          (fold_left (fun h v => viewportMoved v h) (vs ++ [v])
             (fold_left hostStep events (newHost m v0)))) = false
  /\ frameCallbacks
       (animationFrame
          (fold_left (fun h v => viewportMoved v h) (vs ++ [v])
             (fold_left hostStep events (newHost m v0)))) = 0%nat.
Proof.
  assert (H : frameCallbacks (fold_left hostStep events (newHost m v0))
              = (if cullingScheduled (fold_left hostStep events (newHost m v0))
                 then 1 else 0)%nat)
    by (apply pending_run; reflexivity).
  generalize dependent (fold_left hostStep events (newHost m v0)). intros h H.
  split; [exact H|].
  destruct (moves_pending vs h v H) as (A & B & C & D).
  split; [exact C|].
  assert (H' : frameCallbacks (fold_left (fun h v => viewportMoved v h) (vs ++ [v]) h)
               = (if cullingScheduled
                       (fold_left (fun h v => viewportMoved v h) (vs ++ [v]) h)
                  then 1 else 0)%nat) by (rewrite A, B; reflexivity).
  destruct (frame_pending _ H') as (E & F & G & _).
  rewrite G, B, C, D. auto.
Qed.

(* ================================================================== *)
(** ** Graphics that lose their entry *)

Lemma orphanKept_refl g m : orphanKept g m m.
Proof. intros Hwf. auto. Qed.

Lemma orphanKept_trans g m1 m2 m3 :
  orphanKept g m1 m2 -> orphanKept g m2 m3 -> orphanKept g m1 m3.
Proof.
  intros H12 H23 Hwf. destruct (H12 Hwf) as [Hwf2 Ho2].
  destruct (H23 Hwf2) as [Hwf3 Ho3]. auto.
Qed.

Lemma frame_orphanKept g m m' : frame m m' -> orphanKept g m m'.
Proof.
  intros Hf Hwf. split; [apply (frame_wellFormed m m' Hf Hwf)|].
  pose proof (frame_storeIds m m' Hf) as Hids.
  destruct Hf as (_ & Hc & _ & Hh & _).
  unfold orphan. rewrite Hids, Hc, Hh. auto.
Qed.

Lemma orphanKept_clearResizeHandles g m : orphanKept g m (clearResizeHandles m).
Proof.
  intros Hwf. split; [apply (preserves_clearResizeHandles m), Hwf|].
  destruct (clearResizeHandles_fields m) as (Hs & _ & Hh & _).
  intros (Hc & Hno & Hnh). unfold orphan, storeIds, handleIds.
  rewrite Hs, Hh, clearResizeHandles_scene. simpl. tauto.
Qed.

Lemma orphanKept_newHandle g sid p index m : orphanKept g m (newHandle sid p index m).
Proof.
  intros Hwf. split; [apply (preserves_newHandle sid p index m), Hwf|].
  intros (Hc & Hno & Hnh). unfold orphan, storeIds, handleIds. simpl.
  split; [exact Hc|]. split; [exact Hno|].
  rewrite map_app, in_app_iff. simpl. intros [Hin | [Heq | []]].
  - apply Hnh. exact Hin.
  - apply (wf_children m Hwf) in Hc. lia.
Qed.

Lemma orphanKept_newHandles g sid ps : forall index m,
  orphanKept g m (newHandles sid ps index m).
Proof.
  induction ps as [|p ps IH]; intros index m; simpl; [apply orphanKept_refl|].
  eapply orphanKept_trans; [apply orphanKept_newHandle | apply IH].
Qed.

Lemma orphanKept_createResizeHandles g sid m :
  orphanKept g m (createResizeHandles sid m).
Proof.
  unfold createResizeHandles.
  destruct (JsMap.get sid (shapes (clearResizeHandles m)));
    [|apply orphanKept_clearResizeHandles].
  eapply orphanKept_trans; [apply orphanKept_clearResizeHandles|].
  apply orphanKept_newHandles.
Qed.

Lemma orphanKept_clearPreviousSelections g m :
  orphanKept g m (clearPreviousSelections m).
Proof.
  unfold clearPreviousSelections.
  eapply orphanKept_trans; [|apply orphanKept_clearResizeHandles].
  apply frame_orphanKept.
  eapply frame_trans; [apply frame_revertAll | apply frame_with_selectedShapes].
Qed.

Lemma orphanKept_rehandle g (m1 : ShapeManager) :
  orphanKept g m1
    (match selectedShapes m1 with
     | [remainingId] => enableResize (createResizeHandles remainingId m1)
     | _ => clearResizeHandles m1
     end).
Proof.
  destruct (selectedShapes m1) as [|a [|b l]];
    try apply orphanKept_clearResizeHandles.
  eapply orphanKept_trans; [apply orphanKept_createResizeHandles|].
  apply frame_orphanKept, frame_enableResize.
Qed.

Lemma orphanKept_addToSelection g i m : orphanKept g m (addToSelection i m).
Proof.
  remember (updateShapeVisuals i true
              (with_selectedShapes m (JsSet.add i (selectedShapes m)))) as m1 eqn:E.
  rewrite (addToSelection_unfold i m m1 E), (addToSelection_rehandle i m m1 E).
  eapply orphanKept_trans; [|apply frame_orphanKept, frame_notifySelection].
  apply (orphanKept_trans g m m1); [|apply orphanKept_rehandle].
  rewrite E. apply frame_orphanKept.
  eapply frame_trans; [apply frame_with_selectedShapes | apply frame_updateShapeVisuals].
Qed.

Lemma orphanKept_selectShape g i multiSelect m :
  orphanKept g m (selectShape i multiSelect m).
Proof.
  unfold selectShape. destruct multiSelect.
  - apply orphanKept_addToSelection.
  - eapply orphanKept_trans;
      [apply orphanKept_clearPreviousSelections | apply orphanKept_addToSelection].
Qed.

Lemma orphanKept_deselectShape g i m : orphanKept g m (deselectShape i m).
Proof.
  rewrite (deselectShape_unfold i m _ eq_refl).
  destruct (JsSet.has i (selectedShapes m)); [|apply orphanKept_refl].
  eapply orphanKept_trans; [|apply frame_orphanKept, frame_notifySelection].
  eapply orphanKept_trans; [|apply orphanKept_rehandle].
  apply frame_orphanKept.
  eapply frame_trans; [apply frame_with_selectedShapes | apply frame_updateShapeVisuals].
Qed.

Lemma orphanKept_clearSelection g m : orphanKept g m (clearSelection m).
Proof.
  unfold clearSelection.
  eapply orphanKept_trans; [apply orphanKept_clearPreviousSelections|].
  apply frame_orphanKept, frame_notifySelection.
Qed.

Lemma orphanKept_addShape g s m : orphanKept g m (fst (addShape s m)).
Proof.
  intros Hwf. split; [apply (preserves_addShape s m), Hwf|].
  intros (Hc & Hno & Hnh). unfold orphan, addShape, storeIds, handleIds.
  cbn [fst shapesContainer shapes resizeHandles with_shapes with_nextGraphics].
  split; [exact Hc|]. split; [|exact Hnh].
  intros Hin. apply in_map_iff in Hin. destruct Hin as (e & He & Hin).
  apply set_In in Hin. destruct Hin as [-> | Hin].
  - unfold entryId in He. simpl in He. apply (wf_children m Hwf) in Hc. lia.
  - apply Hno. unfold storeIds. rewrite <- He. apply in_map. exact Hin.
Qed.

Lemma orphanKept_createNew g s m : orphanKept g m (fst (createNew s m)).
Proof.
  unfold createNew.
  pose proof (orphanKept_addShape g s m) as Hadd.
  destruct (addShape s m) as [m1 g1]. cbn [fst] in *.
  eapply orphanKept_trans; [exact Hadd|].
  apply frame_orphanKept, frame_enableDragAndDrop.
Qed.

Lemma orphanKept_removeShape g i m : orphanKept g m (removeShape i m).
Proof.
  intros Hwf. split; [apply (preserves_removeShape i m), Hwf|].
  intros (Hc & Hno & Hnh). unfold removeShape.
  pose proof (wf_labels m Hwf) as L.
  destruct (JsMap.get i (shapes m)) as [sd|] eqn:E; simpl; rewrite L; simpl;
    [|unfold orphan; auto].
  unfold orphan, storeIds, handleIds. simpl.
  assert (Hne : g <> gid (graphics sd)).
  { intros ->. apply Hno. unfold storeIds.
    change (gid (graphics sd)) with (entryId (i, sd)).
    apply in_map. apply get_In. exact E. }
  split; [|split; [|exact Hnh]].
  - apply removeChild_In. split; [|exact Hne].
    apply removeChild_In. split; [exact Hc | exact Hne].
  - intros Hin. apply Hno. unfold storeIds. apply in_map_iff in Hin.
    destruct Hin as (e & <- & Hin). apply in_map. apply delete_In in Hin. exact Hin.
Qed.

Lemma orphanKept_cullShapes g v m : orphanKept g m (fst (cullShapes v m)).
Proof.
  intros Hwf. split; [apply wellFormed_cullShapes; exact Hwf|].
  intros Ho.
  assert (Hwf0 : WellFormed (ensureIndex m))
    by (apply (frame_wellFormed m); [apply frame_ensureIndex | exact Hwf]).
  assert (Ho0 : orphan g (ensureIndex m)).
  { apply (frame_orphanKept g m _ (frame_ensureIndex m) Hwf). exact Ho. }
  pose proof (cullLoop_scene (candidates v m) (lodLevel (zoomOutFactor v))
                (shapes (ensureIndex m))
                (mkCull 0 0 0 0 (shapesContainer (ensureIndex m))
                   (shapesInScene (ensureIndex m))) (wf_distinct _ Hwf0)) as Hloop.
  cbv zeta in Hloop. fold (cullResult v m) in Hloop.
  destruct Hloop as (Hother & _ & Hids). cbn [children] in *.
  destruct Ho0 as (Hc & Hno & Hnh).
  rewrite cullShapes_unfold. cbv zeta. cbn [fst].
  match goal with |- orphan g (cullHandles (cullLabels ?a)) =>
    assert (Ha : orphan g a) end.
  { unfold orphan, storeIds, handleIds. simpl. split; [|split].
    - apply Hother; assumption.
    - rewrite Hids. exact Hno.
    - exact Hnh. }
  match goal with |- orphan g (cullHandles (cullLabels ?a)) =>
    pose proof (frame_trans _ _ _ (frame_cullLabels a) (frame_cullHandles (cullLabels a)))
      as Hf end.
  pose proof (frame_storeIds _ _ Hf) as Hs.
  destruct Hf as (_ & Hfc & _ & Hfh & _).
  unfold orphan. rewrite Hs, Hfc, Hfh. exact Ha.
Qed.

Lemma orphanKept_perform g toLocal op m :
  op <> Clear -> orphanKept g m (perform toLocal op m).
Proof.
  intros Hop. destruct op; cbn [perform].
  - apply orphanKept_addShape.
  - apply frame_orphanKept. unfold frame. simpl. auto.
  - apply orphanKept_removeShape.
  - contradiction.
  - apply orphanKept_selectShape.
  - apply orphanKept_deselectShape.
  - apply orphanKept_clearSelection.
  - apply frame_orphanKept. unfold frame. simpl. auto.
  - apply frame_orphanKept, frame_enableDragAndDrop.
  - apply frame_orphanKept, frame_enableResize.
  - apply frame_orphanKept, frame_dragPointerDown.
  - destruct (nth_error (resizeHandles m) handle) as [h|]; [|apply orphanKept_refl].
    destruct (resizeListener h); [|apply orphanKept_refl].
    apply frame_orphanKept, frame_resizePointerDown.
  - apply frame_orphanKept, frame_handlePointerMove.
  - apply frame_orphanKept, frame_handlePointerUp.
  - unfold createNewPolygon. apply orphanKept_createNew.
  - unfold createNewLine. apply orphanKept_createNew.
  - unfold createNewPoint. apply orphanKept_createNew.
  - apply orphanKept_cullShapes.
Qed.

Lemma orphanKept_from g toLocal ops : forall m,
  Forall (fun op => op <> Clear) ops ->
  orphanKept g m (fold_left (fun m op => perform toLocal op m) ops m).
Proof.
  induction ops as [|op ops IH]; intros m Hall; simpl; [apply orphanKept_refl|].
  inversion Hall as [|? ? Hop Hrest]; subst.
  eapply orphanKept_trans; [apply orphanKept_perform; exact Hop | apply IH; exact Hrest].
Qed.

Lemma set_replaced_id k v l sd e :
  JsMap.get k l = Some sd -> NoDup (map entryId l) ->
  In e (JsMap.set k v l) -> e = (k, v) \/ entryId e <> gid (graphics sd).
Proof.
  induction l as [|[k' v'] l IH]; simpl; [discriminate|].
  intros Hget Hnd Hin. inversion Hnd as [|? ? Hnotin Hnd']; subst.
  destruct (String.eqb k k') eqn:Ek.
  - inversion Hget; subst. destruct Hin as [<- | Hin]; [left; reflexivity|].
    right. intros Heq. apply Hnotin.
    change (entryId (k', sd)) with (gid (graphics sd)). rewrite <- Heq.
    apply in_map. exact Hin.
  - destruct Hin as [<- | Hin].
    + right. intros Heq. apply Hnotin. apply get_In in Hget.
      rewrite Heq. change (gid (graphics sd)) with (entryId (k, sd)).
      apply in_map. exact Hget.
    + apply IH; assumption.
Qed.

Lemma replaced_orphan s m sd :
  WellFormed m -> JsMap.get (shape_id s) (shapes m) = Some sd -> inScene sd = true ->
  orphan (gid (graphics sd)) (fst (addShape s m)).
Proof.
  intros Hwf Hget Hflag.
  assert (Hin : In (shape_id s, sd) (shapes m)) by (apply get_In; exact Hget).
  assert (Hatt : In (gid (graphics sd)) (shapesContainer m))
    by (apply (wf_scene m Hwf (shape_id s) sd Hin); exact Hflag).
  unfold orphan, addShape, storeIds, handleIds.
  cbn [fst shapesContainer shapes resizeHandles with_shapes with_nextGraphics].
  split; [exact Hatt|]. split.
  - intros Hs. apply in_map_iff in Hs. destruct Hs as (e & He & Hs).
    destruct (set_replaced_id _ _ _ sd e Hget (wf_distinct m Hwf) Hs) as [-> | Hne].
    + unfold entryId in He. simpl in He.
      apply (wf_children m Hwf) in Hatt. lia.
    + apply Hne. exact He.
  - intros Hh. apply (wf_handles m Hwf) in Hh. destruct Hh as [_ Hno].
    apply Hno. unfold storeIds. change (gid (graphics sd)) with (entryId (shape_id s, sd)).
    apply in_map. exact Hin.
Qed.

(** X19: [addShape] under an id that is in use replaces the entry
    without detaching the graphics it held.  When that graphics was
    shown, it stays a child of the shape container and no entry of the
    store refers to it any more; this remains so after every sequence of
    operations that does not call [clear] (culling, removing the shape,
    selecting, dragging): the old drawing can no longer be hidden. *)
Theorem replaced_graphics_stay (toLocal : Coordinate -> Coordinate)
  (ops0 ops : list Operation) (s : Shape) (sd : ShapeData) :
  JsMap.get (shape_id s) (shapes (run toLocal ops0)) = Some sd ->
  inScene sd = true ->
  Forall (fun op => op <> Clear) ops ->
  In (gid (graphics sd))
     (shapesContainer
        (fold_left (fun m op => perform toLocal op m) ops
           (fst (addShape s (run toLocal ops0)))))
  /\ forall i sd',
       In (i, sd')
          (shapes (fold_left (fun m op => perform toLocal op m) ops
                     (fst (addShape s (run toLocal ops0))))) ->
       gid (graphics sd') <> gid (graphics sd).
Proof.
  intros Hget Hflag Hall.
  pose proof (wellFormed_run toLocal ops0) as Hwf.
  pose proof (replaced_orphan s _ sd Hwf Hget Hflag) as Ho.
  assert (Hwf1 : WellFormed (fst (addShape s (run toLocal ops0))))
    by (apply (preserves_addShape s _), Hwf).
  destruct (orphanKept_from (gid (graphics sd)) toLocal ops _ Hall Hwf1) as [_ Hk].
  destruct (Hk Ho) as (Hc & Hno & _).
  split; [exact Hc|].
  intros i sd' Hin Heq. apply Hno. unfold storeIds. rewrite <- Heq.
  change (gid (graphics sd')) with (entryId (i, sd')). apply in_map. exact Hin.
Qed.


(* ================================================================== *)
(** ** Drawing *)

Lemma orElse_ifDefined (v : option R) (d : R) :
  v <> Some 0 -> Num.orElse v d = Num.ifDefined v d.
Proof.
  destruct v as [r|]; [|reflexivity]. intros Hne. unfold Num.orElse, Num.eqb. simpl.
  destruct (Req_dec_T r 0) as [->|]; [contradiction | reflexivity].
Qed.

Lemma orElse_ifDefined_zero (d : R) :
  d <> 0 -> Num.orElse (Some 0) d <> Num.ifDefined (Some 0) d.
Proof.
  intros Hd. unfold Num.orElse, Num.ifDefined, Num.eqb.
  destruct (Req_dec_T 0 0) as [_|Hne]; [exact Hd | exfalso; apply Hne; reflexivity].
Qed.

Lemma fill_stroke_agree (first : DrawCmd) (st : ShapeStyle) (join : bool) :
  first
  :: match truthy (fillColor st) with
     | Some c => [fill (hexToNumber c) (Some (Num.ifDefined (opacity st) 1))]
     | None => []
     end
  ++ [stroke (Num.orElse (borderWidth st) 1) (strokeColor st) join]
  = first
    :: match truthy (fillColor st) with
       | Some c => [fill (hexToNumber c) (Some (Num.orElse (opacity st) 1))]
       | None => []
       end
    ++ match truthy (borderColor st) with
       | Some c => [stroke (Num.orElse (borderWidth st) 1) (hexToNumber c) join]
       | None => []
       end
  <-> truthy (borderColor st) <> None
      /\ (truthy (fillColor st) = None \/ opacity st <> Some 0).
Proof.
  unfold strokeColor. split.
  - intros H. destruct (truthy (borderColor st)) as [b|].
    + split; [discriminate|].
      destruct (truthy (fillColor st)) as [f|]; [right | left; reflexivity].
      intros Ho. rewrite Ho in H. simpl in H. inversion H as [Ha].
      apply (orElse_ifDefined_zero 1); [lra | symmetry; exact Ha].
    + exfalso. destruct (truthy (fillColor st)); simpl in H; discriminate H.
  - intros [Hb Hf]. destruct (truthy (borderColor st)) as [b|]; [|contradiction].
    destruct Hf as [-> | Ho]; [reflexivity|].
    rewrite (orElse_ifDefined _ 1 Ho). reflexivity.
Qed.

Lemma redraw_restores s : redraw s false = createGraphics s <-> restorable s.
Proof.
  destruct s as [i cs st l | i ps st l | i c st r l]; simpl.
  - destruct cs as [|c cs]; [tauto|]. unfold createPolygon.
    apply fill_stroke_agree.
  - unfold createLine. tauto.
  - unfold createPoint. apply fill_stroke_agree.
Qed.

Lemma clearSelection_get (m : ShapeManager) (i : string) :
  selectedShapes m = [i] ->
  JsMap.get i (shapes (clearSelection m))
  = option_map (repainted false) (JsMap.get i (shapes m)).
Proof.
  intros Hsel. unfold clearSelection.
  destruct (notifySelection_fields [] (clearPreviousSelections m)) as (-> & _).
  destruct (clearPreviousSelections_spec m) as [_ ->]. rewrite Hsel.
  cbn [fold_left]. rewrite updateShapeVisuals_get, String.eqb_refl. reflexivity.
Qed.

Lemma selectShape_get i m :
  JsMap.get i (shapes (selectShape i false m))
  = option_map (repainted true) (JsMap.get i (shapes (clearPreviousSelections m))).
Proof.
  rewrite selectShape_single, addToSelection_get, String.eqb_refl. reflexivity.
Qed.

Lemma updateShapeVisuals_essence j selected m i :
  option_map (fun sd => (shape sd, inScene sd, gid (graphics sd)))
    (JsMap.get i (shapes (updateShapeVisuals j selected m)))
  = option_map (fun sd => (shape sd, inScene sd, gid (graphics sd)))
      (JsMap.get i (shapes m)).
Proof.
  rewrite updateShapeVisuals_get.
  destruct (String.eqb_spec i j) as [->|Hne]; [|reflexivity].
  destruct (JsMap.get j (shapes m)); reflexivity.
Qed.

Lemma revertAll_essence l i : forall m,
  option_map (fun sd => (shape sd, inScene sd, gid (graphics sd)))
    (JsMap.get i (shapes (fold_left (fun m s => updateShapeVisuals s false m) l m)))
  = option_map (fun sd => (shape sd, inScene sd, gid (graphics sd)))
      (JsMap.get i (shapes m)).
Proof.
  induction l as [|s l IH]; intros m; simpl; [reflexivity|].
  rewrite IH. apply updateShapeVisuals_essence.
Qed.

Lemma clearPreviousSelections_essence m i :
  option_map (fun sd => (shape sd, inScene sd, gid (graphics sd)))
    (JsMap.get i (shapes (clearPreviousSelections m)))
  = option_map (fun sd => (shape sd, inScene sd, gid (graphics sd)))
      (JsMap.get i (shapes m)).
Proof.
  destruct (clearPreviousSelections_spec m) as [_ ->]. apply revertAll_essence.
Qed.

(** X20: selecting a shape and clearing the selection redraws it with
    [updateShapeVisuals], not with the routine that drew it when it was
    added.  The entry keeps its shape and its flag, and its graphics
    shows the unselected drawing.  This is the drawing [addShape] made
    exactly when the shape is a line, or a polygon without vertices, or
    has a style with a border colour and, if it has a fill colour, an
    opacity other than 0: without a border colour the redrawn shape gets
    a black border, and a fill of opacity 0 is drawn with opacity 1 by
    [addShape] only. *)
Theorem deselect_redraws (m : ShapeManager) (i : string) (sd : ShapeData) :
  JsMap.get i (shapes m) = Some sd ->
  exists sd',
    JsMap.get i (shapes (clearSelection (selectShape i false m))) = Some sd'
    /\ shape sd' = shape sd
    /\ inScene sd' = inScene sd
    /\ gid (graphics sd') = gid (graphics sd)
    /\ commands (graphics sd') = redraw (shape sd) false
    /\ (commands (graphics sd') = createGraphics (shape sd) <-> restorable (shape sd)).
Proof.
  intros Hget.
  assert (Hsel : selectedShapes (selectShape i false m) = [i])
    by (rewrite selectShape_selected; reflexivity).
  rewrite (clearSelection_get _ i Hsel), selectShape_get.
  assert (H0 : exists sd0, JsMap.get i (shapes (clearPreviousSelections m)) = Some sd0
                           /\ shape sd0 = shape sd /\ inScene sd0 = inScene sd
                           /\ gid (graphics sd0) = gid (graphics sd)).
  { pose proof (clearPreviousSelections_essence m i) as He. rewrite Hget in He.
    destruct (JsMap.get i (shapes (clearPreviousSelections m))) as [sd0|];
      [|discriminate].
    exists sd0. simpl in He. inversion He. auto. }
  destruct H0 as (sd0 & -> & Hshape & Hflag & Hgid).
  eexists. split; [reflexivity|]. cbn [repainted shape inScene graphics set_commands
    gid commands]. rewrite Hshape.
  repeat split; auto; apply redraw_restores.
Qed.

Lemma deselect_redraws_witness :
  exists sd',
    JsMap.get "q" (shapes (clearSelection (selectShape "q" false markedManager)))
    = Some sd'
    /\ shape sd' = markedPoint
    /\ inScene sd' = false
    /\ gid (graphics sd') = 0%nat
    /\ commands (graphics sd') = createGraphics markedPoint.
Proof.
  assert (Hget : JsMap.get "q" (shapes markedManager) = Some markedData)
    by (evaluate; reflexivity).
  destruct (deselect_redraws markedManager "q" markedData Hget)
    as (sd' & H1 & H2 & H3 & H4 & _ & H6).
  exists sd'. split; [exact H1|]. split; [exact H2|]. split; [exact H3|].
  split; [exact H4|]. apply H6. split; [discriminate | right; discriminate].
Defined.

(* ================================================================== *)
(** ** The start of a drag *)

Lemma first_vertex s :
  match s with
  | polygon _ coords _ _ => nth_error coords 0
  | point _ c _ _ _ => Some c
  | line _ pts _ _ => nth_error pts 0
  end = nth_error (shape_vertices s) 0.
Proof. destruct s; reflexivity. Qed.

Lemma dragShape_no_vertex localPos offset s :
  shape_vertices s = [] -> dragShape localPos offset s = None.
Proof.
  destruct s as [i cs st l | i ps st l | i c st r l]; simpl; intros H;
    [subst; reflexivity | subst; reflexivity | discriminate].
Qed.

(** X21: pointer-down on the graphics of a shape that is selected and
    attached arms a drag: the manager is dragging that shape, with the
    offset of the pointer from the first vertex (the centre of a point).
    For a polygon or a line without a vertex the listener throws after
    it has armed the drag, so that every later pointer move throws too,
    leaving the state as it is, until pointer-up disarms the gesture;
    for the empty id the drag is armed but no move ever acts on it.
    On a shape that is not selected, or whose graphics is detached, the
    listener does nothing. *)
Theorem pointer_down_arms_drag (toLocal : Coordinate -> Coordinate)
  (m : ShapeManager) (i : string) (g : nat) (global later : Coordinate)
  (sd : ShapeData) :
  JsMap.get i (shapes m) = Some sd ->
  (isSelected i m && Container.hasChild g (shapesContainer m) = false ->
   dragPointerDown toLocal i g global m = Returned m)
  /\ (isSelected i m && Container.hasChild g (shapesContainer m) = true ->
      exists m',
        state_of (dragPointerDown toLocal i g global m) = m'
        /\ isDragging m' = true /\ activeShapeId m' = Some i
        /\ shapes m' = shapes m /\ selectedShapes m' = selectedShapes m
        /\ gesture m' = (if String.eqb i "" then Idle else Dragging i (dragOffset m'))
        /\ match shape_vertices (shape sd) with
           | p :: _ =>
               dragPointerDown toLocal i g global m = Returned m'
               /\ dragOffset m'
                  = mkCoordinate (x (toLocal global) - x p) (y (toLocal global) - y p)
           | [] =>
               dragPointerDown toLocal i g global m = Threw m'
               /\ dragOffset m' = dragOffset m
               /\ (i <> ""%string -> handlePointerMove toLocal later m' = Threw m')
               /\ gesture (handlePointerUp m') = Idle
           end).
Proof.
  intros Hget. unfold dragPointerDown. split; intros Hc; rewrite Hc; [reflexivity|].
  cbn [shapes with_activeShapeId with_isDragging]. rewrite Hget, first_vertex.
  assert (Hgest : forall offset,
    gesture (with_dragOffset (with_activeShapeId (with_isDragging m true) (Some i)) offset)
    = (if String.eqb i "" then Idle else Dragging i offset)).
  { intros offset. unfold gesture. cbn. destruct i; reflexivity. }
  destruct (shape_vertices (shape sd)) as [|p rest] eqn:Ev; cbn [nth_error].
  - eexists. split; [reflexivity|]. cbn [state_of].
    split; [reflexivity|]. split; [reflexivity|]. split; [reflexivity|].
    split; [reflexivity|]. split.
    { unfold gesture. cbn. destruct i; reflexivity. }
    split; [reflexivity|]. split; [reflexivity|]. split; [|reflexivity].
    intros Hne. unfold handlePointerMove. cbn.
    destruct i as [|a i']; [contradiction|]. cbn. rewrite Hget.
    rewrite (dragShape_no_vertex _ _ _ Ev). reflexivity.
  - eexists. split; [reflexivity|]. cbn [state_of].
    split; [reflexivity|]. split; [reflexivity|]. split; [reflexivity|].
    split; [reflexivity|]. split; [apply Hgest|]. split; reflexivity.
Qed.

Lemma pointer_down_arms_drag_witness :
  exists m',
    dragPointerDown identity "e" 0 (mkCoordinate 1 1) shownEmptyPolygon = Threw m'
    /\ isDragging m' = true
    /\ handlePointerMove identity (mkCoordinate 2 2) m' = Threw m'.
Proof.
  assert (Hget : JsMap.get "e" (shapes shownEmptyPolygon) = Some selectedEmptyPolygonData)
    by (evaluate; reflexivity).
  destruct (pointer_down_arms_drag identity shownEmptyPolygon "e" 0 (mkCoordinate 1 1)
              (mkCoordinate 2 2) selectedEmptyPolygonData Hget) as [_ H].
  destruct H as (m' & Hm & Hd & _ & _ & _ & _ & Hthrow & _ & Hmove & _).
  { evaluate. reflexivity. }
  exists m'. split; [exact Hthrow|]. split; [exact Hd|].
  apply Hmove. discriminate.
Defined.

(* ================================================================== *)
(** ** Shapes created from the toolbar *)

Lemma toString_inj n n' : Num.toString n = Num.toString n' -> n = n'.
Proof.
  unfold Num.toString. intros H.
  apply (f_equal NilEmpty.uint_of_string) in H. rewrite !NilEmpty.usu in H.
  inversion H as [Hu]. apply (f_equal Nat.of_uint) in Hu.
  rewrite !DecimalNat.Unsigned.of_to in Hu. exact Hu.
Qed.

Lemma enableDragAndDrop_get i g m k :
  option_map (@shape) (JsMap.get k (shapes (enableDragAndDrop i g m)))
  = option_map (@shape) (JsMap.get k (shapes m)).
Proof.
  unfold enableDragAndDrop. cbn [shapes with_shapes].
  induction (shapes m) as [|[k' sd] l IH]; simpl; [reflexivity|].
  destruct (Nat.eqb (gid (graphics sd)) g); simpl;
    (destruct (String.eqb k k'); [reflexivity | exact IH]).
Qed.

Lemma createNew_lookup s m :
  snd (createNew s m) = s
  /\ getShapeById (shape_id s) (fst (createNew s m)) = Some s
  /\ getShapeCount (fst (createNew s m))
     = (if isSome _ (JsMap.get (shape_id s) (shapes m))
        then getShapeCount m else S (getShapeCount m)).
Proof.
  unfold createNew, addShape. cbn [fst snd]. split; [reflexivity|]. split.
  - unfold getShapeById. rewrite enableDragAndDrop_get.
    cbn [shapes with_shapes with_nextGraphics]. rewrite get_set_same. reflexivity.
  - unfold getShapeCount, enableDragAndDrop.
    cbn [shapes with_shapes with_nextGraphics]. rewrite length_map. apply set_length.
Qed.

Lemma createNew_twice s1 s2 m :
  shape_id s2 = shape_id s1 ->
  getShapeCount (fst (createNew s2 (fst (createNew s1 m))))
  = getShapeCount (fst (createNew s1 m))
  /\ getShapeById (shape_id s1) (fst (createNew s2 (fst (createNew s1 m)))) = Some s2.
Proof.
  intros Hid.
  destruct (createNew_lookup s2 (fst (createNew s1 m))) as (_ & Hsecond & ->).
  destruct (createNew_lookup s1 m) as (_ & Hfirst & _).
  rewrite Hid in *. split; [|exact Hsecond].
  unfold getShapeById in Hfirst.
  destruct (JsMap.get (shape_id s1) (shapes (fst (createNew s1 m))));
    [reflexivity | discriminate].
Qed.

(** X22: the ids of the shapes the toolbar creates.  The id is the kind
    followed by the clock reading, so shapes of different kinds never
    share an id and two shapes of one kind share it exactly when they
    are created at the same reading.  In that case, for each of the
    three kinds, the second creation replaces the entry of the first:
    the store does not grow and a lookup under the id gives the second
    shape. *)
Theorem created_ids (m : ShapeManager) (px py size px' py' size' : R)
  (now now' : nat) :
  (shape_id (snd (createNewPolygon px py size now m))
   = shape_id (snd (createNewPolygon px' py' size' now' m)) <-> now = now')
  /\ (shape_id (snd (createNewLine px py size now m))
      = shape_id (snd (createNewLine px' py' size' now' m)) <-> now = now')
  /\ (shape_id (snd (createNewPoint px py size now m))
      = shape_id (snd (createNewPoint px' py' size' now' m)) <-> now = now')
  /\ shape_id (snd (createNewPolygon px py size now m))
     <> shape_id (snd (createNewLine px' py' size' now' m))
  /\ shape_id (snd (createNewPolygon px py size now m))
     <> shape_id (snd (createNewPoint px' py' size' now' m))
  /\ shape_id (snd (createNewLine px py size now m))
     <> shape_id (snd (createNewPoint px' py' size' now' m))
  /\ getShapeCount
       (fst (createNewPolygon px' py' size' now
               (fst (createNewPolygon px py size now m))))
     = getShapeCount (fst (createNewPolygon px py size now m))
  /\ getShapeById (shape_id (snd (createNewPolygon px py size now m)))
       (fst (createNewPolygon px' py' size' now
               (fst (createNewPolygon px py size now m))))
     = Some (snd (createNewPolygon px' py' size' now
                    (fst (createNewPolygon px py size now m))))
  /\ getShapeCount
       (fst (createNewLine px' py' size' now
               (fst (createNewLine px py size now m))))
     = getShapeCount (fst (createNewLine px py size now m))
  /\ getShapeById (shape_id (snd (createNewLine px py size now m)))
       (fst (createNewLine px' py' size' now
               (fst (createNewLine px py size now m))))
     = Some (snd (createNewLine px' py' size' now
                    (fst (createNewLine px py size now m))))
  /\ getShapeCount
       (fst (createNewPoint px' py' size' now
               (fst (createNewPoint px py size now m))))
     = getShapeCount (fst (createNewPoint px py size now m))
  /\ getShapeById (shape_id (snd (createNewPoint px py size now m)))
       (fst (createNewPoint px' py' size' now
               (fst (createNewPoint px py size now m))))
     = Some (snd (createNewPoint px' py' size' now
                    (fst (createNewPoint px py size now m)))).
Proof.
  unfold createNewPolygon, createNewLine, createNewPoint.
  repeat match goal with |- context [snd (createNew ?s ?a)] =>
    replace (snd (createNew s a)) with s by (symmetry; apply createNew_lookup) end.
  split; [split; [intros H; simpl in H; inversion H as [Hs]; apply toString_inj; exact Hs
                 | intros ->; reflexivity]|].
  split; [split; [intros H; simpl in H; inversion H as [Hs]; apply toString_inj; exact Hs
                 | intros ->; reflexivity]|].
  split; [split; [intros H; simpl in H; inversion H as [Hs]; apply toString_inj; exact Hs
                 | intros ->; reflexivity]|].
  split; [intros H; simpl in H; discriminate|].
  split; [intros H; simpl in H; discriminate|].
  split; [intros H; simpl in H; discriminate|].
  split; [apply createNew_twice; reflexivity|].
  split; [apply createNew_twice; reflexivity|].
  split; [apply createNew_twice; reflexivity|].
  split; [apply createNew_twice; reflexivity|].
  split; apply createNew_twice; reflexivity.
Qed.

(* ================================================================== *)
(** ** A store of ten shapes *)

Lemma crowd_index : currentIndex (ensureIndex crowdedManager) = crowdIndex.
Proof. reflexivity. Qed.

Lemma crowd_boxes item :
  In item crowdIndex ->
  item = mkItem emptyBounds "e" \/ snug (bufferedBounds crowdViewport) (bbox item).
Proof.
  unfold crowdIndex, crowd. cbn [map].
  intros H. repeat (destruct H as [<- | H]; [|]); try (left; reflexivity);
    try (destruct H).
  all: right; unfold snug, proper, RBush.contains, bufferedBounds, crowdViewport,
         BUFFER_PERCENT, pointAt; simpl; unfold Num.orElse;
       split; repeat (apply andb_true_iff; split); apply leb_true_iff; lra.
Qed.

(** Five different items of the sample make a leaf whose box the grown
    viewport contains. *)
Lemma crowd_leaf a b rest :
  (forall item, In item (a :: b :: rest) -> In item crowdIndex) ->
  a <> b ->
  snug (bufferedBounds crowdViewport) (RBush.nodeBox (RBush.leaf (a :: b :: rest))).
Proof.
  intros Hsub Hab. apply leaf_snug.
  - intros item Hin. destruct (crowd_boxes item (Hsub item Hin)) as [-> | H]; auto.
  - destruct (crowd_boxes a (Hsub a (or_introl eq_refl))) as [Ha | Ha].
    + destruct (crowd_boxes b (Hsub b (or_intror (or_introl eq_refl)))) as [Hb | Hb].
      * congruence.
      * exists b. split; [right; left; reflexivity | exact Hb].
    + exists a. split; [left; reflexivity | exact Ha].
Qed.

(** Whatever the arrangement, the search over the ten items returns
    all of them, the item of the polygon without vertices included. *)
Lemma crowd_search item :
  In item crowdIndex ->
  In item (search crowdIndex (bufferedBounds crowdViewport)).
Proof.
  intros Hin. unfold search, RBush.load.
  change (Nat.leb (List.length crowdIndex) RBush.maxEntries) with false. cbv iota.
  pose proof (rearrange_Permutation _ (arrange crowdIndex) crowdIndex) as Hperm.
  assert (Hnd : NoDup (RBush.rearrange (arrange crowdIndex) crowdIndex)).
  { apply (Permutation_NoDup (Permutation_sym Hperm)).
    unfold crowdIndex, crowd. cbn [map].
    repeat constructor; simpl; intros H;
      repeat (destruct H as [H | H]; [discriminate H|]); exact H. }
  assert (Hlen : List.length (RBush.rearrange (arrange crowdIndex) crowdIndex) = 10%nat)
    by (rewrite (Permutation_length Hperm); reflexivity).
  assert (Hsub : forall it, In it (RBush.rearrange (arrange crowdIndex) crowdIndex)
                            -> In it crowdIndex)
    by (intros it; apply (Permutation_in it Hperm)).
  apply (Permutation_in item (Permutation_sym Hperm)) in Hin.
  change (List.length crowdIndex) with 10%nat.
  destruct (RBush.rearrange (arrange crowdIndex) crowdIndex)
    as [|x0 [|x1 [|x2 [|x3 [|x4 [|x5 [|x6 [|x7 [|x8 [|x9 [|x10 l]]]]]]]]]]];
    try discriminate Hlen.
  change (RBush.build 10 0 [x0; x1; x2; x3; x4; x5; x6; x7; x8; x9])
    with (RBush.inner [RBush.leaf [x0; x1; x2; x3; x4];
                       RBush.leaf [x5; x6; x7; x8; x9]]).
  apply search_children_snug.
  - intros child [<- | [<- | []]]; apply crowd_leaf.
    + intros it H. apply Hsub. simpl in *. tauto.
    + intros ->. inversion Hnd as [|? ? Hno _]. apply Hno. left. reflexivity.
    + intros it H. apply Hsub. simpl in *. tauto.
    + intros ->. apply NoDup_cons_iff in Hnd. destruct Hnd as [_ Hnd].
      apply NoDup_cons_iff in Hnd. destruct Hnd as [_ Hnd].
      apply NoDup_cons_iff in Hnd. destruct Hnd as [_ Hnd].
      apply NoDup_cons_iff in Hnd. destruct Hnd as [_ Hnd].
      apply NoDup_cons_iff in Hnd. destruct Hnd as [_ Hnd].
      inversion Hnd as [|? ? Hno _]. apply Hno. left. reflexivity.
  - apply all_inner. simpl in Hin.
    destruct Hin as [<- | [<- | [<- | [<- | [<- | Hin]]]]].
    1-5: exists (RBush.leaf [x0; x1; x2; x3; x4]); split;
           [left; reflexivity | simpl; tauto].
    exists (RBush.leaf [x5; x6; x7; x8; x9]). split; [right; left; reflexivity|].
    simpl. tauto.
Qed.

(** So the cull pass takes the polygon without vertices for a
    candidate and flags it. *)
Lemma crowd_candidate :
  JsSet.has "e" (candidates crowdViewport crowdedManager) = true.
Proof.
  unfold candidates. rewrite crowd_index. apply has_In, ofList_In, in_map_iff.
  exists (mkItem emptyBounds "e"). split; [reflexivity|].
  apply crowd_search. unfold crowdIndex, crowd. cbn [map].
  do 9 right. left. reflexivity.
Qed.

Lemma crowd_flagged :
  In ("e"%string,
      mkShapeData (mkGraphics 9 (createGraphics emptyPolygon) "e" ["e"%string])
        emptyPolygon true)
     (shapes (fst (cullShapes crowdViewport crowdedManager))).
Proof.
  rewrite cullShapes_shapes. apply in_map_iff.
  exists ("e"%string,
          mkShapeData (mkGraphics 9 (createGraphics emptyPolygon) "e"
                         ["e"%string]) emptyPolygon false).
  split.
  - unfold reconciled, wanted. cbn [fst snd shape is_line emptyPolygon].
    rewrite crowd_candidate, andb_false_r. reflexivity.
  - evaluate. do 9 right. left. reflexivity.
Qed.

End Index.

(* ================================================================== *)
(** ** The statements at sample inputs

    The arrangement is fixed to [inOrder].  It plays no part in the
    samples of at most nine shapes, which [load] does not arrange at
    all; the ten items of [crowd] come in increasing order of [minX] and
    of [minY], which the selection routine leaves as it is, and the
    outcome there is the same for every arrangement ([crowd_search]). *)

Lemma cullShapes_attached_sound_witness :
  (exists index item,
      spatialIndex (fst (cullShapes inOrder sampleViewport pointManager)) = Some index
      /\ index = currentIndex (ensureIndex pointManager)
      /\ In item index /\ item_id item = "p"%string
      /\ In item (search inOrder index (bufferedBounds sampleViewport))
      /\ (proper (bbox item) = true ->
          intersects (bufferedBounds sampleViewport) (bbox item) = true))
  /\ ((1 <= lodLevel (zoomOutFactor sampleViewport))%nat ->
      is_line samplePoint = false).
Proof.
  apply (cullShapes_attached_sound inOrder sampleViewport pointManager "p"
           (mkShapeData (mkGraphics 0 (createGraphics samplePoint) "p" [])
              samplePoint true)).
  - rewrite cullShapes_shapes.
    change (shapes pointManager)
      with [("p"%string,
             mkShapeData (mkGraphics 0 (createGraphics samplePoint) "p" [])
               samplePoint false)].
    cbn [map]. left. unfold reconciled, wanted. cbn [fst snd shape].
    rewrite (sample_candidate inOrder), sample_lodLevel. reflexivity.
  - reflexivity.
Defined.

(** With ten shapes in the store the polygon without vertices is
    flagged by the cull pass, although the only item the index holds
    under its id has the empty box, which the grown viewport does not
    meet.  The index has two leaves of five items; the box of either
    leaf is the box of its points, the grown viewport contains it, and
    the leaf is emptied without a look at its items. *)
Lemma vertexless_polygon_attached :
  In ("e"%string,
      mkShapeData (mkGraphics 9 (createGraphics emptyPolygon) "e" ["e"%string])
        emptyPolygon true)
     (shapes (fst (cullShapes inOrder crowdViewport crowdedManager)))
  /\ spatialIndex (fst (cullShapes inOrder crowdViewport crowdedManager))
     = Some crowdIndex
  /\ ~ (exists item, In item crowdIndex /\ item_id item = "e"%string
                     /\ intersects (bufferedBounds crowdViewport) (bbox item) = true).
Proof.
  split; [apply (crowd_flagged inOrder)|]. split.
  - rewrite cullShapes_index. reflexivity.
  - intros (item & Hin & Hid & Hx). unfold crowdIndex, crowd in Hin. cbn [map] in Hin.
    repeat (destruct Hin as [<- | Hin]; [try discriminate Hid|]); [|destruct Hin].
    cbn [bbox calculateShapeBounds emptyPolygon fold_left] in Hx.
    rewrite intersects_emptyBounds in Hx. discriminate Hx.
Qed.

Lemma generate_single_shape_culled_witness :
  List.length (StressTest.generateStressTestShapes halves singleConfig) = 1%nat
  /\ Detail.count
       (snd (cullShapes inOrder worldViewport
               (loadShapes (StressTest.generateStressTestShapes halves singleConfig)
                  newShapeManager))) = 1%nat
  /\ Detail.total
       (snd (cullShapes inOrder worldViewport
               (loadShapes (StressTest.generateStressTestShapes halves singleConfig)
                  newShapeManager))) = 1%nat.
Proof.
  assert (Hone : StressTest.targetShapeCount singleConfig = 1) by reflexivity.
  assert (Hw : 0 < StressTest.areaWidth singleConfig) by (simpl; lra).
  assert (Hh : 0 < StressTest.areaHeight singleConfig) by (simpl; lra).
  destruct (generate_single_shape_culled inOrder halves singleConfig Hone Hw Hh)
    as (Hlen & _ & Hcull).
  split; [exact Hlen|]. apply Hcull.
  rewrite (generate_one halves singleConfig Hone Hw Hh).
  intros s c [<- | []] Hc. unfold inside, worldViewport, halves.
  cbn in Hc. unfold StressTest.originX, StressTest.originY, StressTest.subAreaSize,
    halves in Hc. cbn in Hc.
  cbn [vx vy width height].
  destruct Hc as [<- | [<- | [<- | [<- | [<- | []]]]]]; cbn [x y]; lra.
Defined.

Lemma cull_attaches_exactly_witness :
  let sd := set_inScene
              (wanted (candidates inOrder sampleViewport (buildSpatialIndex pointManager))
                 (lodLevel (zoomOutFactor sampleViewport)) ("p"%string, lonePointData))
              lonePointData in
  inScene sd = true <->
  intersects (bufferedBounds sampleViewport) (calculateShapeBounds (shape sd)) = true
  /\ (is_line (shape sd) = false \/ lodLevel (zoomOutFactor sampleViewport) = 0%nat).
Proof.
  intros sd.
  assert (Hin : In ("p"%string, sd)
                  (shapes (fst (cullShapes inOrder sampleViewport
                                  (buildSpatialIndex pointManager))))).
  { rewrite cullShapes_shapes.
    change (shapes (buildSpatialIndex pointManager))
      with [("p"%string, lonePointData)].
    left. reflexivity. }
  apply (cull_attaches_exactly inOrder sampleViewport pointManager "p" sd
           keyed_pointManager Hin).
  left. apply andb_true_iff. split; apply leb_true_iff; simpl; lra.
Defined.

Lemma empty_shape_never_attached_witness :
  inScene
    (set_inScene
       (wanted (candidates inOrder sampleViewport (buildSpatialIndex emptyPolygonManager))
          (lodLevel (zoomOutFactor sampleViewport)) ("e"%string, emptyPolygonData))
       emptyPolygonData) = false.
Proof.
  assert (Hk : Keyed emptyPolygonManager).
  { split.
    - evaluate. constructor; [simpl; tauto | constructor].
    - intros i sd Hin.
      change (shapes emptyPolygonManager) with [("e"%string, emptyPolygonData)] in Hin.
      destruct Hin as [Heq | []]. inversion Heq; subst. reflexivity. }
  apply (empty_shape_never_attached inOrder sampleViewport emptyPolygonManager "e" _ Hk).
  - simpl. lia.
  - rewrite cullShapes_shapes.
    change (shapes (buildSpatialIndex emptyPolygonManager))
      with [("e"%string, emptyPolygonData)].
    left. reflexivity.
  - discriminate.
  - reflexivity.
Defined.

Lemma late_shape_never_shown_witness :
  spatialIndex
    (fold_left (fun m op => perform inOrder identity op m)
       [AddShape triangle; CullShapes sampleViewport; SelectShape "a" false;
        CullShapes sampleViewport]
       (buildSpatialIndex pointManager))
  = Some [mkItem (calculateShapeBounds samplePoint) "p"]
  /\ forall sd,
       In ("a"%string, sd)
         (shapes
            (fold_left (fun m op => perform inOrder identity op m)
               [AddShape triangle; CullShapes sampleViewport; SelectShape "a" false;
                CullShapes sampleViewport]
               (buildSpatialIndex pointManager))) ->
       inScene sd = false.
Proof.
  apply (late_shape_never_shown inOrder identity
           [AddShape triangle; CullShapes sampleViewport; SelectShape "a" false;
            CullShapes sampleViewport]
           (buildSpatialIndex pointManager)
           [mkItem (calculateShapeBounds samplePoint) "p"] "a").
  - reflexivity.
  - intros item [<- | []]. discriminate.
  - intros sd [H | []]. discriminate.
  - repeat constructor; discriminate.
Defined.

Lemma replaced_graphics_stay_witness :
  In (gid (graphics shownPointData))
     (shapesContainer
        (fold_left (fun m op => perform inOrder identity op m)
           [RemoveShape "p"; CullShapes sampleViewport]
           (fst (addShape samplePoint
                   (run inOrder identity [AddShape samplePoint; CullShapes sampleViewport])))))
  /\ forall i sd',
       In (i, sd')
          (shapes (fold_left (fun m op => perform inOrder identity op m)
                     [RemoveShape "p"; CullShapes sampleViewport]
                     (fst (addShape samplePoint
                             (run inOrder identity
                                [AddShape samplePoint; CullShapes sampleViewport]))))) ->
       gid (graphics sd') <> gid (graphics shownPointData).
Proof.
  apply (replaced_graphics_stay inOrder identity
           [AddShape samplePoint; CullShapes sampleViewport]
           [RemoveShape "p"; CullShapes sampleViewport] samplePoint shownPointData).
  - change (run inOrder identity [AddShape samplePoint; CullShapes sampleViewport])
      with (fst (cullShapes inOrder sampleViewport pointManager)).
    rewrite cullShapes_shapes.
    change (shapes pointManager) with [("p"%string, lonePointData)].
    cbn [map]. unfold reconciled, wanted. cbn [fst snd shape].
    rewrite (sample_candidate inOrder), sample_lodLevel. reflexivity.
  - reflexivity.
  - repeat constructor; discriminate.
Defined.
